(** * Order-book aggregation and market-order pricing

    A shallow embedding of [orderbook_aggregator.py]:

    - [rate_limiter] / [wrapper]: the single-slot, time-windowed cache put
      in front of a venue fetch;
    - [aggregate_orderbooks]: concatenation of the venues' levels and the
      two sorts by price;
    - [compute_buy_cost] / [compute_sell_revenue]: the greedy walk over a
      sorted side;
    - [fetch_coinbase_orderbook] / [fetch_gemini_orderbook]: the
      normalisation of a venue's answer, over the operations of the
      Python runtime taken as parameters;
    - [main]: the two fetches, the guards on empty sides, and the two
      prices, with the printed lines kept unformatted.

    Numbers.  Prices, sizes, quantities and clock readings are Python
    floats, that is binary64 doubles.  A double is modelled by the
    rational it stands for ([Q]).  The arithmetic of the walk rounds:
    [a + b], [a - b] and [a * b] are the exact result followed by
    [rnd64], rounding to the nearest double with ties to even and with
    subnormals ([Binary64.fadd], [fsub], [fmul]).  Comparisons, [min] and
    the unary minus of the sort key are exact on doubles and are the exact
    operations here.  The difference of two clock readings in [wrapper] is
    taken exactly: for readings of [time.time()] it is a double whenever
    it is below [min_interval].  NaN, infinities and overflow are outside
    the model, and the two zeros of binary64 are one number.  Values of
    [Q] are compared with [==] ([Qeq]), since one rational has several
    representations. *)

From Stdlib Require Import String.
From Stdlib Require Import List Bool Arith ZArith QArith Qminmax.
From Stdlib Require Import Qround Qpower Qreduction.
From Stdlib Require Import Lia Lqa Permutation Sorted Morphisms.
Import ListNotations.

Local Open Scope Q_scope.

(** ** Comparisons as the program evaluates them *)

(** Python's [a < b] on two numbers. *)
Definition Qlt_bool (a b : Q) : bool :=
  match a ?= b with
  | Lt => true
  | _ => false
  end.

(** ** Binary64 arithmetic *)

Module Binary64.

(** The exponent of the smallest quantum: the subnormal doubles are the
    multiples of [2^-1074]. *)
Definition emin : Z := (-1074)%Z.

(** The binade of [x > 0]: the [l] with [2^l <= x < 2^(l+1)]. *)
Definition ilog2 (x : Q) : Z :=
  let l := (Z.log2 (Qnum x) - Z.log2 (Zpos (Qden x)))%Z in
  if Qle_bool (2 ^ l) x then l else (l - 1)%Z.

(** Rounding to the nearest integer, ties to even. *)
Definition rne (x : Q) : Z :=
  let f := Qfloor x in
  match Qcompare (x - inject_Z f) (1 # 2) with
  | Lt => f
  | Gt => (f + 1)%Z
  | Eq => if Z.even f then f else (f + 1)%Z
  end.

(** The exponent of the quantum at [x >= 0]: a double has 53 bits, so
    the quantum is 52 binades below [x], and never below [2^emin]. *)
Definition quantum_exp (x : Q) : Z := Z.max emin (ilog2 x - 52).

(** The double nearest to [x >= 0]. *)
Definition round_nonneg (x : Q) : Q :=
  let e := quantum_exp x in
  inject_Z (rne (x / 2 ^ e)) * 2 ^ e.

(** The double nearest to [x], ties to even: what a binary64 operation
    returns when [x] is its exact result.  The fraction is reduced on the
    way in and on the way out. *)
Definition rnd64 (x : Q) : Q :=
  let x := Qred x in
  Qred (if Qlt_bool x 0 then - round_nonneg (- x) else round_nonneg x).

(** Python's [a + b], [a - b] and [a * b] on floats. *)
Definition fadd (a b : Q) : Q := rnd64 (a + b).
Definition fsub (a b : Q) : Q := rnd64 (a - b).
Definition fmul (a b : Q) : Q := rnd64 (a * b).

(** The rationals that are doubles. *)
Definition is_double (x : Q) : Prop := rnd64 x == x.

(** The multiples of [2^g]. *)
Definition on_grid (g : Z) (x : Q) : Prop :=
  exists k : Z, x == inject_Z k * 2 ^ g.

(** The doubles that [float("0.2")] and [float("0.6")] return. *)
Definition double_0_2 : Q := 3602879701896397 # 18014398509481984.
Definition double_0_6 : Q := 5404319552844595 # 9007199254740992.

End Binary64.

Arguments Binary64.rnd64 : simpl never.
Arguments Binary64.fadd : simpl never.
Arguments Binary64.fsub : simpl never.
Arguments Binary64.fmul : simpl never.

(** ** Price levels *)

(** A level is the two-element list [[price, size]] the venue adapters
    build; [x[0]] is the price and [x[1]] the size. *)
Definition level : Type := Q * Q.

Definition price (x : level) : Q := fst x.
Definition size (x : level) : Q := snd x.

(** [sum(level.size for level in levels)]. *)
Fixpoint total_size (levels : list level) : Q :=
  match levels with
  | [] => 0
  | x :: rest => size x + total_size rest
  end.

(** The data-model invariants of a level, one per field. *)
Definition sizes_nonneg (levels : list level) : Prop :=
  Forall (fun x => 0 <= size x) levels.

Definition prices_pos (levels : list level) : Prop :=
  Forall (fun x => 0 < price x) levels.

(** ** The walk: [compute_buy_cost] and [compute_sell_revenue] *)

(** The only exception the two functions raise, with its message. *)
Inductive exn : Type :=
| ValueError (msg : string).

(** A Python call either returns a value or raises an exception. *)
Inductive outcome (E T : Type) : Type :=
| Returns (v : T)
| Raises (e : E).
Arguments Returns {E T} v.
Arguments Raises {E T} e.

Module Walker.

Import Binary64.

(** The [for price, size in asks] loop of [compute_buy_cost], from the
    values of [total_cost] and [remaining] on entry to their values when
    the loop is left (by [break] or by exhaustion). *)
Fixpoint buy_loop (asks : list level) (total_cost remaining : Q) : Q * Q :=
  match asks with
  | [] => (total_cost, remaining)
  | (price, size) :: rest =>
      let available := Qmin size remaining in
      let total_cost := fadd total_cost (fmul available price) in
      let remaining := fsub remaining available in
      if Qle_bool remaining 0 then (total_cost, remaining)
      else buy_loop rest total_cost remaining
  end.

Definition compute_buy_cost (asks : list level) (qty : Q) : outcome exn Q :=
  let '(total_cost, remaining) := buy_loop asks 0 qty in
  if Qlt_bool 0 remaining
  then Raises (ValueError "Insufficient liquidity to buy the requested quantity.")
  else Returns total_cost.

(** The loop of [compute_sell_revenue]; the source repeats the code of
    [compute_buy_cost] with other names, and so does the model. *)
Fixpoint sell_loop (bids : list level) (total_revenue remaining : Q) : Q * Q :=
  match bids with
  | [] => (total_revenue, remaining)
  | (price, size) :: rest =>
      let available := Qmin size remaining in
      let total_revenue := fadd total_revenue (fmul available price) in
      let remaining := fsub remaining available in
      if Qle_bool remaining 0 then (total_revenue, remaining)
      else sell_loop rest total_revenue remaining
  end.

Definition compute_sell_revenue (bids : list level) (qty : Q) : outcome exn Q :=
  let '(total_revenue, remaining) := sell_loop bids 0 qty in
  if Qlt_bool 0 remaining
  then Raises (ValueError "Insufficient liquidity to sell the requested quantity.")
  else Returns total_revenue.

(** What a caller sees of a walk when it does not read the message: the
    total, or nothing when the call raised. *)
Definition total_of (r : outcome exn Q) : option Q :=
  match r with
  | Returns v => Some v
  | Raises _ => None
  end.

(** The algorithm in the words of the specification, in binary64
    arithmetic as it prescribes: keep [total] and [remaining]; each level
    in order contributes [min(level.size, remaining) * level.price] and
    lowers [remaining] by the amount taken; once [remaining <= 0] the
    walk has stopped and the later levels contribute nothing. *)
Definition greedy_step (acc : Q * Q) (x : level) : Q * Q :=
  let '(total, remaining) := acc in
  if Qle_bool remaining 0 then acc
  else
    let taken := Qmin (size x) remaining in
    (fadd total (fmul taken (price x)), fsub remaining taken).

Definition greedy_total (levels : list level) (qty : Q) : Q :=
  fst (fold_left greedy_step levels (0, qty)).

(** What the greedy walk leaves to fill. *)
Definition greedy_remaining (levels : list level) (qty : Q) : Q :=
  snd (fold_left greedy_step levels (0, qty)).

(** No subtraction [remaining -= available] of the walk is rounded: at
    every level the loop visits, the difference is a double. *)
Fixpoint exact_remaining (levels : list level) (remaining : Q) : Prop :=
  match levels with
  | [] => True
  | (price, size) :: rest =>
      let available := Qmin size remaining in
      fsub remaining available == remaining - available /\
      (if Qle_bool (fsub remaining available) 0 then True
       else exact_remaining rest (fsub remaining available))
  end.

(** No operation of the walk is rounded: at every level the loop visits,
    the product, the sum and the difference are doubles. *)
Fixpoint exact_walk (levels : list level) (total remaining : Q) : Prop :=
  match levels with
  | [] => True
  | (price, size) :: rest =>
      let available := Qmin size remaining in
      fmul available price == available * price /\
      fadd total (fmul available price) == total + available * price /\
      fsub remaining available == remaining - available /\
      (if Qle_bool (fsub remaining available) 0 then True
       else exact_walk rest (fadd total (fmul available price))
                       (fsub remaining available))
  end.

End Walker.

(** ** The aggregator: [aggregate_orderbooks] *)

Module Aggregator.

Section Sorted.

Context {T : Type}.
Variable key : T -> Q.

(** Python's [sorted(xs, key=key)] returns the elements in ascending
    order of their keys, compares keys with [<] only and is stable:
    elements whose keys do not compare as smaller keep the order they
    have in [xs].  A sorted and stable rearrangement of a list is unique
    (see [sorted_unique] below), so the list is computed here by
    insertion, whatever algorithm the interpreter runs.

    [insert x l] puts [x], which stood before all of [l], in front of the
    first element whose key is not smaller than the key of [x]. *)
Fixpoint insert (x : T) (l : list T) : list T :=
  match l with
  | [] => [x]
  | y :: l' =>
      if Qlt_bool (key y) (key x) then y :: insert x l'
      else x :: y :: l'
  end.

Fixpoint sorted (xs : list T) : list T :=
  match xs with
  | [] => []
  | x :: xs' => insert x (sorted xs')
  end.

(** The order [sorted] establishes between an element and those after
    it. *)
Definition ascending (x y : T) : Prop := key x <= key y.

(** The elements whose key equals [k], in the order of the list. *)
Definition with_key (k : Q) (l : list T) : list T :=
  filter (fun x => Qeq_bool (key x) k) l.

End Sorted.

(** [[entry for sublist in lists for entry in sublist]]. *)
Definition flatten (lists : list (list level)) : list level :=
  concat lists.

Definition aggregate_orderbooks (bid_lists ask_lists : list (list level))
  : list level * list level :=
  let all_bids := sorted (fun x => - fst x) (flatten bid_lists) in
  let all_asks := sorted (fun x => fst x) (flatten ask_lists) in
  (all_bids, all_asks).

(** The levels of a list that stand at price [p], in the order of the
    list. *)
Definition at_price (p : Q) (l : list level) : list level :=
  filter (fun x => Qeq_bool (price x) p) l.

(** Every level is followed only by levels at the same or a lower price. *)
Definition non_increasing (l : list level) : Prop :=
  StronglySorted (fun x y => price y <= price x) l.

(** Every level is followed only by levels at the same or a higher price. *)
Definition non_decreasing (l : list level) : Prop :=
  StronglySorted (fun x y => price x <= price y) l.

End Aggregator.

(** ** The rate limiter: [rate_limiter], [decorator], [wrapper] *)

Module RateLimiter.

Section Wrapper.

(** [A]: the arguments of the wrapped function; [V]: the values it can
    return other than [None]; [E]: the exceptions it can raise; [U]: the
    state of whatever the wrapped function talks to (the venue). *)
Variables A V E U : Type.

(** The closure's [state] dictionary.  A Python value is [None] or some
    [v : V]; [state["result"]] starts as [None] and later holds whatever
    the wrapped function returned. *)
Record state : Type := mkState {
  t : Q;
  result : option V
}.

(** The [state] a fresh [decorator(func)] creates. *)
Definition fresh : state := {| t := 0; result := None |}.

(** What a run can change: the closure's dictionary and the venue.
    [invocations] is a ghost counter of the calls made to the wrapped
    function; the program has no such variable. *)
Record world : Type := mkWorld {
  st : state;
  upstream : U;
  invocations : nat
}.

Definition start (u : U) : world :=
  {| st := fresh; upstream := u; invocations := 0 |}.

Variable min_interval : Q.
Variable func : A -> U -> outcome E (option V) * U.

(** [state["result"] is not None]. *)
Definition is_not_None (r : option V) : bool :=
  match r with
  | Some _ => true
  | None => false
  end.

(** The test of the first [with lock] block:
    [(now - state["t"] < min_interval) and (state["result"] is not None)]. *)
Definition within_interval (now : Q) (s : state) : bool :=
  Qlt_bool (now - t s) min_interval && is_not_None (result s).

(** One call of [wrapper] by a single thread; [now] is the value read
    from [time.time()].  The lock is free on entry and free on exit and
    nobody else takes it, so the two [with lock] blocks run as written. *)
Definition wrapper (args : A) (now : Q) (w : world)
  : outcome E (option V) * world :=
  if within_interval now (st w)
  then (Returns (result (st w)), w)
  else
    let '(r, u) := func args (upstream w) in
    match r with
    | Raises e =>
        (Raises e,
         {| st := st w; upstream := u; invocations := S (invocations w) |})
    | Returns v =>
        (Returns v,
         {| st := {| t := now; result := v |};
            upstream := u;
            invocations := S (invocations w) |})
    end.

(** What one call did, seen from outside: whether the wrapped function
    was invoked during it, and how the call ended. *)
Record call : Type := mkCall {
  invoked : bool;
  ended : outcome E (option V)
}.

Definition observe (args : A) (now : Q) (w : world) : call * world :=
  let '(r, w') := wrapper args now w in
  ({| invoked := negb (invocations w' =? invocations w)%nat; ended := r |}, w').

(** A single-threaded caller making the calls [calls] one after the
    other, each with its arguments and its clock reading. *)
Fixpoint session (calls : list (A * Q)) (w : world) : list call * world :=
  match calls with
  | [] => ([], w)
  | (args, now) :: rest =>
      let '(c, w') := observe args now w in
      let '(cs, w'') := session rest w' in
      (c :: cs, w'')
  end.

(** *** Several threads

    The same code run by several threads.  A thread inside [wrapper] is
    at one of three points; between two of them it runs one of the
    blocks of the function.  The two [with lock] blocks exclude each
    other and only they touch [state], so each of them is one step. *)
Inductive pc : Type :=
| Idle
    (* not inside [wrapper] *)
| AtCheck (args : A) (now : Q)
    (* [now] has been read; the first [with lock] block comes next *)
| AtCall (args : A) (now : Q)
    (* the first block did not return; the call of [func] comes next *)
| AtUpdate (now : Q) (res : option V)
    (* [func] has returned [res]; the second [with lock] block comes next *).

(** What the scheduler decides: thread [i] calls [wrapper] (and reads the
    clock), or thread [i] runs up to its next point. *)
Inductive action : Type :=
| Begin (i : nat) (args : A) (now : Q)
| Go (i : nat).

(** What a step does that others can see. *)
Inductive event : Type :=
| Entered (i : nat)
| Hit (i : nat) (res : option V)
    (* the first block returned [state["result"]] *)
| Missed (i : nat)
| Invoked (i : nat) (r : outcome E (option V))
    (* [func] was called and returned or raised; what it raises leaves
       [wrapper] at once *)
| Stored (i : nat) (res : option V)
    (* the second block wrote [state] and [wrapper] returned [res] *).

Record conf : Type := mkConf {
  threads : nat -> pc;
  shared : world
}.

Definition set_pc (i : nat) (p : pc) (ths : nat -> pc) : nat -> pc :=
  fun j => if (j =? i)%nat then p else ths j.

Definition boot (u : U) : conf :=
  {| threads := fun _ => Idle; shared := start u |}.

(** One step, or [None] when the thread cannot do what the scheduler
    asks. *)
Definition step (c : conf) (a : action) : option (event * conf) :=
  match a with
  | Begin i args now =>
      match threads c i with
      | Idle =>
          Some (Entered i,
                {| threads := set_pc i (AtCheck args now) (threads c);
                   shared := shared c |})
      | _ => None
      end
  | Go i =>
      match threads c i with
      | Idle => None
      | AtCheck args now =>
          if within_interval now (st (shared c))
          then Some (Hit i (result (st (shared c))),
                     {| threads := set_pc i Idle (threads c);
                        shared := shared c |})
          else Some (Missed i,
                     {| threads := set_pc i (AtCall args now) (threads c);
                        shared := shared c |})
      | AtCall args now =>
          let '(r, u) := func args (upstream (shared c)) in
          let w := {| st := st (shared c);
                      upstream := u;
                      invocations := S (invocations (shared c)) |} in
          match r with
          | Raises e =>
              Some (Invoked i (Raises e),
                    {| threads := set_pc i Idle (threads c); shared := w |})
          | Returns res =>
              Some (Invoked i (Returns res),
                    {| threads := set_pc i (AtUpdate now res) (threads c);
                       shared := w |})
          end
      | AtUpdate now res =>
          Some (Stored i res,
                {| threads := set_pc i Idle (threads c);
                   shared := {| st := {| t := now; result := res |};
                                upstream := upstream (shared c);
                                invocations := invocations (shared c) |} |})
      end
  end.

(** The events at which a call of [wrapper] ends, with the way it ends. *)
Definition call_end (ev : event) : option (outcome E (option V)) :=
  match ev with
  | Hit _ res => Some (Returns res)
  | Stored _ res => Some (Returns res)
  | Invoked _ (Raises e) => Some (Raises e)
  | _ => None
  end.

(** A run under a schedule; what a thread cannot do is skipped. *)
Fixpoint run (c : conf) (schedule : list action) : list event * conf :=
  match schedule with
  | [] => ([], c)
  | a :: rest =>
      match step c a with
      | Some (ev, c') =>
          let '(evs, c'') := run c' rest in (ev :: evs, c'')
      | None => run c rest
      end
  end.

End Wrapper.

Arguments t {V} _.
Arguments result {V} _.
Arguments fresh {V}.
Arguments st {V U} _.
Arguments upstream {V U} _.
Arguments invocations {V U} _.
Arguments mkState {V} _ _.
Arguments mkWorld {V U} _ _ _.
Arguments start {V U} _.
Arguments is_not_None {V} _.
Arguments within_interval {V} _ _ _.
Arguments wrapper {A V E U} _ _ _ _ _.
Arguments invoked {V E} _.
Arguments ended {V E} _.
Arguments mkCall {V E} _ _.
Arguments observe {A V E U} _ _ _ _ _.
Arguments session {A V E U} _ _ _ _.
Arguments Idle {A V}.
Arguments AtCheck {A V} _ _.
Arguments AtCall {A V} _ _.
Arguments AtUpdate {A V} _ _.
Arguments Begin {A} _ _ _.
Arguments Go {A} _.
Arguments Entered {V E} _.
Arguments Hit {V E} _ _.
Arguments Missed {V E} _.
Arguments Invoked {V E} _ _.
Arguments Stored {V E} _ _.
Arguments threads {A V U} _ _.
Arguments shared {A V U} _.
Arguments mkConf {A V U} _ _.
Arguments set_pc {A V} _ _ _ _.
Arguments boot {A V U} _.
Arguments call_end {V E} _.
Arguments step {A V E U} _ _ _ _.
Arguments run {A V E U} _ _ _ _.

(** Wrapped functions to run the wrapper on.  The venue state is the
    number of requests it has answered. *)

(** A fetch that always succeeds and returns the number of the request. *)
Definition numbered_fetch (_ : unit) (u : nat) : outcome string (option nat) * nat :=
  (Returns (Some u), S u).

(** A fetch that always raises. *)
Definition failing_fetch (_ : unit) (u : nat) : outcome string (option nat) * nat :=
  (Raises "timeout"%string, S u).

(** A function that returns [None] to the first request and [7] to the
    later ones. *)
Definition none_first (_ : unit) (u : nat) : outcome string (option nat) * nat :=
  match u with
  | O => (Returns None, S u)
  | S _ => (Returns (Some 7%nat), S u)
  end.

End RateLimiter.

(** ** Fills: what a walk takes from each level *)

Module Fills.

(** A fill gives, level by level and in the order of the book, the
    quantity taken from the level. *)

(** The quantity a fill takes in all. *)
Fixpoint amount (xs : list Q) : Q :=
  match xs with
  | [] => 0
  | a :: rest => a + amount rest
  end.

(** What a fill costs a buyer, or brings a seller: each quantity at the
    price of its level. *)
Fixpoint notional (levels : list level) (xs : list Q) : Q :=
  match levels, xs with
  | x :: levels', a :: xs' => a * price x + notional levels' xs'
  | _, _ => 0
  end.

(** A fill the book allows: one quantity per level, none negative and
    none above the size of its level. *)
Definition feasible (levels : list level) (xs : list Q) : Prop :=
  Forall2 (fun x a => 0 <= a /\ a <= size x) levels xs.

(** The values [available] takes in the loop of [compute_buy_cost] and
    [compute_sell_revenue], one per level; the levels after the [break]
    are not visited and give nothing. *)
Fixpoint takes (levels : list level) (remaining : Q) : list Q :=
  match levels with
  | [] => []
  | (price, size) :: rest =>
      let available := Qmin size remaining in
      let remaining := Binary64.fsub remaining available in
      if Qle_bool remaining 0 then available :: map (fun _ => 0) rest
      else available :: takes rest remaining
  end.

(** The book with the sign of every price changed. *)
Definition negated (levels : list level) : list level :=
  map (fun x => (- price x, size x)) levels.

End Fills.

(** ** Books without ties *)

Module Book.

(** No two elements of the list have the same key. *)
Definition no_ties {T : Type} (key : T -> Q) (l : list T) : Prop :=
  ForallOrdPairs (fun x y => ~ key x == key y) l.

(** No two levels of the list stand at the same price. *)
Definition distinct_prices (l : list level) : Prop :=
  no_ties price l.

End Book.

(** ** The venue adapters: [fetch_coinbase_orderbook], [fetch_gemini_orderbook] *)

(** Sequencing of calls that can raise: the first exception leaves. *)
Definition bind {E S T : Type} (c : outcome E S) (k : S -> outcome E T)
  : outcome E T :=
  match c with
  | Returns v => k v
  | Raises e => Raises e
  end.

Module Fetchers.

Section Venues.

(** The adapters work on what [response.json()] hands them, with
    operations of the Python runtime.  Those are not code of the
    program; they are taken as they come:
    - [pyobj]: the decoded values; [E]: the exceptions; [U]: the state
      of the network;
    - [get_json url]: [requests.get(url, timeout=5)] followed by
      [response.json()];
    - [getitem obj key]: [obj[key]] for a string key;
    - [iterate obj]: the items that a [for] over [obj], or an unpacking
      of [obj], reads;
    - [float obj]: [float(obj)];
    - [unpack_error n]: the [ValueError] of unpacking [n] items into
      three names, for [n] other than 3. *)
Variables pyobj E U : Type.
Variable get_json : string -> U -> outcome E pyobj * U.
Variable getitem : pyobj -> string -> outcome E pyobj.
Variable iterate : pyobj -> outcome E (list pyobj).
Variable float : pyobj -> outcome E Q.
Variable unpack_error : nat -> E.

(** A list comprehension [[f(x) for x in xs]] whose element expression
    can raise. *)
Fixpoint comprehension (f : pyobj -> outcome E level) (xs : list pyobj)
  : outcome E (list level) :=
  match xs with
  | [] => Returns []
  | x :: rest =>
      bind (f x) (fun y =>
      bind (comprehension f rest) (fun ys =>
      Returns (y :: ys)))
  end.

(** [[float(price), float(size)]] for [price, size, _] unpacked from one
    entry. *)
Definition coinbase_level (entry : pyobj) : outcome E level :=
  bind (iterate entry) (fun items =>
  match items with
  | [price; size; _] =>
      bind (float price) (fun p =>
      bind (float size) (fun s =>
      Returns (p, s)))
  | _ => Raises (unpack_error (length items))
  end).

(** [[float(entry['price']), float(entry['amount'])]]. *)
Definition gemini_level (entry : pyobj) : outcome E level :=
  bind (getitem entry "price") (fun price =>
  bind (float price) (fun p =>
  bind (getitem entry "amount") (fun amount =>
  bind (float amount) (fun a =>
  Returns (p, a))))).

(** One of the two comprehensions of an adapter: over [data['bids']] or
    over [data['asks']]. *)
Definition side (per_entry : pyobj -> outcome E level) (data : pyobj)
    (key : string) : outcome E (list level) :=
  bind (getitem data key) (fun entries =>
  bind (iterate entries) (fun items =>
  comprehension per_entry items)).

Definition coinbase_url : string :=
  "https://api.exchange.coinbase.com/products/BTC-USD/book?level=2".

Definition gemini_url : string :=
  "https://api.gemini.com/v1/book/BTCUSD".

(** The undecorated functions. *)
Definition fetch_coinbase_orderbook (u : U)
  : outcome E (list level * list level) * U :=
  let '(response, u') := get_json coinbase_url u in
  (bind response (fun data =>
   bind (side coinbase_level data "bids") (fun bids =>
   bind (side coinbase_level data "asks") (fun asks =>
   Returns (bids, asks)))),
   u').

Definition fetch_gemini_orderbook (u : U)
  : outcome E (list level * list level) * U :=
  let '(response, u') := get_json gemini_url u in
  (bind response (fun data =>
   bind (side gemini_level data "bids") (fun bids =>
   bind (side gemini_level data "asks") (fun asks =>
   Returns (bids, asks)))),
   u').

(** What it takes for an entry to become a level. *)
Definition coinbase_entry_ok (entry : pyobj) (x : level) : Prop :=
  exists price size other,
    iterate entry = Returns [price; size; other] /\
    float price = Returns (fst x) /\
    float size = Returns (snd x).

Definition gemini_entry_ok (entry : pyobj) (x : level) : Prop :=
  exists price amount,
    getitem entry "price" = Returns price /\
    float price = Returns (fst x) /\
    getitem entry "amount" = Returns amount /\
    float amount = Returns (snd x).

(** What it takes for [data[key]] to become a side of a book. *)
Definition side_ok (entry_ok : pyobj -> level -> Prop) (data : pyobj)
    (key : string) (levels : list level) : Prop :=
  exists entries items,
    getitem data key = Returns entries /\
    iterate entries = Returns items /\
    Forall2 entry_ok items levels.

End Venues.

Arguments comprehension {pyobj E} _ _.
Arguments coinbase_level {pyobj E} _ _ _ _.
Arguments gemini_level {pyobj E} _ _ _.
Arguments side {pyobj E} _ _ _ _ _.
Arguments fetch_coinbase_orderbook {pyobj E U} _ _ _ _ _ _.
Arguments fetch_gemini_orderbook {pyobj E U} _ _ _ _ _.
Arguments coinbase_entry_ok {pyobj E} _ _ _ _.
Arguments gemini_entry_ok {pyobj E} _ _ _ _.
Arguments side_ok {pyobj E} _ _ _ _ _ _.

End Fetchers.

(** ** The driver: [main] *)

Module Driver.

Import Walker Aggregator RateLimiter.

Section Main.

(** [E]: the exceptions of the adapters; [U]: the state of the network. *)
Variables E U : Type.

(** What an adapter returns: [bids, asks]. *)
Definition book : Type := list level * list level.

(** The two functions under their decorators, before decoration. *)
Variable fetch_coinbase_orderbook : U -> outcome E book * U.
Variable fetch_gemini_orderbook : U -> outcome E book * U.

(** An adapter as the decorator sees it: a function of no argument that
    returns a Python value, here always a pair and never [None]. *)
Definition as_func (fetch : U -> outcome E book * U)
  : unit -> U -> outcome E (option book) * U :=
  fun _ u =>
    let '(r, u') := fetch u in
    (match r with
     | Returns b => Returns (Some b)
     | Raises e => Raises e
     end, u').

(** What [except Exception as e] can catch around
    [bids, asks = fetch()]: what the call raised, or the [TypeError] of
    unpacking [None]. *)
Inductive caught : Type :=
| Raised (e : E)
| CannotUnpackNone.

(** The lines [main] prints, before they are formatted. *)
Inductive line : Type :=
| FailedCoinbase (e : caught)
    (* "Failed to fetch from Coinbase: {e}" *)
| FailedGemini (e : caught)
    (* "Failed to fetch from Gemini: {e}" *)
| NoBidData
    (* "No bid data available from any exchange." *)
| NoAskData
    (* "No ask data available from any exchange." *)
| ToBuy (qty buy_cost : Q)
    (* "To buy {qty} BTC: ${buy_cost:,.2f}" *)
| BuyError (e : exn)
    (* "Buy Error: {e}" *)
| ToSell (qty sell_revenue : Q)
    (* "To sell {qty} BTC: ${sell_revenue:,.2f}" *)
| SellError (e : exn)
    (* "Sell Error: {e}" *).

(** What lives as long as the process: the closures of the two decorated
    functions, and the network.  [fetches] is a ghost count of the calls
    made to the adapters. *)
Record process : Type := mkProcess {
  coinbase : state book;
  gemini : state book;
  net : U;
  fetches : nat
}.

Definition boot (u : U) : process :=
  {| coinbase := fresh; gemini := fresh; net := u; fetches := 0 |}.

(** [try: bids, asks = fetch() / except Exception as e: print(...);
    bids, asks = [], []]: what was caught if anything, the two lists, and
    the world after the call.  The decorator was applied with its default
    [min_interval] of 2 seconds. *)
Definition try_fetch (fetch : U -> outcome E book * U) (now : Q)
    (s : state book) (u : U) (n : nat) : option caught * book * world book U :=
  match wrapper 2 (as_func fetch) tt now
          {| st := s; upstream := u; invocations := n |} with
  | (Returns (Some b), w) => (None, b, w)
  | (Returns None, w) => (Some CannotUnpackNone, ([], []), w)
  | (Raises e, w) => (Some (Raised e), ([], []), w)
  end.

(** Python's [a or b] on two lists. *)
Definition or_else (a b : list level) : list level :=
  match a with
  | [] => b
  | _ :: _ => a
  end.

(** Python's [not x] on a list. *)
Definition is_empty (x : list level) : bool :=
  match x with
  | [] => true
  | _ :: _ => false
  end.

(** [main], for the quantity that the command line gives (10 by default)
    and the two clock readings of the decorated calls. *)
Definition main (qty : Q) (now1 now2 : Q) (p : process) : list line * process :=
  let '(e1, (coinbase_bids, coinbase_asks), w1) :=
    try_fetch fetch_coinbase_orderbook now1 (coinbase p) (net p) (fetches p) in
  let out1 := match e1 with Some e => [FailedCoinbase e] | None => [] end in
  let '(e2, (gemini_bids, gemini_asks), w2) :=
    try_fetch fetch_gemini_orderbook now2 (gemini p) (upstream w1) (invocations w1) in
  let out2 := match e2 with Some e => [FailedGemini e] | None => [] end in
  let p' := {| coinbase := st w1; gemini := st w2;
               net := upstream w2; fetches := invocations w2 |} in
  if is_empty (or_else coinbase_bids gemini_bids)
  then (out1 ++ out2 ++ [NoBidData], p')
  else if is_empty (or_else coinbase_asks gemini_asks)
  then (out1 ++ out2 ++ [NoAskData], p')
  else
    let '(all_bids, all_asks) :=
      aggregate_orderbooks [coinbase_bids; gemini_bids]
                           [coinbase_asks; gemini_asks] in
    let buy :=
      match compute_buy_cost all_asks qty with
      | Returns buy_cost => ToBuy qty buy_cost
      | Raises e => BuyError e
      end in
    let sell :=
      match compute_sell_revenue all_bids qty with
      | Returns sell_revenue => ToSell qty sell_revenue
      | Raises e => SellError e
      end in
    (out1 ++ out2 ++ [buy; sell], p').

(** The lines that give a price or say that none can be given. *)
Definition is_pricing (l : line) : bool :=
  match l with
  | ToBuy _ _ | BuyError _ | ToSell _ _ | SellError _ => true
  | _ => false
  end.

(** The lines that report a failed fetch. *)
Definition is_failure (l : line) : bool :=
  match l with
  | FailedCoinbase _ | FailedGemini _ => true
  | _ => false
  end.

End Main.

Arguments Raised {E} e.
Arguments CannotUnpackNone {E}.
Arguments FailedCoinbase {E} e.
Arguments FailedGemini {E} e.
Arguments NoBidData {E}.
Arguments NoAskData {E}.
Arguments ToBuy {E} qty buy_cost.
Arguments BuyError {E} e.
Arguments ToSell {E} qty sell_revenue.
Arguments SellError {E} e.
Arguments coinbase {U} _.
Arguments gemini {U} _.
Arguments net {U} _.
Arguments fetches {U} _.
Arguments mkProcess {U} _ _ _ _.
Arguments boot {U} _.
Arguments as_func {E U} _ _ _.
Arguments try_fetch {E U} _ _ _ _ _.
Arguments main {E U} _ _ _ _ _ _.
Arguments is_pricing {E} _.
Arguments is_failure {E} _.

(** Adapters to run [main] on.  The network state is the number of
    requests answered. *)
Definition coinbase_up (u : nat) : outcome string book * nat :=
  (Returns ([(99, 1); (98, 2)], [(101, 1); (103, 2)]), S u).

Definition gemini_up (u : nat) : outcome string book * nat :=
  (Returns ([(100, 2)], [(102, 3)]), S u).

Definition venue_down (u : nat) : outcome string book * nat :=
  (Raises "timeout"%string, S u).

Definition venue_quiet (u : nat) : outcome string book * nat :=
  (Returns ([], []), S u).

End Driver.

(** * Properties *)

(** ** Comparisons *)

Lemma Qlt_bool_iff (a b : Q) : Qlt_bool a b = true <-> a < b.
Proof.
  unfold Qlt_bool. rewrite Qlt_alt.
  destruct (a ?= b); split; congruence.
Qed.

Lemma Qlt_bool_false_iff (a b : Q) : Qlt_bool a b = false <-> b <= a.
Proof.
  rewrite <- Bool.not_true_iff_false, Qlt_bool_iff.
  split; [apply Qnot_lt_le | apply Qle_not_lt].
Qed.

Lemma Qle_bool_false_iff (a b : Q) : Qle_bool a b = false <-> b < a.
Proof.
  rewrite <- Bool.not_true_iff_false, Qle_bool_iff.
  split; [apply Qnot_le_lt | apply Qlt_not_le].
Qed.

(** Turns the tests the program made into the facts they established. *)
Ltac tests :=
  repeat match goal with
  | H : Qle_bool _ _ = true |- _ => apply Qle_bool_iff in H
  | H : Qle_bool _ _ = false |- _ => apply Qle_bool_false_iff in H
  | H : Qlt_bool _ _ = true |- _ => apply Qlt_bool_iff in H
  | H : Qlt_bool _ _ = false |- _ => apply Qlt_bool_false_iff in H
  end.

(** [min(size, remaining)] is one of its arguments. *)
Lemma Qmin_cases (s r : Q) :
  (s <= r /\ Qmin s r == s) \/ (r < s /\ Qmin s r == r).
Proof.
  destruct (Qlt_le_dec r s) as [H | H].
  - right. split; [assumption | apply Q.min_r; lra].
  - left. split; [assumption | now apply Q.min_l].
Qed.

(** ** Binary64 arithmetic *)

Module Binary64Facts.

Import Binary64.

Lemma two_neq_0 : ~ 2 == 0.
Proof. discriminate. Qed.

Lemma two_pos (e : Z) : 0 < 2 ^ e.
Proof. apply Qpower_0_lt. reflexivity. Qed.

Lemma two_add (a b : Z) : 2 ^ (a + b) == 2 ^ a * 2 ^ b.
Proof. apply Qpower_plus, two_neq_0. Qed.

Lemma two_sub (a b : Z) : 2 ^ (a - b) == 2 ^ a / 2 ^ b.
Proof. apply Qpower_minus, two_neq_0. Qed.

Lemma two_lt (a b : Z) : (a < b)%Z -> 2 ^ a < 2 ^ b.
Proof. intros H. apply Qpower_lt_compat_l; [exact H | reflexivity]. Qed.

Lemma two_le (a b : Z) : (a <= b)%Z -> 2 ^ a <= 2 ^ b.
Proof. intros H. apply Qpower_le_compat_l; [exact H | discriminate]. Qed.

Lemma two_lt_inv (a b : Z) : 2 ^ a < 2 ^ b -> (a < b)%Z.
Proof. intros H. apply (Qpower_lt_compat_l_inv 2); [exact H | reflexivity]. Qed.

Lemma two_Z (n : Z) : (0 <= n)%Z -> inject_Z (2 ^ n) == 2 ^ n.
Proof. intros H. now apply Zpower_Qpower. Qed.

(** [ilog2 x] is the binade of [x]. *)
Lemma ilog2_spec (x : Q) :
  0 < x -> 2 ^ ilog2 x <= x /\ x < 2 ^ (ilog2 x + 1).
Proof.
  intros Hx. unfold ilog2.
  destruct x as [n d]. cbn [Qnum Qden].
  assert (Hn : (0 < n)%Z) by (unfold Qlt in Hx; simpl in Hx; lia).
  set (a := Z.log2 n). set (b := Z.log2 (Zpos d)).
  assert (Ha0 : (0 <= a)%Z) by apply Z.log2_nonneg.
  assert (Hb0 : (0 <= b)%Z) by apply Z.log2_nonneg.
  destruct (Z.log2_spec n Hn) as [Ha1 Ha2]. fold a in Ha1, Ha2.
  destruct (Z.log2_spec (Zpos d) (Pos2Z.is_pos d)) as [Hb1 Hb2].
  fold b in Hb1, Hb2.
  assert (Hpa : (0 < 2 ^ a)%Z) by (apply Z.pow_pos_nonneg; lia).
  assert (Hpb : (0 < 2 ^ b)%Z) by (apply Z.pow_pos_nonneg; lia).
  rewrite Z.pow_succ_r in Ha2, Hb2 by assumption.
  destruct (Qle_bool (2 ^ (a - b)) (n # d)) eqn:E.
  - apply Qle_bool_iff in E. split; [exact E |].
    replace (a - b + 1)%Z with ((a + 1) - b)%Z by ring.
    rewrite two_sub, <- !two_Z by lia.
    apply Qlt_shift_div_l; [rewrite two_Z by lia; apply two_pos |].
    rewrite Z.pow_add_r by lia. change (2 ^ 1)%Z with 2%Z.
    unfold Qlt, Qmult, inject_Z; simpl. nia.
  - apply Qle_bool_false_iff in E.
    replace (a - b - 1 + 1)%Z with (a - b)%Z by ring. split; [| exact E].
    replace (a - b - 1)%Z with (a - (b + 1))%Z by ring.
    rewrite two_sub, <- !two_Z by lia.
    apply Qle_shift_div_r; [rewrite two_Z by lia; apply two_pos |].
    rewrite Z.pow_add_r by lia. change (2 ^ 1)%Z with 2%Z.
    unfold Qle, Qmult, inject_Z; simpl. nia.
Qed.

Lemma ilog2_le (x : Q) (m : Z) : 0 < x -> x < 2 ^ (m + 1) -> (ilog2 x <= m)%Z.
Proof.
  intros Hx Hm. destruct (ilog2_spec x Hx) as [Hl _].
  assert (H : 2 ^ ilog2 x < 2 ^ (m + 1)) by (eapply Qle_lt_trans; eassumption).
  apply two_lt_inv in H. lia.
Qed.

Lemma ilog2_ge (x : Q) (m : Z) : 0 < x -> 2 ^ m <= x -> (m <= ilog2 x)%Z.
Proof.
  intros Hx Hm. destruct (ilog2_spec x Hx) as [_ Hu].
  assert (H : 2 ^ m < 2 ^ (ilog2 x + 1)) by (eapply Qle_lt_trans; eassumption).
  apply two_lt_inv in H. lia.
Qed.

Lemma ilog2_mono (x y : Q) : 0 < x -> x <= y -> (ilog2 x <= ilog2 y)%Z.
Proof.
  intros Hx Hxy. apply ilog2_ge; [lra |].
  destruct (ilog2_spec x Hx) as [Hl _]. lra.
Qed.

(** *** Rounding to an integer *)

Lemma rne_cases (x : Q) :
  (x - inject_Z (Qfloor x) < 1 # 2 /\ rne x = Qfloor x) \/
  (1 # 2 < x - inject_Z (Qfloor x) /\ rne x = (Qfloor x + 1)%Z) \/
  (x - inject_Z (Qfloor x) == 1 # 2 /\
   rne x = if Z.even (Qfloor x) then Qfloor x else (Qfloor x + 1)%Z).
Proof.
  unfold rne.
  destruct (Qcompare (x - inject_Z (Qfloor x)) (1 # 2)) eqn:E.
  - right. right. split; [now apply Qeq_alt | reflexivity].
  - left. split; [now apply Qlt_alt | reflexivity].
  - right. left. split; [now apply Qgt_alt | reflexivity].
Qed.

Lemma rne_bounds (x : Q) : (Qfloor x <= rne x <= Qfloor x + 1)%Z.
Proof.
  destruct (rne_cases x) as [[_ H] | [[_ H] | [_ H]]]; rewrite H;
    try destruct (Z.even (Qfloor x)); lia.
Qed.

#[global] Instance rne_comp : Proper (Qeq ==> eq) rne.
Proof.
  intros x y H. unfold rne. rewrite (Qfloor_comp x y H).
  assert (E : x - inject_Z (Qfloor y) == y - inject_Z (Qfloor y))
    by (rewrite H; reflexivity).
  now rewrite (Qcompare_comp _ _ E (1 # 2) (1 # 2) (Qeq_refl _)).
Qed.

Lemma rne_Z (z : Z) : rne (inject_Z z) = z.
Proof.
  destruct (rne_cases (inject_Z z)) as [[_ H] | [[Hc _] | [Hc _]]];
    rewrite Qfloor_Z in *; [exact H | lra | lra].
Qed.

Lemma rne_monotone (x y : Q) : x <= y -> (rne x <= rne y)%Z.
Proof.
  intros Hxy.
  pose proof (Qfloor_resp_le x y Hxy) as Hf.
  destruct (Z.eq_dec (Qfloor x) (Qfloor y)) as [Heq | Hne].
  - destruct (rne_cases x) as [[Hx Rx] | [[Hx Rx] | [Hx Rx]]];
      destruct (rne_cases y) as [[Hy Ry] | [[Hy Ry] | [Hy Ry]]];
      rewrite Rx, Ry; rewrite Heq in *;
      try destruct (Z.even (Qfloor y)); try lia; lra.
  - pose proof (rne_bounds x). pose proof (rne_bounds y). lia.
Qed.

Lemma rne_nonneg (x : Q) : 0 <= x -> (0 <= rne x)%Z.
Proof.
  intros H. rewrite <- (rne_Z 0). now apply rne_monotone.
Qed.

(** *** Rounding a value that is not negative *)

Lemma two_neq (e : Z) : ~ 2 ^ e == 0.
Proof. pose proof (two_pos e). lra. Qed.

Lemma zero_div (x c : Q) : x == 0 -> x / c == inject_Z 0.
Proof. intros H. unfold Qdiv. rewrite H. ring. Qed.

Lemma quantum_exp_min (x : Q) : (emin <= quantum_exp x)%Z.
Proof. apply Z.le_max_l. Qed.

(** The mantissa of a rounded value has at most 53 bits. *)
Lemma mantissa_range (x : Q) :
  0 <= x -> (0 <= rne (x / 2 ^ quantum_exp x) <= 2 ^ 53)%Z.
Proof.
  intros Hx. pose proof (two_pos (quantum_exp x)) as Hq. split.
  - apply rne_nonneg. apply Qle_shift_div_l; [exact Hq | lra].
  - destruct (Qlt_le_dec 0 x) as [Hpos | Hzero].
    + rewrite <- (rne_Z (2 ^ 53)). apply rne_monotone.
      apply Qle_shift_div_r; [exact Hq |].
      rewrite two_Z, <- two_add by lia.
      destruct (ilog2_spec x Hpos) as [_ Hu].
      apply Qlt_le_weak. eapply Qlt_le_trans; [exact Hu |].
      apply two_le. unfold quantum_exp. lia.
    + assert (E : x / 2 ^ quantum_exp x == inject_Z 0)
        by (apply zero_div; lra).
      rewrite E, rne_Z. lia.
Qed.

(** A value written with an integer mantissa at its own quantum is left
    as it is. *)
Lemma round_nonneg_at (v : Q) (j : Z) :
  v == inject_Z j * 2 ^ quantum_exp v -> round_nonneg v == v.
Proof.
  intros Hv. unfold round_nonneg.
  assert (E : v / 2 ^ quantum_exp v == inject_Z j).
  { rewrite Hv at 1. field. apply two_neq. }
  rewrite E, rne_Z. symmetry. exact Hv.
Qed.

(** The values with a mantissa of at most 53 bits and an exponent of at
    least [emin] are left as they are. *)
Lemma round_nonneg_grid (k e : Z) :
  (emin <= e)%Z -> (0 <= k <= 2 ^ 53)%Z ->
  round_nonneg (inject_Z k * 2 ^ e) == inject_Z k * 2 ^ e.
Proof.
  intros He Hk. set (v := inject_Z k * 2 ^ e).
  pose proof (two_pos e) as Hpe.
  destruct (Z.eq_dec k 0) as [Hk0 | Hk0].
  { apply (round_nonneg_at v 0). unfold v. rewrite Hk0. ring. }
  assert (Hk1 : 1 <= inject_Z k).
  { change 1 with (inject_Z 1). rewrite <- Zle_Qle. lia. }
  assert (Hv : 0 < v).
  { unfold v. apply Qmult_lt_0_compat; [lra | exact Hpe]. }
  destruct (Z.eq_dec k (2 ^ 53)) as [Htop | Htop].
  - assert (Ev : v == 2 ^ (e + 53)).
    { unfold v. rewrite Htop, two_Z, two_add by lia. ring. }
    assert (Hl : ilog2 v = (e + 53)%Z).
    { apply Z.le_antisymm.
      - apply ilog2_le; [exact Hv |]. rewrite Ev. apply two_lt. lia.
      - apply ilog2_ge; [exact Hv |]. rewrite Ev. apply Qle_refl. }
    apply (round_nonneg_at v (2 ^ 52)).
    unfold quantum_exp. rewrite Hl.
    replace (Z.max emin (e + 53 - 52)) with (e + 1)%Z by lia.
    rewrite Ev, two_Z, <- two_add by lia.
    replace (52 + (e + 1))%Z with (e + 53)%Z by ring. reflexivity.
  - assert (Hlt : v < 2 ^ (e + 53)).
    { unfold v. rewrite two_add, <- (two_Z 53) by lia.
      rewrite (Qmult_comm (2 ^ e)). apply Qmult_lt_compat_r; [exact Hpe |].
      rewrite <- Zlt_Qlt. lia. }
    assert (Hl : (ilog2 v <= e + 52)%Z).
    { apply ilog2_le; [exact Hv |].
      replace (e + 52 + 1)%Z with (e + 53)%Z by ring. exact Hlt. }
    set (e' := quantum_exp v).
    assert (He' : (e' <= e)%Z) by (unfold e', quantum_exp; lia).
    apply (round_nonneg_at v (k * 2 ^ (e - e'))). fold e'.
    rewrite inject_Z_mult, two_Z by lia. unfold v.
    rewrite <- Qmult_assoc, <- two_add.
    replace (e - e' + e')%Z with e by ring. reflexivity.
Qed.

Lemma round_nonneg_nonneg (x : Q) : 0 <= x -> 0 <= round_nonneg x.
Proof.
  intros Hx. unfold round_nonneg.
  apply Qmult_le_0_compat.
  - change 0 with (inject_Z 0). rewrite <- Zle_Qle. apply mantissa_range, Hx.
  - apply Qlt_le_weak, two_pos.
Qed.

Lemma round_nonneg_idem (x : Q) :
  0 <= x -> round_nonneg (round_nonneg x) == round_nonneg x.
Proof.
  intros Hx. unfold round_nonneg at 2 3.
  apply round_nonneg_grid; [apply quantum_exp_min | apply mantissa_range, Hx].
Qed.

Lemma round_nonneg_monotone (x y : Q) :
  0 <= x -> x <= y -> round_nonneg x <= round_nonneg y.
Proof.
  intros Hx Hxy.
  destruct (Qlt_le_dec 0 x) as [Hpos | Hzero].
  2:{ assert (E : round_nonneg x == 0).
      { unfold round_nonneg.
        assert (E : x / 2 ^ quantum_exp x == inject_Z 0)
          by (apply zero_div; lra).
        rewrite E, rne_Z. ring. }
      rewrite E. apply round_nonneg_nonneg. lra. }
  assert (Hy : 0 < y) by lra.
  pose proof (ilog2_mono x y Hpos Hxy) as Hl.
  set (ex := quantum_exp x). set (ey := quantum_exp y).
  assert (Hexy : (ex <= ey)%Z) by (unfold ex, ey, quantum_exp; lia).
  pose proof (two_pos ex) as Hpx. pose proof (two_pos ey) as Hpy.
  destruct (Z.eq_dec ex ey) as [Heq | Hne].
  - unfold round_nonneg. fold ex ey. rewrite <- Heq.
    apply Qmult_le_compat_r; [| lra].
    rewrite <- Zle_Qle. apply rne_monotone.
    apply Qmult_le_compat_r; [exact Hxy |].
    apply Qlt_le_weak, Qinv_lt_0_compat, Hpx.
  - assert (Hey : ey = (ilog2 y - 52)%Z) by (unfold ex, ey, quantum_exp in *; lia).
    apply Qle_trans with (2 ^ (ex + 53)).
    + unfold round_nonneg. fold ex.
      rewrite two_add, (Qmult_comm (2 ^ ex)).
      apply Qmult_le_compat_r; [| lra].
      rewrite <- (two_Z 53), <- Zle_Qle by lia.
      apply mantissa_range, Hx.
    + apply Qle_trans with (2 ^ (ey + 52)); [apply two_le; lia |].
      unfold round_nonneg. fold ey.
      rewrite two_add, (Qmult_comm (2 ^ ey)).
      apply Qmult_le_compat_r; [| lra].
      rewrite <- (two_Z 52), <- Zle_Qle by lia.
      rewrite <- (rne_Z (2 ^ 52)). apply rne_monotone.
      apply Qle_shift_div_l; [exact Hpy |].
      rewrite two_Z, <- two_add by lia.
      destruct (ilog2_spec y Hy) as [Hlow _].
      replace (52 + ey)%Z with (ilog2 y) by lia. exact Hlow.
Qed.

Lemma div_eq (x y c : Q) : x == y -> x / c == y / c.
Proof. intros H. unfold Qdiv. now rewrite H. Qed.

Lemma round_nonneg_zero (x : Q) : x == 0 -> round_nonneg x == 0.
Proof.
  intros H. unfold round_nonneg.
  rewrite (zero_div x _ H), rne_Z. ring.
Qed.

(** The result does not depend on the fraction that stands for the
    value. *)
Lemma round_nonneg_eq (x y : Q) :
  0 <= x -> x == y -> round_nonneg x == round_nonneg y.
Proof.
  intros Hx Hxy.
  destruct (Qlt_le_dec 0 x) as [Hpos | Hzero].
  - assert (Hy : 0 < y) by lra.
    destruct (ilog2_spec x Hpos) as [Hl Hu].
    assert (El : ilog2 y = ilog2 x).
    { apply Z.le_antisymm.
      - apply ilog2_le; [exact Hy | lra].
      - apply ilog2_ge; [exact Hy | lra]. }
    unfold round_nonneg, quantum_exp. rewrite El.
    now rewrite (div_eq x y _ Hxy).
  - rewrite (round_nonneg_zero x), (round_nonneg_zero y) by lra. reflexivity.
Qed.

(** *** Rounding to binary64 *)

#[global] Instance rnd64_comp : Proper (Qeq ==> eq) rnd64.
Proof.
  intros x y H. unfold rnd64. now rewrite (Qred_complete x y H).
Qed.

Lemma rnd64_cases (x : Q) :
  (0 <= x /\ rnd64 x == round_nonneg x) \/
  (x < 0 /\ rnd64 x == - round_nonneg (- x)).
Proof.
  unfold rnd64. pose proof (Qred_correct x) as Hr.
  destruct (Qlt_bool (Qred x) 0) eqn:E; rewrite Qred_correct.
  - apply Qlt_bool_iff in E. right. split; [lra |].
    apply Qopp_comp. apply round_nonneg_eq; [lra | now rewrite Hr].
  - apply Qlt_bool_false_iff in E. left. split; [lra |].
    apply round_nonneg_eq; [lra | exact Hr].
Qed.

Lemma rnd64_0 : rnd64 0 = 0.
Proof. vm_compute. reflexivity. Qed.

Lemma rnd64_zero (x : Q) : x == 0 -> rnd64 x = 0.
Proof. intros H. rewrite H. exact rnd64_0. Qed.

Lemma rnd64_nonneg (x : Q) : 0 <= x -> 0 <= rnd64 x.
Proof.
  intros Hx. destruct (rnd64_cases x) as [[_ E] | [Hneg _]]; [| lra].
  rewrite E. now apply round_nonneg_nonneg.
Qed.

Lemma rnd64_nonpos (x : Q) : x <= 0 -> rnd64 x <= 0.
Proof.
  intros Hx. destruct (rnd64_cases x) as [[Hpos E] | [Hneg E]]; rewrite E.
  - rewrite round_nonneg_zero by lra. apply Qle_refl.
  - pose proof (round_nonneg_nonneg (- x)). lra.
Qed.

(** Rounding keeps the order. *)
Lemma rnd64_monotone (x y : Q) : x <= y -> rnd64 x <= rnd64 y.
Proof.
  intros Hxy.
  destruct (rnd64_cases x) as [[Hx Ex] | [Hx Ex]];
    destruct (rnd64_cases y) as [[Hy Ey] | [Hy Ey]].
  - rewrite Ex, Ey. now apply round_nonneg_monotone.
  - lra.
  - apply Qle_trans with 0; [apply rnd64_nonpos | apply rnd64_nonneg]; lra.
  - rewrite Ex, Ey.
    assert (H : round_nonneg (- y) <= round_nonneg (- x))
      by (apply round_nonneg_monotone; lra).
    lra.
Qed.

(** Rounding is symmetric. *)
Lemma rnd64_opp (x : Q) : rnd64 (- x) == - rnd64 x.
Proof.
  destruct (rnd64_cases x) as [[Hx Ex] | [Hx Ex]];
    destruct (rnd64_cases (- x)) as [[Hy Ey] | [Hy Ey]];
    rewrite Ex, Ey.
  - rewrite (round_nonneg_zero x), (round_nonneg_zero (- x)) by lra. reflexivity.
  - assert (E : round_nonneg (- - x) == round_nonneg x)
      by (apply round_nonneg_eq; [lra | ring]).
    now rewrite E.
  - ring.
  - lra.
Qed.

(** A value with a mantissa of at most 53 bits and an exponent of at
    least [emin] is a double: rounding leaves it as it is. *)
Lemma rnd64_grid (k e : Z) :
  (emin <= e)%Z -> (- 2 ^ 53 <= k <= 2 ^ 53)%Z ->
  rnd64 (inject_Z k * 2 ^ e) == inject_Z k * 2 ^ e.
Proof.
  intros He Hk. pose proof (two_pos e) as Hpe.
  destruct (rnd64_cases (inject_Z k * 2 ^ e)) as [[Hv E] | [Hv E]]; rewrite E.
  - apply round_nonneg_grid; [exact He |]. split; [| lia].
    destruct (Z_lt_le_dec k 0) as [Hneg | Hpos]; [| exact Hpos].
    exfalso.
    assert (H : inject_Z k < 0)
      by (change 0 with (inject_Z 0); rewrite <- Zlt_Qlt; exact Hneg).
    assert (H' : 0 < (- inject_Z k) * 2 ^ e)
      by (apply Qmult_lt_0_compat; lra).
    lra.
  - assert (Hk0 : (k < 0)%Z).
    { destruct (Z_lt_le_dec k 0) as [Hneg | Hpos]; [exact Hneg |]. exfalso.
      assert (H : 0 <= inject_Z k)
        by (change 0 with (inject_Z 0); rewrite <- Zle_Qle; exact Hpos).
      assert (H' : 0 <= inject_Z k * 2 ^ e)
        by (apply Qmult_le_0_compat; lra).
      lra. }
    assert (Eneg : - (inject_Z k * 2 ^ e) == inject_Z (- k) * 2 ^ e)
      by (rewrite inject_Z_opp; ring).
    rewrite (round_nonneg_eq _ (inject_Z (- k) * 2 ^ e)); [| lra | exact Eneg].
    rewrite round_nonneg_grid by lia.
    rewrite inject_Z_opp. ring.
Qed.

(** What rounding returns is a double. *)
Lemma rnd64_idem (x : Q) : rnd64 (rnd64 x) = rnd64 x.
Proof.
  assert (H : rnd64 (rnd64 x) == rnd64 x).
  { destruct (rnd64_cases x) as [[Hx Ex] | [Hx Ex]].
    - rewrite (rnd64_comp _ _ Ex), Ex. unfold round_nonneg.
      apply rnd64_grid; [apply quantum_exp_min |].
      pose proof (mantissa_range x Hx). lia.
    - assert (Hx' : 0 <= - x) by lra.
      rewrite (rnd64_comp _ _ Ex), Ex.
      rewrite rnd64_opp. apply Qopp_comp. unfold round_nonneg.
      apply rnd64_grid; [apply quantum_exp_min |].
      pose proof (mantissa_range (- x) Hx'). lia. }
  assert (C : forall y, Qred (rnd64 y) = rnd64 y).
  { intros y. unfold rnd64. apply Qred_complete, Qred_correct. }
  transitivity (Qred (rnd64 (rnd64 x))); [symmetry; apply C |].
  transitivity (Qred (rnd64 x)); [now apply Qred_complete | apply C].
Qed.

(** [rne] returns an integer nearest to its argument. *)
Lemma rne_nearest (x : Q) :
  - (1 # 2) <= inject_Z (rne x) - x /\ inject_Z (rne x) - x <= 1 # 2.
Proof.
  pose proof (Qfloor_le x) as Hlo. pose proof (Qlt_floor x) as Hhi.
  rewrite inject_Z_plus in Hhi. change (inject_Z 1) with 1 in Hhi.
  destruct (rne_cases x) as [[H E] | [[H E] | [H E]]]; rewrite E.
  - split; lra.
  - rewrite inject_Z_plus. change (inject_Z 1) with 1. split; lra.
  - destruct (Z.even (Qfloor x)).
    + split; lra.
    + rewrite inject_Z_plus. change (inject_Z 1) with 1. split; lra.
Qed.

(** The result of rounding [x >= 0] is a multiple of the quantum at [x]
    with at most 53 bits, and no further from [x] than half that
    quantum. *)
Lemma round_nonneg_nearest (x : Q) :
  0 <= x ->
  exists m : Z,
    (0 <= m <= 2 ^ 53)%Z /\
    round_nonneg x == inject_Z m * 2 ^ quantum_exp x /\
    - (2 ^ quantum_exp x / 2) <= round_nonneg x - x /\
    round_nonneg x - x <= 2 ^ quantum_exp x / 2.
Proof.
  intros Hx. exists (rne (x / 2 ^ quantum_exp x)).
  pose proof (two_pos (quantum_exp x)) as Hq.
  split; [now apply mantissa_range |].
  split; [reflexivity |].
  unfold round_nonneg.
  destruct (rne_nearest (x / 2 ^ quantum_exp x)) as [Hlo Hhi].
  set (m := inject_Z (rne (x / 2 ^ quantum_exp x))) in *.
  set (q := 2 ^ quantum_exp x) in *.
  assert (Hxq : x == (x / q) * q) by (field; lra).
  assert (H1 : 0 <= (m - x / q + (1 # 2)) * q)
    by (apply Qmult_le_0_compat; lra).
  assert (H2 : 0 <= ((1 # 2) - (m - x / q)) * q)
    by (apply Qmult_le_0_compat; lra).
  assert (E1 : (m - x / q + (1 # 2)) * q == m * q - x + q / 2)
    by (rewrite Hxq at 2; field; lra).
  assert (E2 : ((1 # 2) - (m - x / q)) * q == q / 2 - (m * q - x))
    by (rewrite Hxq at 2; field; lra).
  split; lra.
Qed.

(** Some results as Python prints them: [0.1 + 0.2] and [0.1 * 3] are
    0.30000000000000004, [1.0 - 0.9] is 0.09999999999999998,
    [2.0**53 + 1] is [2.0**53], half the smallest subnormal is 0 and one
    and a half times it is twice it. *)
Example rnd64_samples :
  fadd (rnd64 (1 # 10)) (rnd64 (2 # 10))
    = 1351079888211149 # 4503599627370496 /\
  fmul (rnd64 (1 # 10)) 3 = 1351079888211149 # 4503599627370496 /\
  fsub 1 (rnd64 (9 # 10)) = 900719925474099 # 9007199254740992 /\
  fadd 9007199254740992 1 = 9007199254740992 /\
  rnd64 (2 ^ (-1075)) = 0 /\
  rnd64 (3 * 2 ^ (-1075)) == 2 ^ (-1073).
Proof. repeat split; vm_compute; reflexivity. Qed.

End Binary64Facts.

(** ** The walk *)

Module WalkerFacts.

Import Binary64 Binary64Facts Walker.

(** The two loops are the same function. *)
Lemma sell_loop_buy_loop (levels : list level) (total remaining : Q) :
  sell_loop levels total remaining = buy_loop levels total remaining.
Proof.
  revert total remaining.
  induction levels as [| [p s] rest IH]; intros total remaining; simpl.
  - reflexivity.
  - destruct (Qle_bool _ 0); [reflexivity | apply IH].
Qed.

(** What is taken from a level lies between 0 and what is left to fill. *)
Lemma available_bounds (s r : Q) :
  0 <= s -> 0 <= r -> 0 <= Qmin s r /\ Qmin s r <= r.
Proof.
  intros Hs Hr. destruct (Qmin_cases s r) as [[? E] | [? E]]; lra.
Qed.

(** What is left to fill never becomes negative on levels of size >= 0,
    rounded or not. *)
Lemma fsub_available_nonneg (s r : Q) : 0 <= r -> 0 <= fsub r (Qmin s r).
Proof.
  intros Hr. apply rnd64_nonneg.
  destruct (Qmin_cases s r) as [[? E] | [? E]]; lra.
Qed.

(** The cost of what is taken from a level is not negative. *)
Lemma fmul_available_nonneg (p s r : Q) :
  0 < p -> 0 <= s -> 0 <= r -> 0 <= fmul (Qmin s r) p.
Proof.
  intros Hp Hs Hr. apply rnd64_nonneg.
  apply Qmult_le_0_compat; [apply available_bounds; assumption | lra].
Qed.

(** Adding a cost that is not negative to a running total that is a
    double does not lower it, rounding included. *)
Lemma fadd_nonneg_ge (t x : Q) : is_double t -> 0 <= x -> t <= fadd t x.
Proof.
  intros Ht Hx. unfold is_double in Ht.
  assert (H : rnd64 t <= rnd64 (t + x)) by (apply rnd64_monotone; lra).
  unfold fadd. lra.
Qed.

Lemma fadd_is_double (a b : Q) : is_double (fadd a b).
Proof. unfold is_double, fadd. now rewrite rnd64_idem. Qed.

Lemma zero_is_double : is_double 0.
Proof. unfold is_double. now rewrite rnd64_0. Qed.

(** The loop leaves nothing negative to fill. *)
Lemma buy_loop_remaining_nonneg (levels : list level) (total remaining : Q) :
  0 <= remaining -> 0 <= snd (buy_loop levels total remaining).
Proof.
  revert total remaining.
  induction levels as [| [p s] rest IH]; intros total remaining Hr; simpl.
  - exact Hr.
  - pose proof (fsub_available_nonneg s remaining Hr) as Hn.
    destruct (Qle_bool (fsub remaining (Qmin s remaining)) 0) eqn:E; simpl.
    + exact Hn.
    + now apply IH.
Qed.

(** The two ways a walk ends. *)
Lemma compute_buy_cost_cases (levels : list level) (qty : Q) :
  (0 < snd (buy_loop levels 0 qty) /\
   compute_buy_cost levels qty
   = Raises (ValueError "Insufficient liquidity to buy the requested quantity.") /\
   compute_sell_revenue levels qty
   = Raises (ValueError "Insufficient liquidity to sell the requested quantity."))
  \/
  (snd (buy_loop levels 0 qty) <= 0 /\
   compute_buy_cost levels qty = Returns (fst (buy_loop levels 0 qty)) /\
   compute_sell_revenue levels qty = Returns (fst (buy_loop levels 0 qty))).
Proof.
  unfold compute_buy_cost, compute_sell_revenue.
  rewrite (sell_loop_buy_loop levels 0 qty).
  destruct (buy_loop levels 0 qty) as [total remaining]; simpl.
  destruct (Qlt_bool 0 remaining) eqn:E; tests.
  - left. repeat split. exact E.
  - right. repeat split. exact E.
Qed.

(** When the quantity still to fill is covered by the sizes that are
    left and no subtraction is rounded, the loop ends with nothing to
    fill. *)
Lemma buy_loop_filled (levels : list level) (total remaining : Q) :
  exact_remaining levels remaining ->
  0 < remaining -> remaining <= total_size levels ->
  snd (buy_loop levels total remaining) <= 0.
Proof.
  revert total remaining.
  induction levels as [| [p s] rest IH];
    intros total remaining Hex Hpos Hle; simpl in *.
  - lra.
  - destruct Hex as [Hx Hrest].
    destruct (Qle_bool (fsub remaining (Qmin s remaining)) 0) eqn:E;
      tests; simpl.
    + exact E.
    + apply IH; [exact Hrest | exact E |].
      unfold size in Hle; simpl in Hle.
      destruct (Qmin_cases s remaining) as [[_ Hm] | [_ Hm]]; lra.
Qed.

Lemma total_size_nonneg (levels : list level) :
  sizes_nonneg levels -> 0 <= total_size levels.
Proof.
  intros H. induction H as [| x l Hx _ IHl]; simpl; [lra |].
  unfold size in *. lra.
Qed.

(** When the sizes that are left do not cover it and no subtraction is
    rounded, the loop runs to the end of the list and what is missing
    stays to fill. *)
Lemma buy_loop_short (levels : list level) (total remaining : Q) :
  exact_remaining levels remaining ->
  sizes_nonneg levels ->
  total_size levels < remaining ->
  snd (buy_loop levels total remaining) == remaining - total_size levels.
Proof.
  revert total remaining.
  induction levels as [| [p s] rest IH];
    intros total remaining Hex Hs Hlt; simpl in *.
  - lra.
  - destruct Hex as [Hx Hrest].
    inversion Hs as [| ? ? Hs0 Hsrest]; subst.
    unfold size in Hs0, Hlt; simpl in Hs0, Hlt.
    pose proof (total_size_nonneg rest Hsrest) as Ht.
    destruct (Qmin_cases s remaining) as [[_ Hm] | [Hc _]]; [| lra].
    destruct (Qle_bool (fsub remaining (Qmin s remaining)) 0) eqn:E;
      tests; simpl.
    + lra.
    + rewrite IH; [unfold size; simpl; lra | exact Hrest | exact Hsrest | lra].
Qed.

(** A multiple of [2^g] between 0 and [2^53 * 2^g] is a double. *)
Lemma grid_is_double (g : Z) (x : Q) :
  (emin <= g)%Z -> on_grid g x ->
  0 <= x -> x <= inject_Z (2 ^ 53) * 2 ^ g ->
  rnd64 x == x.
Proof.
  intros Hg [k Hk] Hlo Hhi. pose proof (two_pos g) as Hpg.
  rewrite (rnd64_comp _ _ Hk), Hk.
  apply rnd64_grid; [exact Hg |].
  rewrite Hk in Hlo, Hhi.
  assert (H0 : inject_Z 0 * 2 ^ g <= inject_Z k * 2 ^ g)
    by (change (inject_Z 0) with 0; lra).
  apply Qmult_le_r in H0; [| exact Hpg].
  apply Qmult_le_r in Hhi; [| exact Hpg].
  rewrite <- Zle_Qle in H0, Hhi. lia.
Qed.

(** A case where no subtraction is rounded: the sizes are not negative,
    sizes and quantity are multiples of one power of two that is at least
    the smallest quantum, and the quantity is at most [2^53] of them. *)
Lemma grid_exact_remaining (g : Z) (levels : list level) (remaining : Q) :
  (emin <= g)%Z ->
  sizes_nonneg levels ->
  Forall (fun x => on_grid g (size x)) levels ->
  on_grid g remaining ->
  0 <= remaining -> remaining <= inject_Z (2 ^ 53) * 2 ^ g ->
  exact_remaining levels remaining.
Proof.
  intros Hg Hs Hl. revert remaining.
  induction Hl as [| [p s] rest Hs0 Hrest IH];
    intros remaining Hr Hpos Hub; simpl; [exact I |].
  inversion Hs as [| ? ? Hn Hsrest]; subst.
  unfold size in Hs0, Hn; simpl in Hs0, Hn.
  assert (Ha : on_grid g (remaining - Qmin s remaining)).
  { destruct Hs0 as [ks Hks]. destruct Hr as [kr Hkr].
    destruct (Qmin_cases s remaining) as [[_ E] | [_ E]].
    - exists (kr + - ks)%Z. rewrite E, Hks, Hkr, inject_Z_plus, inject_Z_opp. ring.
    - exists 0%Z. rewrite E. change (inject_Z 0) with 0. ring. }
  assert (Hd : 0 <= remaining - Qmin s remaining /\
               remaining - Qmin s remaining <= remaining).
  { destruct (available_bounds s remaining Hn Hpos). lra. }
  destruct Hd as [Hd0 Hd1].
  assert (Hx : fsub remaining (Qmin s remaining)
               == remaining - Qmin s remaining).
  { unfold fsub. apply (grid_is_double g); [exact Hg | exact Ha | exact Hd0 | lra]. }
  split; [exact Hx |].
  destruct (Qle_bool (fsub remaining (Qmin s remaining)) 0); [exact I |].
  apply IH; [exact Hsrest | | lra | lra].
  destruct Ha as [k Hk]. exists k. now rewrite Hx.
Qed.

(** Once the specification's walk has stopped, the later levels change
    nothing. *)
Lemma greedy_stopped (levels : list level) (total remaining : Q) :
  Qle_bool remaining 0 = true ->
  fold_left greedy_step levels (total, remaining) = (total, remaining).
Proof.
  intros E. induction levels as [| y rest IH]; simpl; [reflexivity |].
  rewrite E. exact IH.
Qed.

(** The loop of the program and the fold of the specification compute the
    same pair as long as there is something to fill on entry. *)
Lemma buy_loop_greedy (levels : list level) (total remaining : Q) :
  0 < remaining ->
  buy_loop levels total remaining = fold_left greedy_step levels (total, remaining).
Proof.
  revert total remaining.
  induction levels as [| [p s] rest IH]; intros total remaining Hpos; simpl.
  - reflexivity.
  - assert (E0 : Qle_bool remaining 0 = false) by now apply Qle_bool_false_iff.
    rewrite E0. unfold size, price; simpl.
    destruct (Qle_bool (fsub remaining (Qmin s remaining)) 0) eqn:E.
    + symmetry. now apply greedy_stopped.
    + tests. now apply IH.
Qed.

(** With prices > 0 and sizes >= 0 the running total, a double, never
    goes down. *)
Lemma buy_loop_total_ge (levels : list level) (total remaining : Q) :
  prices_pos levels -> sizes_nonneg levels ->
  is_double total -> 0 <= remaining ->
  total <= fst (buy_loop levels total remaining).
Proof.
  revert total remaining.
  induction levels as [| [p s] rest IH];
    intros total remaining Hp Hs Hd Hr; simpl.
  - lra.
  - inversion Hp as [| ? ? Hp0 Hprest]; inversion Hs as [| ? ? Hs0 Hsrest]; subst.
    unfold price, size in Hp0, Hs0; simpl in Hp0, Hs0.
    pose proof (fmul_available_nonneg p s remaining Hp0 Hs0 Hr) as Hm.
    pose proof (fadd_nonneg_ge total _ Hd Hm) as Hge.
    pose proof (fsub_available_nonneg s remaining Hr) as Hn.
    destruct (Qle_bool (fsub remaining (Qmin s remaining)) 0) eqn:E; simpl.
    + exact Hge.
    + eapply Qle_trans; [exact Hge |].
      apply IH; [assumption | assumption | apply fadd_is_double | exact Hn].
Qed.

(** What is taken from a level and what is left after it grow with the
    quantity to fill. *)
Lemma available_monotone (s r1 r2 : Q) :
  r1 <= r2 ->
  Qmin s r1 <= Qmin s r2 /\ r1 - Qmin s r1 <= r2 - Qmin s r2.
Proof.
  intros H.
  destruct (Qmin_cases s r1) as [[Hc1 Hm1] | [Hc1 Hm1]];
  destruct (Qmin_cases s r2) as [[Hc2 Hm2] | [Hc2 Hm2]]; lra.
Qed.

(** The heart of monotonicity: when the walk of the larger quantity fills
    it, the walk of the smaller quantity, started from a smaller running
    total, fills it too and ends with a smaller total. *)
Lemma buy_loop_monotone (levels : list level) (t1 t2 r1 r2 : Q) :
  prices_pos levels -> sizes_nonneg levels ->
  t1 <= t2 -> 0 < r1 -> r1 <= r2 ->
  snd (buy_loop levels t2 r2) <= 0 ->
  snd (buy_loop levels t1 r1) <= 0 /\
  fst (buy_loop levels t1 r1) <= fst (buy_loop levels t2 r2).
Proof.
  revert t1 t2 r1 r2.
  induction levels as [| [p s] rest IH];
    intros t1 t2 r1 r2 Hp Hs Ht Hr1 Hr Hdone; simpl in *.
  - lra.
  - inversion Hp as [| ? ? Hp0 Hprest]; inversion Hs as [| ? ? Hs0 Hsrest]; subst.
    unfold price, size in Hp0, Hs0; simpl in Hp0, Hs0.
    destruct (available_monotone s r1 r2 Hr) as [Ha Hd].
    assert (Hm : fmul (Qmin s r1) p <= fmul (Qmin s r2) p).
    { apply rnd64_monotone. apply Qmult_le_compat_r; [exact Ha | lra]. }
    assert (Htot : fadd t1 (fmul (Qmin s r1) p) <= fadd t2 (fmul (Qmin s r2) p)).
    { apply rnd64_monotone. lra. }
    assert (Hrem : fsub r1 (Qmin s r1) <= fsub r2 (Qmin s r2)).
    { apply rnd64_monotone. exact Hd. }
    assert (Hn2 : 0 <= fsub r2 (Qmin s r2))
      by (apply fsub_available_nonneg; lra).
    destruct (Qle_bool (fsub r1 (Qmin s r1)) 0) eqn:E1;
    destruct (Qle_bool (fsub r2 (Qmin s r2)) 0) eqn:E2; tests; simpl in *.
    + split; assumption.
    + split; [exact E1 |].
      eapply Qle_trans; [exact Htot |].
      apply buy_loop_total_ge;
        [assumption | assumption | apply fadd_is_double | exact Hn2].
    + lra.
    + apply IH; assumption.
Qed.

(** When the first levels fill a quantity > 0, the loop never reads the
    levels behind them. *)
Lemma buy_loop_app (front behind : list level) (total remaining : Q) :
  0 < remaining ->
  snd (buy_loop front total remaining) <= 0 ->
  buy_loop (front ++ behind) total remaining = buy_loop front total remaining.
Proof.
  revert total remaining.
  induction front as [| [p s] rest IH]; intros total remaining Hpos Hdone;
    simpl in *.
  - lra.
  - destruct (Qle_bool (fsub remaining (Qmin s remaining)) 0) eqn:E;
      tests; [reflexivity |].
    now apply IH.
Qed.

(** Discharges the data-model invariants of a literal list of levels. *)
Ltac levels_ok :=
  repeat (apply Forall_cons || apply Forall_nil);
  unfold price, size; simpl; reflexivity || discriminate.

(** Decides a closed statement about a walk by running it. *)
Ltac evaluate := vm_compute; repeat split; reflexivity || discriminate.

(** The decimal sizes of the dust book are the doubles of their
    literals. *)
Lemma dust_literals :
  rnd64 (2 # 10) = double_0_2 /\ rnd64 (6 # 10) = double_0_6.
Proof. evaluate. Qed.

(** C1, as the claim reads, does not hold: the sizes 0.2, 0.2 and 0.6 are
    doubles that are not negative and sum to exactly 1, not to less than
    1, and yet a walk for the quantity 1 raises on either side: the
    second subtraction is rounded and leaves 2^-53 to fill at the end of
    the list. *)
Lemma covered_quantity_raises :
  let levels := [(100, double_0_2); (100, double_0_2); (100, double_0_6)] in
  sizes_nonneg levels /\
  Forall (fun x => is_double (price x) /\ is_double (size x)) levels /\
  total_size levels == 1 /\
  ~ total_size levels < 1 /\
  snd (buy_loop levels 0 1) == 1 # 9007199254740992 /\
  compute_buy_cost levels 1
  = Raises (ValueError "Insufficient liquidity to buy the requested quantity.") /\
  compute_sell_revenue levels 1
  = Raises (ValueError "Insufficient liquidity to sell the requested quantity.").
Proof.
  cbv zeta. split; [levels_ok |].
  split; [repeat (apply Forall_cons || apply Forall_nil); evaluate |].
  evaluate.
Qed.

(** C1.  For levels with sizes >= 0 and a quantity > 0 whose walk rounds
    no subtraction [remaining -= available], the walk raises its
    insufficient-liquidity [ValueError] exactly when the sizes of all
    levels sum to strictly less than the quantity, on the buy side and on
    the sell side alike; a call that raises hands the caller no total at
    all (no partial fill), and a call that does not raise returns one. *)
Theorem insufficient_liquidity_iff (levels : list level) (qty : Q) :
  sizes_nonneg levels -> 0 < qty -> exact_remaining levels qty ->
  (compute_buy_cost levels qty
     = Raises (ValueError "Insufficient liquidity to buy the requested quantity.")
   <-> total_size levels < qty) /\
  (compute_sell_revenue levels qty
     = Raises (ValueError "Insufficient liquidity to sell the requested quantity.")
   <-> total_size levels < qty) /\
  (total_size levels < qty ->
     total_of (compute_buy_cost levels qty) = None /\
     total_of (compute_sell_revenue levels qty) = None) /\
  (qty <= total_size levels ->
     exists total,
       compute_buy_cost levels qty = Returns total /\
       compute_sell_revenue levels qty = Returns total).
Proof.
  intros Hs Hq Hex.
  pose proof (buy_loop_filled levels 0 qty Hex Hq) as Hfill.
  pose proof (buy_loop_short levels 0 qty Hex Hs) as Hshort.
  destruct (compute_buy_cost_cases levels qty)
    as [(Hrem & Eb & Es) | (Hrem & Eb & Es)]; rewrite Eb, Es.
  - assert (Hlt : total_size levels < qty).
    { destruct (Qlt_le_dec (total_size levels) qty) as [H | H]; [exact H |].
      specialize (Hfill H). lra. }
    split; [split; [intros _; exact Hlt | reflexivity] |].
    split; [split; [intros _; exact Hlt | reflexivity] |].
    split; [intros _; split; reflexivity | intros H; lra].
  - assert (Hge : qty <= total_size levels).
    { destruct (Qlt_le_dec (total_size levels) qty) as [H | H]; [| exact H].
      specialize (Hshort H). lra. }
    split; [split; [discriminate | intros H; lra] |].
    split; [split; [discriminate | intros H; lra] |].
    split; [intros H; lra |].
    intros _. eexists. split; reflexivity.
Qed.

Lemma insufficient_liquidity_iff_witness :
  sizes_nonneg [(100, 1)] /\ 0 < 2 /\ exact_remaining [(100, 1)] 2 /\
  total_of (compute_buy_cost [(100, 1)] 2) = None.
Proof.
  assert (Hs : sizes_nonneg [(100, 1)]) by levels_ok.
  assert (Hq : 0 < 2) by reflexivity.
  assert (Hex : exact_remaining [(100, 1)] 2) by (vm_compute; split; reflexivity).
  split; [exact Hs | split; [exact Hq | split; [exact Hex |]]].
  destruct (insufficient_liquidity_iff [(100, 1)] 2 Hs Hq Hex) as (_ & _ & H & _).
  apply H. reflexivity.
Defined.

(** C5, as the claim reads, does not hold: the asks below are sorted and
    their sizes sum to exactly 1, so the quantity 1 is fillable, and yet
    the walk raises instead of returning the greedy total; with one more
    level behind them it returns. *)
Lemma fillable_quantity_raises :
  let asks := [(100, double_0_2); (101, double_0_2); (102, double_0_6)] in
  StronglySorted (fun x y => price x <= price y) asks /\
  sizes_nonneg asks /\
  Forall (fun x => is_double (price x) /\ is_double (size x)) asks /\
  0 < 1 /\ 1 <= total_size asks /\
  compute_buy_cost asks 1
  = Raises (ValueError "Insufficient liquidity to buy the requested quantity.") /\
  total_of (compute_buy_cost (asks ++ [(250, 1)]) 1)
  = Some (1783847664903783 # 17592186044416).
Proof.
  cbv zeta. split.
  { repeat (apply SSorted_cons || apply SSorted_nil
            || apply Forall_cons || apply Forall_nil);
      unfold price; simpl; discriminate. }
  split; [levels_ok |].
  split; [repeat (apply Forall_cons || apply Forall_nil); evaluate |].
  evaluate.
Qed.

(** C5.  For a quantity > 0, [compute_buy_cost] follows the greedy walk
    of the specification, carried out in binary64: from [remaining = qty]
    and [total = 0], each level in order adds
    [min(size, remaining) * price] to the total and lowers [remaining] by
    the amount taken, until [remaining <= 0].  It returns the greedy
    total exactly when the greedy walk ends with [remaining <= 0], and
    raises otherwise; the greedy walk ends so whenever the levels cover
    the quantity and no subtraction is rounded.  Walking the asks
    [[100,1],[101,2]] for a quantity of 2 returns 201. *)
Theorem compute_buy_cost_greedy (levels : list level) (qty : Q) :
  0 < qty ->
  (greedy_remaining levels qty <= 0 ->
   compute_buy_cost levels qty = Returns (greedy_total levels qty)) /\
  (0 < greedy_remaining levels qty ->
   compute_buy_cost levels qty
   = Raises (ValueError "Insufficient liquidity to buy the requested quantity.")) /\
  (exact_remaining levels qty -> qty <= total_size levels ->
   compute_buy_cost levels qty = Returns (greedy_total levels qty)) /\
  compute_buy_cost [(100, 1); (101, 2)] 2 = Returns 201.
Proof.
  intros Hq.
  assert (Hg : buy_loop levels 0 qty
               = (greedy_total levels qty, greedy_remaining levels qty)).
  { unfold greedy_total, greedy_remaining.
    rewrite <- buy_loop_greedy by exact Hq.
    now destruct (buy_loop levels 0 qty). }
  assert (Hret : greedy_remaining levels qty <= 0 ->
                 compute_buy_cost levels qty = Returns (greedy_total levels qty)).
  { intros Hdone.
    destruct (compute_buy_cost_cases levels qty)
      as [(Hrem & Eb & _) | (Hrem & Eb & _)];
      rewrite Hg in *; simpl in *; [lra | exact Eb]. }
  split; [exact Hret |]. split.
  - intros Hshort.
    destruct (compute_buy_cost_cases levels qty)
      as [(Hrem & Eb & _) | (Hrem & Eb & _)];
      rewrite Hg in *; simpl in *; [exact Eb | lra].
  - split; [| vm_compute; reflexivity].
    intros Hex Hfill. apply Hret.
    pose proof (buy_loop_filled levels 0 qty Hex Hq Hfill) as Hdone.
    rewrite Hg in Hdone. exact Hdone.
Qed.

Lemma compute_buy_cost_greedy_witness :
  0 < 4 /\
  greedy_remaining [(100, 1); (101, 2); (103, 5)] 4 <= 0 /\
  compute_buy_cost [(100, 1); (101, 2); (103, 5)] 4
  = Returns (greedy_total [(100, 1); (101, 2); (103, 5)] 4).
Proof.
  assert (Hq : 0 < 4) by reflexivity.
  assert (Hg : greedy_remaining [(100, 1); (101, 2); (103, 5)] 4 <= 0)
    by (vm_compute; discriminate).
  split; [exact Hq | split; [exact Hg |]].
  destruct (compute_buy_cost_greedy [(100, 1); (101, 2); (103, 5)] 4 Hq)
    as (H & _).
  exact (H Hg).
Defined.

(** C6, as the claim reads, does not hold: on the levels below, with
    prices > 0 and sizes >= 0 that sum to exactly 1, the quantities 1/2
    and 1 are both at most the total size, and the walk returns a total
    for 1/2 but none for 1, on either side. *)
Lemma larger_fillable_quantity_raises :
  let levels := [(100, double_0_2); (101, double_0_2); (102, double_0_6)] in
  prices_pos levels /\ sizes_nonneg levels /\
  Forall (fun x => is_double (price x) /\ is_double (size x)) levels /\
  0 < 1 # 2 /\ 1 # 2 <= 1 /\ 1 <= total_size levels /\
  (exists total1, compute_buy_cost levels (1 # 2) = Returns total1 /\
                  compute_sell_revenue levels (1 # 2) = Returns total1) /\
  total_of (compute_buy_cost levels 1) = None /\
  total_of (compute_sell_revenue levels 1) = None.
Proof.
  cbv zeta. split; [levels_ok |]. split; [levels_ok |].
  split; [repeat (apply Forall_cons || apply Forall_nil); evaluate |].
  split; [reflexivity |]. split; [discriminate |]. split; [evaluate |].
  split; [| evaluate].
  eexists. split; vm_compute; reflexivity.
Qed.

(** C6.  For fixed levels with prices > 0 and sizes >= 0 and two
    quantities [0 < q1 <= q2], whenever the walk returns a total for
    [q2] it returns one for [q1] too, and the total for [q2] is at least
    the total for [q1]; this holds for [compute_buy_cost] and for
    [compute_sell_revenue], rounding included. *)
Theorem walk_monotone (levels : list level) (q1 q2 total2 : Q) :
  prices_pos levels -> sizes_nonneg levels ->
  0 < q1 -> q1 <= q2 ->
  compute_buy_cost levels q2 = Returns total2 ->
  exists total1,
    compute_buy_cost levels q1 = Returns total1 /\
    compute_sell_revenue levels q1 = Returns total1 /\
    compute_sell_revenue levels q2 = Returns total2 /\
    total1 <= total2.
Proof.
  intros Hp Hs Hq1 Hle Hret.
  destruct (compute_buy_cost_cases levels q2)
    as [(_ & Eb2 & _) | (Hrem2 & Eb2 & Es2)]; [congruence |].
  assert (Et : total2 = fst (buy_loop levels 0 q2)) by congruence.
  destruct (buy_loop_monotone levels 0 0 q1 q2 Hp Hs (Qle_refl 0) Hq1 Hle Hrem2)
    as [Hrem1 Hmono].
  destruct (compute_buy_cost_cases levels q1)
    as [(Hrem & _) | (_ & Eb1 & Es1)]; [lra |].
  exists (fst (buy_loop levels 0 q1)). subst total2.
  repeat split; assumption.
Qed.

Lemma walk_monotone_witness :
  compute_buy_cost [(100, 1); (101, 2)] 2 = Returns 201 /\
  exists total1,
    compute_buy_cost [(100, 1); (101, 2)] 1 = Returns total1 /\
    compute_sell_revenue [(100, 1); (101, 2)] 1 = Returns total1 /\
    compute_sell_revenue [(100, 1); (101, 2)] 2 = Returns 201 /\
    total1 <= 201.
Proof.
  assert (H : compute_buy_cost [(100, 1); (101, 2)] 2 = Returns 201)
    by (vm_compute; reflexivity).
  split; [exact H |].
  apply (walk_monotone [(100, 1); (101, 2)] 1 2 201);
    try levels_ok; try reflexivity; try discriminate; exact H.
Defined.

(** C8.  Buying and selling are one computation applied to the side it is
    given: for every list of levels and every quantity,
    [compute_buy_cost] and [compute_sell_revenue] return the same total,
    and one raises exactly when the other does. *)
Theorem buy_sell_same_walk (levels : list level) (qty : Q) :
  total_of (compute_buy_cost levels qty)
  = total_of (compute_sell_revenue levels qty).
Proof.
  unfold compute_buy_cost, compute_sell_revenue.
  rewrite (sell_loop_buy_loop levels 0 qty).
  destruct (buy_loop levels 0 qty) as [total remaining].
  destruct (Qlt_bool 0 remaining); reflexivity.
Qed.

(** C9, as the claim reads, does not hold for every sequence of levels: a
    first level of negative size makes the walk of the quantity 0 take
    [min(-1, 0) = -1], leave 1 to fill and raise. *)
Lemma zero_quantity_negative_size_raises :
  compute_buy_cost [(100, -1)] 0
  = Raises (ValueError "Insufficient liquidity to buy the requested quantity.") /\
  compute_sell_revenue [(100, -1)] 0
  = Raises (ValueError "Insufficient liquidity to sell the requested quantity.").
Proof. evaluate. Qed.

(** C9.  For a quantity of 0 the walk returns the total 0 and does not
    raise, for every list of levels whose first level, if there is one,
    has a size >= 0: the empty list, and every list of levels with sizes
    >= 0, among them; buy side and sell side alike. *)
Theorem zero_quantity (levels : list level) :
  match levels with [] => True | x :: _ => 0 <= size x end ->
  compute_buy_cost levels 0 = Returns 0 /\
  compute_sell_revenue levels 0 = Returns 0.
Proof.
  intros Hhd.
  unfold compute_buy_cost, compute_sell_revenue.
  rewrite (sell_loop_buy_loop levels 0 0).
  destruct levels as [| [p s] rest]; simpl.
  - split; reflexivity.
  - unfold size in Hhd; simpl in Hhd.
    assert (Hm : Qmin s 0 == 0) by (apply Q.min_r; exact Hhd).
    assert (Er : fsub 0 (Qmin s 0) = 0)
      by (apply rnd64_zero; rewrite Hm; reflexivity).
    assert (Em : fmul (Qmin s 0) p = 0)
      by (apply rnd64_zero; rewrite Hm; ring).
    rewrite Er, Em.
    assert (Et : fadd 0 0 = 0) by (apply rnd64_zero; reflexivity).
    rewrite Et. simpl. split; reflexivity.
Qed.

Lemma zero_quantity_witness :
  compute_buy_cost [(100, 1); (101, 0)] 0 = Returns 0 /\
  compute_sell_revenue [(100, 1); (101, 0)] 0 = Returns 0.
Proof.
  apply (zero_quantity [(100, 1); (101, 0)]). simpl. discriminate.
Defined.

End WalkerFacts.

(** ** The aggregator *)

Module AggregatorFacts.

Import Aggregator.

Section SortedFacts.

Context {T : Type}.
Variable key : T -> Q.

Lemma insert_perm (x : T) (l : list T) :
  Permutation (x :: l) (insert key x l).
Proof.
  induction l as [| y l IH]; simpl.
  - apply Permutation_refl.
  - destruct (Qlt_bool (key y) (key x)).
    + eapply perm_trans; [apply perm_swap | apply perm_skip, IH].
    + apply Permutation_refl.
Qed.

Lemma sorted_perm (l : list T) : Permutation l (sorted key l).
Proof.
  induction l as [| x l IH]; simpl.
  - apply perm_nil.
  - eapply perm_trans; [apply perm_skip, IH | apply insert_perm].
Qed.

Lemma insert_sorted (x : T) (l : list T) :
  StronglySorted (ascending key) l -> StronglySorted (ascending key) (insert key x l).
Proof.
  induction 1 as [| y l Hl IH Hy]; simpl.
  - constructor; [constructor | constructor].
  - destruct (Qlt_bool (key y) (key x)) eqn:E; tests.
    + constructor; [exact IH |].
      eapply Permutation_Forall; [apply insert_perm |].
      constructor; [unfold ascending; lra | exact Hy].
    + constructor; [constructor; assumption |].
      constructor; [exact E |].
      eapply Forall_impl; [| exact Hy].
      unfold ascending. intros z Hz. lra.
Qed.

Lemma sorted_sorted (l : list T) : StronglySorted (ascending key) (sorted key l).
Proof.
  induction l as [| x l IH]; simpl.
  - constructor.
  - apply insert_sorted, IH.
Qed.

(** Stability.  [same] selects a class of elements that all have the
    same key; the elements of the class come out in the order they went
    in. *)
Section Stable.

Variable same : T -> bool.
Hypothesis same_key :
  forall x y, same x = true -> same y = true -> key x == key y.

Lemma insert_stable (x : T) (l : list T) :
  filter same (insert key x l) = filter same (x :: l).
Proof.
  induction l as [| y l IH]; simpl.
  - reflexivity.
  - destruct (Qlt_bool (key y) (key x)) eqn:E; [| reflexivity].
    simpl. rewrite IH. simpl.
    destruct (same y) eqn:Ey; destruct (same x) eqn:Ex; try reflexivity.
    tests. pose proof (same_key x y Ex Ey). lra.
Qed.

Lemma sorted_stable (l : list T) :
  filter same (sorted key l) = filter same l.
Proof.
  induction l as [| x l IH]; simpl.
  - reflexivity.
  - rewrite insert_stable. simpl. now rewrite IH.
Qed.

End Stable.

Lemma with_key_cons (k : Q) (x : T) (l : list T) :
  with_key key k (x :: l)
  = if Qeq_bool (key x) k then x :: with_key key k l else with_key key k l.
Proof. reflexivity. Qed.

Lemma with_key_In (k : Q) (x : T) (l : list T) :
  In x (with_key key k l) <-> In x l /\ key x == k.
Proof.
  unfold with_key. rewrite filter_In, Qeq_bool_iff. reflexivity.
Qed.

(** A list is determined by its being sorted together with the order of
    the elements inside each class of equal keys: two sorted lists that
    agree class by class are the same list. *)
Lemma sorted_classes_eq (l1 l2 : list T) :
  StronglySorted (ascending key) l1 -> StronglySorted (ascending key) l2 ->
  (forall k, with_key key k l1 = with_key key k l2) ->
  l1 = l2.
Proof.
  intros S1. revert l2.
  induction S1 as [| x l1 S1 IH H1]; intros l2 S2 Hk.
  - destruct l2 as [| y l2]; [reflexivity |].
    specialize (Hk (key y)). rewrite with_key_cons in Hk.
    rewrite Qeq_bool_refl in Hk. discriminate.
  - destruct S2 as [| y l2 S2 H2].
    + specialize (Hk (key x)). rewrite with_key_cons in Hk.
      rewrite Qeq_bool_refl in Hk. discriminate.
    + assert (Hxy : key x == key y).
      { assert (Hx : In x (with_key key (key x) (y :: l2))).
        { rewrite <- Hk, with_key_cons, Qeq_bool_refl. now left. }
        assert (Hy : In y (with_key key (key y) (x :: l1))).
        { rewrite Hk, with_key_cons, Qeq_bool_refl. now left. }
        apply with_key_In in Hx. apply with_key_In in Hy.
        destruct Hx as [[Hx | Hx] _]; [now subst |].
        destruct Hy as [[Hy | Hy] _]; [now subst |].
        rewrite Forall_forall in H1, H2.
        specialize (H1 _ Hy). specialize (H2 _ Hx).
        unfold ascending in H1, H2. lra. }
      pose proof (Hk (key x)) as Hhead.
      rewrite !with_key_cons, Qeq_bool_refl in Hhead.
      assert (Ey : Qeq_bool (key y) (key x) = true)
        by (apply Qeq_bool_iff; now symmetry).
      rewrite Ey in Hhead. injection Hhead as Hhd Htl. subst y.
      f_equal. apply IH; [exact S2 |].
      intros k. specialize (Hk k). rewrite !with_key_cons in Hk.
      destruct (Qeq_bool (key x) k); [now injection Hk | exact Hk].
Qed.

(** Whatever list a stable ascending sort returns for [xs], it is
    [sorted key xs]. *)
Lemma sorted_unique (xs out : list T) :
  StronglySorted (ascending key) out ->
  (forall k, with_key key k out = with_key key k xs) ->
  out = sorted key xs.
Proof.
  intros Hs Hk. apply sorted_classes_eq; [exact Hs | apply sorted_sorted |].
  intros k. rewrite Hk. symmetry. unfold with_key.
  apply sorted_stable. intros x y Hx Hy.
  apply Qeq_bool_iff in Hx, Hy. now rewrite Hx, Hy.
Qed.

End SortedFacts.

Lemma StronglySorted_weaken {T : Type} (R R' : T -> T -> Prop) (l : list T) :
  (forall x y, R x y -> R' x y) ->
  StronglySorted R l -> StronglySorted R' l.
Proof.
  intros HR. induction 1 as [| x l _ IH Hx]; constructor.
  - exact IH.
  - eapply Forall_impl; [| exact Hx]. intros y. apply HR.
Qed.

(** C2.  For all input bid lists and ask lists, [aggregate_orderbooks]
    returns the bids sorted non-increasing by price and the asks sorted
    non-decreasing by price, and each output side is a rearrangement of
    the concatenation of the corresponding input lists: the same levels
    with the same multiplicities, none dropped and none added. *)
Theorem aggregate_sorted_permutation (bid_lists ask_lists : list (list level)) :
  non_increasing (fst (aggregate_orderbooks bid_lists ask_lists)) /\
  non_decreasing (snd (aggregate_orderbooks bid_lists ask_lists)) /\
  Permutation (concat bid_lists) (fst (aggregate_orderbooks bid_lists ask_lists)) /\
  Permutation (concat ask_lists) (snd (aggregate_orderbooks bid_lists ask_lists)).
Proof.
  unfold aggregate_orderbooks, non_increasing, non_decreasing, flatten; simpl.
  split; [| split; [| split]].
  - eapply StronglySorted_weaken; [| apply sorted_sorted].
    unfold ascending, price. intros x y H. lra.
  - eapply StronglySorted_weaken; [| apply sorted_sorted].
    unfold ascending, price. intros x y H. exact H.
  - apply sorted_perm.
  - apply sorted_perm.
Qed.

(** C7.  [aggregate_orderbooks] does not merge levels that have the same
    price: on each side, the levels of the output at any price [p] are the
    levels at price [p] of the concatenated input lists, as many of them
    and in the same order (the sort is stable), and the output has as many
    entries as the input.  Two venues quoting 100 give two entries at
    100, the first venue's first. *)
Theorem aggregate_stable (bid_lists ask_lists : list (list level)) (p : Q) :
  at_price p (fst (aggregate_orderbooks bid_lists ask_lists))
    = at_price p (concat bid_lists) /\
  at_price p (snd (aggregate_orderbooks bid_lists ask_lists))
    = at_price p (concat ask_lists) /\
  length (fst (aggregate_orderbooks bid_lists ask_lists))
    = length (concat bid_lists) /\
  length (snd (aggregate_orderbooks bid_lists ask_lists))
    = length (concat ask_lists) /\
  aggregate_orderbooks [[(100, 1)]; [(100, 2); (99, 4)]] [[(101, 3)]; [(101, 1)]]
    = ([(100, 1); (100, 2); (99, 4)], [(101, 3); (101, 1)]).
Proof.
  unfold aggregate_orderbooks, at_price, flatten; simpl fst; simpl snd.
  split; [| split; [| split; [| split]]].
  - apply sorted_stable. unfold price. intros x y Hx Hy.
    apply Qeq_bool_iff in Hx, Hy. lra.
  - apply sorted_stable. unfold price. intros x y Hx Hy.
    apply Qeq_bool_iff in Hx, Hy. lra.
  - symmetry. apply Permutation_length, sorted_perm.
  - symmetry. apply Permutation_length, sorted_perm.
  - reflexivity.
Qed.

End AggregatorFacts.

(** ** The rate limiter *)

Module RateLimiterFacts.

Import RateLimiter.

Section WrapperFacts.

Context {A V E U : Type}.
Variable min_interval : Q.
Variable func : A -> U -> outcome E (option V) * U.

(** The three ways a call can go. *)
Lemma wrapper_cases (args : A) (now : Q) (w : world V U) :
  (within_interval min_interval now (st w) = true /\
   wrapper min_interval func args now w = (Returns (result (st w)), w)) \/
  (within_interval min_interval now (st w) = false /\
   exists e u,
     func args (upstream w) = (Raises e, u) /\
     wrapper min_interval func args now w
     = (Raises e, mkWorld (st w) u (S (invocations w)))) \/
  (within_interval min_interval now (st w) = false /\
   exists v u,
     func args (upstream w) = (Returns v, u) /\
     wrapper min_interval func args now w
     = (Returns v, mkWorld (mkState now v) u (S (invocations w)))).
Proof.
  unfold RateLimiter.wrapper.
  destruct (within_interval min_interval now (st w)).
  - left. split; reflexivity.
  - right. destruct (func args (upstream w)) as [[v | e] u].
    + right. split; [reflexivity |]. exists v, u. split; reflexivity.
    + left. split; [reflexivity |]. exists e, u. split; reflexivity.
Qed.

(** A call invokes the wrapped function once or not at all, and it does
    so exactly when the cache does not answer. *)
Lemma wrapper_invocations (args : A) (now : Q) (w : world V U) :
  invocations (snd (wrapper min_interval func args now w))
  = if within_interval min_interval now (st w)
    then invocations w
    else S (invocations w).
Proof.
  destruct (wrapper_cases args now w)
    as [[Hc Hw] | [[Hc (e & u & _ & Hw)] | [Hc (v & u & _ & Hw)]]];
    rewrite Hw, Hc; reflexivity.
Qed.

(** An exception that leaves [wrapper] is the one the wrapped function
    raised during this call. *)
Lemma wrapper_raises_inv (args : A) (now : Q) (w w' : world V U) (e : E) :
  wrapper min_interval func args now w = (Raises e, w') ->
  exists u, func args (upstream w) = (Raises e, u) /\ st w' = st w.
Proof.
  intros H.
  destruct (wrapper_cases args now w)
    as [[_ Hw] | [[_ (e' & u & Hf & Hw)] | [_ (v & u & _ & Hw)]]];
    rewrite Hw in H; inversion H; subst.
  exists u. split; [exact Hf | reflexivity].
Qed.

(** C4.  When the call reaches the wrapped function and the function
    raises, [wrapper] raises the same exception and the closure's state
    is what it was before the call: the stored timestamp and the stored
    value are untouched, so a value cached earlier is neither cleared
    nor replaced. *)
Theorem failed_fetch_keeps_cache
    (args : A) (now : Q) (w : world V U) (e : E) (u : U) :
  within_interval min_interval now (st w) = false ->
  func args (upstream w) = (Raises e, u) ->
  fst (wrapper min_interval func args now w) = Raises e /\
  st (snd (wrapper min_interval func args now w)) = st w /\
  t (st (snd (wrapper min_interval func args now w))) = t (st w) /\
  result (st (snd (wrapper min_interval func args now w))) = result (st w).
Proof.
  intros Hc Hf. unfold RateLimiter.wrapper. rewrite Hc, Hf. simpl.
  repeat split.
Qed.

(** C3, as the program behaves.  If a call invoked the wrapped function
    and the function returned a value [v] other than [None], every call
    made less than [min_interval] after it returns [v] again and leaves
    everything as it is, the count of invocations included.  And a call
    made when at least [min_interval] has passed since the stored
    timestamp, which is the clock reading of the last call that stored
    a result, invokes the wrapped function exactly once. *)
Theorem cached_within_interval
    (args1 : A) (now1 : Q) (w w1 : world V U) (v : V) :
  wrapper min_interval func args1 now1 w = (Returns (Some v), w1) ->
  invocations w1 = S (invocations w) ->
  (forall args2 now2,
      now2 - now1 < min_interval ->
      wrapper min_interval func args2 now2 w1 = (Returns (Some v), w1)) /\
  (forall args2 now2,
      min_interval <= now2 - now1 ->
      invocations (snd (wrapper min_interval func args2 now2 w1))
      = S (invocations w1)) /\
  (forall args' now' (w' : world V U),
      min_interval <= now' - t (st w') ->
      invocations (snd (wrapper min_interval func args' now' w'))
      = S (invocations w')).
Proof.
  intros H Hinv.
  assert (Hst : st w1 = mkState now1 (Some v)).
  { destruct (wrapper_cases args1 now1 w)
      as [[_ Hw] | [[_ (e' & u & _ & Hw)] | [_ (v' & u & _ & Hw)]]];
      rewrite Hw in H; inversion H; subst; simpl in *.
    - lia.
    - reflexivity. }
  assert (Hlate : forall args' now' (w' : world V U),
             min_interval <= now' - t (st w') ->
             invocations (snd (wrapper min_interval func args' now' w'))
             = S (invocations w')).
  { intros args' now' w' Hle. rewrite wrapper_invocations.
    unfold within_interval.
    assert (E0 : Qlt_bool (now' - t (st w')) min_interval = false)
      by now apply Qlt_bool_false_iff.
    rewrite E0. reflexivity. }
  split; [| split].
  - intros args2 now2 Hlt. unfold RateLimiter.wrapper, within_interval.
    rewrite Hst; simpl.
    assert (E0 : Qlt_bool (now2 - now1) min_interval = true)
      by now apply Qlt_bool_iff.
    rewrite E0. reflexivity.
  - intros args2 now2 Hle. apply Hlate. rewrite Hst; simpl. exact Hle.
  - exact Hlate.
Qed.

(** What [observe] records about one call. *)
Lemma observe_cases (args : A) (now : Q) (w : world V U) :
  (exists v,
      result (st w) = Some v /\
      observe min_interval func args now w
      = (mkCall false (Returns (Some v)), w)) \/
  (exists r w',
      observe min_interval func args now w = (mkCall true r, w') /\
      match r with
      | Returns x => result (st w') = x
      | Raises _ => st w' = st w
      end).
Proof.
  unfold RateLimiter.observe.
  destruct (wrapper_cases args now w)
    as [[Hc Hw] | [[_ (e & u & _ & Hw)] | [_ (x & u & _ & Hw)]]];
    rewrite Hw; cbn -[Nat.eqb].
  - left. unfold within_interval in Hc.
    apply andb_true_iff in Hc. destruct Hc as [_ Hc].
    destruct (result (st w)) as [v |]; [| discriminate].
    exists v. rewrite Nat.eqb_refl. split; reflexivity.
  - right. exists (Raises e), (mkWorld (st w) u (S (invocations w))).
    assert (En : (S (invocations w) =? invocations w)%nat = false)
      by (apply Nat.eqb_neq; lia).
    rewrite En. split; reflexivity.
  - right. exists (Returns x), (mkWorld (mkState now x) u (S (invocations w))).
    assert (En : (S (invocations w) =? invocations w)%nat = false)
      by (apply Nat.eqb_neq; lia).
    rewrite En. split; reflexivity.
Qed.

(** The invariant behind the cache: in a run that starts from any
    [w], a call answered without invoking the wrapped function returns a
    value other than [None] that either was in the closure's state at
    the start of the run or was returned by the wrapped function in an
    earlier call of the run. *)
Lemma session_cached (calls : list (A * Q)) (w : world V U) (k : nat) (c : call V E) :
  nth_error (fst (session min_interval func calls w)) k = Some c ->
  invoked c = false ->
  exists v,
    ended c = Returns (Some v) /\
    (result (st w) = Some v \/
     exists j c',
       (j < k)%nat /\
       nth_error (fst (session min_interval func calls w)) j = Some c' /\
       invoked c' = true /\
       ended c' = Returns (Some v)).
Proof.
  revert w k.
  induction calls as [| [args now] rest IH]; intros w k Hk Hc; simpl in *.
  - destruct k; discriminate.
  - destruct (observe_cases args now w)
      as [(v0 & Hres & Ho) | (r & w' & Ho & Hw')];
      rewrite Ho in *;
      [destruct (session min_interval func rest w) as [cs w''] eqn:Es
      |destruct (session min_interval func rest w') as [cs w''] eqn:Es];
      simpl in *.
    + destruct k as [| k]; simpl in Hk.
      * inversion Hk; subst c. exists v0. split; [reflexivity | now left].
      * specialize (IH w k). rewrite Es in IH.
        destruct (IH Hk Hc) as (v & Hv & [Hin | (j & c' & Hj & Hn & Hi & He)]).
        -- exists v. split; [exact Hv | now left].
        -- exists v. split; [exact Hv | right].
           exists (S j), c'. repeat split; try assumption. lia.
    + destruct k as [| k]; simpl in Hk.
      * inversion Hk; subst c. discriminate.
      * specialize (IH w' k). rewrite Es in IH.
        destruct (IH Hk Hc) as (v & Hv & [Hin | (j & c' & Hj & Hn & Hi & He)]).
        -- exists v. split; [exact Hv |].
           destruct r as [x | e].
           ++ right. exists 0%nat, (mkCall true (Returns x)).
              repeat split; try lia. simpl. congruence.
           ++ left. congruence.
        -- exists v. split; [exact Hv | right].
           exists (S j), c'. repeat split; try assumption. lia.
Qed.

(** C10.  In any run of calls on a freshly decorated function, a call
    that is answered without invoking the wrapped function returns a
    value that the wrapped function returned, without raising, to a
    strictly earlier call of the run.  The first call of a run always
    invokes the wrapped function, whatever the clock reads: the stored
    result is still [None]. *)
Theorem cached_value_was_fetched
    (calls : list (A * Q)) (u : U) (k : nat) (c : call V E) :
  nth_error (fst (session min_interval func calls (start u))) k = Some c ->
  invoked c = false ->
  (exists j c' v,
      (j < k)%nat /\
      nth_error (fst (session min_interval func calls (start u))) j = Some c' /\
      invoked c' = true /\
      ended c' = Returns (Some v) /\
      ended c = Returns (Some v)) /\
  (forall args now rest u',
      exists c0,
        hd_error (fst (session min_interval func ((args, now) :: rest) (start u')))
        = Some c0 /\
        invoked c0 = true).
Proof.
  intros Hk Hc. split.
  - destruct (session_cached calls (start u) k c Hk Hc)
      as (v & Hv & [Hin | (j & c' & Hj & Hn & Hi & He)]).
    + discriminate.
    + exists j, c', v. repeat split; assumption.
  - intros args now rest u'. simpl.
    destruct (observe_cases args now (start u'))
      as [(v0 & Hres & _) | (r & w' & Ho & _)].
    + discriminate.
    + rewrite Ho.
      destruct (session min_interval func rest w') as [cs w''].
      exists (mkCall true r). split; reflexivity.
Qed.

(** *** Several threads *)

Lemma set_pc_same (i : nat) (p : pc A V) (ths : nat -> pc A V) :
  set_pc i p ths i = p.
Proof. unfold set_pc. now rewrite Nat.eqb_refl. Qed.

(** A thread that runs a whole call with no other thread in between does
    to the shared state what [wrapper] does, and ends the same way. *)
Lemma run_alone (c : conf A V U) (i : nat) (args : A) (now : Q) :
  threads c i = Idle ->
  shared (snd (run min_interval func c [Begin i args now; Go i; Go i; Go i]))
    = snd (wrapper min_interval func args now (shared c)) /\
  call_end (last (fst (run min_interval func c [Begin i args now; Go i; Go i; Go i]))
                 (Entered i))
    = Some (fst (wrapper min_interval func args now (shared c))) /\
  threads (snd (run min_interval func c [Begin i args now; Go i; Go i; Go i])) i
    = Idle.
Proof.
  intros Hidle. unfold RateLimiter.wrapper.
  cbn [run step]. rewrite Hidle. cbn [threads shared]. rewrite set_pc_same.
  destruct (within_interval min_interval now (st (shared c))) eqn:Hc.
  - cbn [threads shared step]. rewrite !set_pc_same. cbn. rewrite set_pc_same.
    destruct (shared c); repeat split.
  - cbn [threads shared step]. rewrite set_pc_same.
    destruct (func args (upstream (shared c))) as [[res | e] u].
    + cbn [threads shared step]. rewrite !set_pc_same.
      cbn. rewrite set_pc_same. repeat split.
    + cbn [threads shared step]. rewrite !set_pc_same.
      cbn. rewrite set_pc_same. repeat split.
Qed.

(** Where a stored result and a result on its way to the store come
    from, one step back. *)
Lemma step_origin (c c' : conf A V U) (a : action A) (ev : event V E) :
  step min_interval func c a = Some (ev, c') ->
  (forall v,
      result (st (shared c')) = Some v ->
      result (st (shared c)) = Some v \/
      exists j now, threads c j = AtUpdate now (Some v)) /\
  (forall j now v,
      threads c' j = AtUpdate now (Some v) ->
      threads c j = AtUpdate now (Some v) \/
      ev = Invoked j (Returns (Some v))).
Proof.
  unfold step. intros H.
  destruct a as [i args now | i].
  - destruct (threads c i) eqn:Hi; try discriminate.
    inversion H; subst; clear H; cbn [threads shared]. split.
    + intros v Hv. now left.
    + intros j now' v. unfold set_pc.
      destruct (j =? i)%nat; [discriminate | now left].
  - destruct (threads c i) as [| args now | args now | now res] eqn:Hi.
    + discriminate.
    + destruct (within_interval min_interval now (st (shared c)));
        inversion H; subst; clear H; cbn [threads shared]; split;
        try (intros v Hv; now left);
        intros j now' v; unfold set_pc;
        (destruct (j =? i)%nat; [discriminate | now left]).
    + destruct (func args (upstream (shared c))) as [[res | e] u];
        inversion H; subst; clear H; cbn [threads shared st]; split;
        try (intros v Hv; now left);
        intros j now' v; unfold set_pc;
        destruct (j =? i)%nat eqn:Ej;
        try discriminate; try (now left).
      intros Hj. inversion Hj; subst. right.
      apply Nat.eqb_eq in Ej. now subst.
    + inversion H; subst; clear H; cbn [threads shared st result]; split.
      * intros v Hv. right. exists i, now. now rewrite Hi, Hv.
      * intros j now' v. unfold set_pc.
        destruct (j =? i)%nat; [discriminate | now left].
Qed.

(** The invariant of the cache under any schedule: a result answered
    from the cache is not [None], and it is in the store at the start of
    the run, or on its way to the store at the start of the run, or was
    returned by the wrapped function earlier in the run. *)
Lemma run_hit (schedule : list (action A)) (c : conf A V U)
    (n i : nat) (res : option V) :
  nth_error (fst (run min_interval func c schedule)) n = Some (Hit i res) ->
  exists v,
    res = Some v /\
    (result (st (shared c)) = Some v \/
     (exists j now, threads c j = AtUpdate now (Some v)) \/
     (exists m j,
         (m < n)%nat /\
         nth_error (fst (run min_interval func c schedule)) m
         = Some (Invoked j (Returns (Some v))))).
Proof.
  revert c n.
  induction schedule as [| a rest IH]; intros c n Hn; cbn [run] in *.
  - destruct n; discriminate.
  - destruct (step min_interval func c a) as [[ev c'] |] eqn:Es.
    + destruct (run min_interval func c' rest) as [evs c''] eqn:Er.
      cbn [fst] in *.
      destruct n as [| n]; cbn [nth_error] in Hn.
      * inversion Hn; subst ev. clear IH.
        unfold step in Es. destruct a as [j args now | j].
        -- destruct (threads c j); discriminate.
        -- destruct (threads c j) as [| args now | args now | now r]; try discriminate.
           ++ destruct (within_interval min_interval now (st (shared c))) eqn:Hc;
                [| discriminate].
              inversion Es; subst. unfold within_interval in Hc.
              apply andb_true_iff in Hc. destruct Hc as [_ Hc].
              destruct (result (st (shared c))) as [v |]; [| discriminate].
              exists v. split; [reflexivity | now left].
           ++ destruct (func args (upstream (shared c))) as [[r | e] u];
                discriminate.
      * specialize (IH c' n). rewrite Er in IH. cbn [fst] in IH.
        destruct (IH Hn) as (v & Hv & Hfrom). exists v. split; [exact Hv |].
        destruct (step_origin c c' a ev Es) as [Hstore Hway].
        destruct Hfrom as [Hin | [(j & now & Hj) | (m & j & Hm & Hev)]].
        -- destruct (Hstore v Hin) as [H | H]; [now left | right; now left].
        -- destruct (Hway j now v Hj) as [H | H].
           ++ right. left. now exists j, now.
           ++ right. right. exists 0%nat, j. split; [lia |]. now subst ev.
        -- right. right. exists (S m), j. split; [lia | exact Hev].
    + apply IH. exact Hn.
Qed.

(** X22.  Under any schedule of any number of threads on a freshly
    decorated function, a call answered from the cache returns a value
    that the wrapped function returned earlier in the run. *)
Lemma threads_cached_value_was_fetched
    (schedule : list (action A)) (u : U) (n i : nat) (res : option V) :
  nth_error (fst (run min_interval func (boot u) schedule)) n = Some (Hit i res) ->
  exists v m j,
    res = Some v /\ (m < n)%nat /\
    nth_error (fst (run min_interval func (boot u) schedule)) m
    = Some (Invoked j (Returns (Some v))).
Proof.
  intros Hn.
  destruct (run_hit schedule (boot u) n i res Hn)
    as (v & Hv & [Hin | [(j & now & Hj) | (m & j & Hm & Hev)]]).
  - discriminate.
  - discriminate.
  - exists v, m, j. repeat split; assumption.
Qed.

(** Under any schedule, the step in which the wrapped function raises
    does not touch the closure's state. *)
Lemma threads_failed_fetch_keeps_cache
    (c c' : conf A V U) (a : action A) (i : nat) (e : E) :
  step min_interval func c a = Some (Invoked i (Raises e), c') ->
  st (shared c') = st (shared c).
Proof.
  unfold step. intros H. destruct a as [j args now | j].
  - destruct (threads c j); discriminate.
  - destruct (threads c j) as [| args now | args now | now r]; try discriminate.
    + destruct (within_interval min_interval now (st (shared c))); discriminate.
    + destruct (func args (upstream (shared c))) as [[r | e'] u];
        inversion H; subst; reflexivity.
Qed.

End WrapperFacts.

End RateLimiterFacts.

(** ** The rate limiter on concrete runs *)

Module RateLimiterRuns.

Import RateLimiter RateLimiterFacts.

Lemma failed_fetch_keeps_cache_witness :
  fst (wrapper 2 failing_fetch tt 13 (mkWorld (mkState 10 (Some 5%nat)) 3%nat 1%nat))
    = Raises "timeout"%string /\
  st (snd (wrapper 2 failing_fetch tt 13 (mkWorld (mkState 10 (Some 5%nat)) 3%nat 1%nat)))
    = mkState 10 (Some 5%nat).
Proof.
  destruct (failed_fetch_keeps_cache 2 failing_fetch tt 13
              (mkWorld (mkState 10 (Some 5%nat)) 3%nat 1%nat)
              "timeout"%string 4%nat eq_refl eq_refl)
    as (Hraise & Hstate & _).
  split; [exact Hraise | exact Hstate].
Defined.

Lemma cached_within_interval_witness :
  wrapper 2 numbered_fetch tt 11 (mkWorld (mkState 10 (Some 0%nat)) 1%nat 1%nat)
    = (Returns (Some 0%nat), mkWorld (mkState 10 (Some 0%nat)) 1%nat 1%nat) /\
  invocations
    (snd (wrapper 2 numbered_fetch tt 12 (mkWorld (mkState 10 (Some 0%nat)) 1%nat 1%nat)))
    = 2%nat.
Proof.
  destruct (cached_within_interval 2 numbered_fetch tt 10 (start 0%nat)
              (mkWorld (mkState 10 (Some 0%nat)) 1%nat 1%nat) 0%nat
              eq_refl eq_refl)
    as (Hhit & Hmiss & _).
  split.
  - apply (Hhit tt 11). reflexivity.
  - apply (Hmiss tt 12). discriminate.
Defined.

Lemma cached_value_was_fetched_witness :
  exists j c' v,
    (j < 1)%nat /\
    nth_error (fst (session 2 numbered_fetch [(tt, 10); (tt, 11)] (start 0%nat))) j
      = Some c' /\
    invoked c' = true /\
    ended c' = Returns (Some v) /\
    ended (mkCall false (Returns (Some 0%nat)) : call nat string)
      = Returns (Some v).
Proof.
  apply (cached_value_was_fetched 2 numbered_fetch [(tt, 10); (tt, 11)] 0%nat 1%nat
           (mkCall false (Returns (Some 0%nat))) eq_refl eq_refl).
Defined.

(** C3 as it is worded does not hold of every wrapped function.  Here the
    first call succeeds (the function returns [None]); the second call
    comes one second later, inside the interval of two seconds, and it
    invokes the function again and returns another value. *)
Lemma none_result_not_cached :
  fst (wrapper 2 none_first tt 10 (start 0%nat)) = Returns None /\
  11 - 10 < 2 /\
  fst (wrapper 2 none_first tt 11 (snd (wrapper 2 none_first tt 10 (start 0%nat))))
    <> fst (wrapper 2 none_first tt 10 (start 0%nat)) /\
  invocations
    (snd (wrapper 2 none_first tt 11 (snd (wrapper 2 none_first tt 10 (start 0%nat)))))
    <> invocations (snd (wrapper 2 none_first tt 10 (start 0%nat))).
Proof.
  split; [reflexivity |].
  split; [reflexivity |].
  split; vm_compute; discriminate.
Qed.

(** The interval runs from the last call that stored a result, not from
    the last call that succeeded: a call answered from the cache at 11.5
    does not stop the call at 12.5 from invoking the function. *)
Lemma cached_answer_does_not_restart_interval :
  fst (session 2 numbered_fetch [(tt, 10); (tt, 23 # 2); (tt, 25 # 2)] (start 0%nat))
  = [ mkCall true (Returns (Some 0%nat));
      mkCall false (Returns (Some 0%nat));
      mkCall true (Returns (Some 1%nat)) ].
Proof. reflexivity. Qed.

(** After a failed fetch the value cached before is served again while
    its interval lasts, and the function is retried once it is over. *)
Lemma stale_value_after_failure :
  let w := mkWorld (mkState 10 (Some 5%nat)) 3%nat 1%nat in
  let w' := snd (wrapper 2 failing_fetch tt 13 w) in
  fst (wrapper 2 failing_fetch tt 11 w') = Returns (Some 5%nat) /\
  fst (wrapper 2 failing_fetch tt 14 w') = Raises "timeout"%string.
Proof. split; reflexivity. Qed.

(** Two threads that both miss the cache both invoke the wrapped
    function: the lock is not held across the call. *)
Lemma two_threads_fetch_twice :
  fst (run 2 numbered_fetch (boot 0%nat)
         [Begin 0 tt 10; Begin 1 tt 10; Go 0; Go 1; Go 0; Go 1; Go 0; Go 1])
  = [ Entered 0; Entered 1; Missed 0; Missed 1;
      Invoked 0 (Returns (Some 0%nat)); Invoked 1 (Returns (Some 1%nat));
      Stored 0 (Some 0%nat); Stored 1 (Some 1%nat) ].
Proof. reflexivity. Qed.

End RateLimiterRuns.

(** ** The scenarios of the specification *)

Module Scenarios.

Import Binary64 Walker Aggregator.

Example asks_100_1_qty_2_raises :
  compute_buy_cost [(100, 1)] 2
  = Raises (ValueError "Insufficient liquidity to buy the requested quantity.").
Proof. vm_compute. reflexivity. Qed.

Example two_venues_sell_2 :
  aggregate_orderbooks [[(99, 1)]; [(100, 2)]] [[]; []]
    = ([(100, 2); (99, 1)], []) /\
  compute_sell_revenue [(100, 2); (99, 1)] 2 = Returns 200.
Proof. split; vm_compute; reflexivity. Qed.

(** The decimal sizes 0.2, 0.2 and 0.6 sum to exactly 1 as doubles, and
    the walk for 1 over them leaves [2^-53] to fill: it raises on its
    own, and takes the rest from a level behind them when there is one. *)
Example dust_is_left :
  compute_buy_cost
    [(100, double_0_2); (101, double_0_2); (102, double_0_6)] 1
  = Raises (ValueError "Insufficient liquidity to buy the requested quantity.") /\
  compute_buy_cost
    [(100, double_0_2); (101, double_0_2); (102, double_0_6); (250, 1)] 1
  = Returns (1783847664903783 # 17592186044416).
Proof. split; vm_compute; reflexivity. Qed.

(** Ten levels of size 0.1 do not fill the quantity 1. *)
Example ten_tenths_raise :
  compute_buy_cost (repeat (100, rnd64 (1 # 10)) 10) 1
  = Raises (ValueError "Insufficient liquidity to buy the requested quantity.").
Proof. vm_compute. reflexivity. Qed.

Example one_venue_down :
  aggregate_orderbooks [[]; [(100, 5)]] [[]; [(101, 5)]]
    = ([(100, 5)], [(101, 5)]) /\
  compute_buy_cost [(101, 5)] 2 = Returns 202 /\
  compute_sell_revenue [(100, 5)] 2 = Returns 200.
Proof. repeat split; vm_compute; reflexivity. Qed.

End Scenarios.

(** ** More on the walk *)

Module WalkerMore.

Import Binary64 Binary64Facts Walker Fills WalkerFacts.

(** A walk that rounds no operation rounds no subtraction. *)
Lemma exact_walk_remaining (levels : list level) (total remaining : Q) :
  exact_walk levels total remaining -> exact_remaining levels remaining.
Proof.
  revert total remaining.
  induction levels as [| [p s] rest IH]; intros total remaining H; simpl in *.
  - exact I.
  - destruct H as (_ & _ & Hr & Hrest). split; [exact Hr |].
    destruct (Qle_bool (fsub remaining (Qmin s remaining)) 0);
      [exact I | eapply IH; exact Hrest].
Qed.

Lemma zeros_nothing (levels : list level) :
  notional levels (map (fun _ => 0) levels) == 0 /\
  amount (map (fun _ : level => 0) levels) == 0.
Proof.
  induction levels as [| y rest [IH1 IH2]]; simpl; split; lra.
Qed.

(** When no subtraction is rounded, the loop lowers [remaining] by what
    its takes amount to. *)
Lemma buy_loop_amount (levels : list level) (total remaining : Q) :
  exact_remaining levels remaining ->
  snd (buy_loop levels total remaining)
    == remaining - amount (takes levels remaining).
Proof.
  revert total remaining.
  induction levels as [| [p s] rest IH]; intros total remaining Hex; simpl in *.
  - lra.
  - destruct Hex as [Hx Hrest].
    destruct (Qle_bool (fsub remaining (Qmin s remaining)) 0) eqn:E; simpl.
    + destruct (zeros_nothing rest) as [_ Hz]. lra.
    + rewrite (IH _ _ Hrest). lra.
Qed.

(** When no operation is rounded, the loop adds to the running total what
    its takes cost. *)
Lemma buy_loop_notional (levels : list level) (total remaining : Q) :
  exact_walk levels total remaining ->
  fst (buy_loop levels total remaining)
    == total + notional levels (takes levels remaining).
Proof.
  revert total remaining.
  induction levels as [| [p s] rest IH]; intros total remaining Hex; simpl in *.
  - lra.
  - destruct Hex as (Hm & Ha & Hr & Hrest). unfold price; simpl.
    destruct (Qle_bool (fsub remaining (Qmin s remaining)) 0) eqn:E; simpl.
    + destruct (zeros_nothing rest) as [Hz _]. lra.
    + rewrite (IH _ _ Hrest). lra.
Qed.

Lemma takes_feasible (levels : list level) (remaining : Q) :
  sizes_nonneg levels -> 0 <= remaining ->
  feasible levels (takes levels remaining).
Proof.
  revert remaining.
  induction levels as [| [p s] rest IH]; intros remaining Hs Hr; simpl.
  - constructor.
  - inversion Hs as [| ? ? Hs0 Hrest]; subst.
    unfold size in Hs0; simpl in Hs0.
    assert (Hav : 0 <= Qmin s remaining /\ Qmin s remaining <= s).
    { destruct (Qmin_cases s remaining) as [[Hc Hm] | [Hc Hm]]; split; lra. }
    destruct (Qle_bool (fsub remaining (Qmin s remaining)) 0) eqn:E.
    + constructor; [exact Hav |].
      clear - Hrest. induction Hrest as [| x l Hx _ IHl]; simpl;
        constructor; [split; [lra | exact Hx] | exact IHl].
    + constructor; [exact Hav |].
      apply IH; [exact Hrest | now apply fsub_available_nonneg].
Qed.

Lemma feasible_amount (levels : list level) (xs : list Q) :
  feasible levels xs -> 0 <= amount xs /\ amount xs <= total_size levels.
Proof.
  induction 1 as [| x a levels xs [Ha1 Ha2] _ [IH1 IH2]]; simpl; split; lra.
Qed.

(** A fill costs at least its amount at a price that no level is below. *)
Lemma notional_lower (levels : list level) (xs : list Q) (p : Q) :
  Forall (fun x => p <= price x) levels -> feasible levels xs ->
  p * amount xs <= notional levels xs.
Proof.
  intros Hp Hf. revert Hp.
  induction Hf as [| x a levels xs [Ha1 Ha2] _ IH]; intros Hp; simpl.
  - lra.
  - inversion Hp as [| ? ? Hp0 Hprest]; subst. specialize (IH Hprest).
    assert (H : 0 <= a * (price x - p)) by (apply Qmult_le_0_compat; lra).
    lra.
Qed.

(** A fill brings at most its amount at a price that no level is above. *)
Lemma notional_upper (levels : list level) (xs : list Q) (p : Q) :
  Forall (fun x => price x <= p) levels -> feasible levels xs ->
  notional levels xs <= p * amount xs.
Proof.
  intros Hp Hf. revert Hp.
  induction Hf as [| x a levels xs [Ha1 Ha2] _ IH]; intros Hp; simpl.
  - lra.
  - inversion Hp as [| ? ? Hp0 Hprest]; subst. specialize (IH Hprest).
    assert (H : 0 <= a * (p - price x)) by (apply Qmult_le_0_compat; lra).
    lra.
Qed.

(** The exchange argument.  On a book in ascending order of price, with
    no price below [p0], a fill of [q + d] costs at least what the takes
    of the loop for [q] cost, plus [d] at the price [p0]. *)
Lemma takes_optimal (levels : list level) :
  forall (q d p0 : Q) (xs : list Q),
    Aggregator.non_decreasing levels ->
    Forall (fun x => p0 <= price x) levels ->
    feasible levels xs ->
    exact_remaining levels q ->
    0 < q -> 0 <= d -> amount xs == q + d ->
    notional levels (takes levels q) + p0 * d <= notional levels xs.
Proof.
  induction levels as [| [p s] rest IH];
    intros q d p0 xs Hsort Hlow Hf Hex Hq Hd Ham.
  - inversion Hf; subst. simpl in *. lra.
  - inversion Hf as [| x a ? xs' [Ha1 Ha2] Hf' ]; subst.
    inversion Hsort as [| ? ? Hsort' Hmin]; subst.
    inversion Hlow as [| ? ? Hp0 _]; subst.
    destruct Hex as [Hx Hrest].
    unfold price, size in *; simpl in *.
    assert (Hpd : 0 <= (p - p0) * d) by (apply Qmult_le_0_compat; lra).
    destruct (Qle_bool (fsub q (Qmin s q)) 0) eqn:E; tests; simpl.
    + destruct (zeros_nothing rest) as [Hz _].
      assert (Hm : Qmin s q == q)
        by (destruct (Qmin_cases s q) as [[Hc Hm] | [Hc Hm]]; lra).
      assert (Hmp : Qmin s q * p == q * p) by (rewrite Hm; reflexivity).
      pose proof (notional_lower rest xs' p Hmin Hf') as Hlo.
      assert (Hxs : amount xs' == q + d - a) by lra.
      assert (Hpx : p * amount xs' == p * (q + d - a))
        by (rewrite Hxs; reflexivity).
      unfold price in *; simpl in *. lra.
    + assert (Hm : Qmin s q == s)
        by (destruct (Qmin_cases s q) as [[Hc Hm] | [Hc Hm]]; lra).
      assert (Hmp : Qmin s q * p == s * p) by (rewrite Hm; reflexivity).
      assert (Hxs : amount xs' == fsub q (Qmin s q) + (d + s - a)) by lra.
      assert (Hd' : 0 <= d + s - a) by lra.
      pose proof (IH (fsub q (Qmin s q)) (d + s - a) p xs'
                    Hsort' Hmin Hf' Hrest E Hd' Hxs) as Hlo.
      unfold price in *; simpl in *. lra.
Qed.

Lemma takes_cheapest (levels : list level) (q : Q) (xs : list Q) :
  Aggregator.non_decreasing levels -> feasible levels xs ->
  exact_remaining levels q ->
  0 < q -> amount xs == q ->
  notional levels (takes levels q) <= notional levels xs.
Proof.
  intros Hsort Hf Hex Hq Ham.
  destruct levels as [| x rest].
  - inversion Hf; subst. simpl in *. lra.
  - assert (Hlow : Forall (fun y => price x <= price y) (x :: rest)).
    { inversion Hsort; subst. constructor; [apply Qle_refl | assumption]. }
    assert (Ham' : amount xs == q + 0) by lra.
    pose proof (takes_optimal (x :: rest) q 0 (price x) xs
                  Hsort Hlow Hf Hex Hq (Qle_refl 0) Ham') as H.
    lra.
Qed.

(** Changing the sign of every price changes the sign of what a fill is
    worth and nothing else. *)
Lemma takes_negated (levels : list level) (remaining : Q) :
  takes (negated levels) remaining = takes levels remaining.
Proof.
  revert remaining.
  induction levels as [| [p s] rest IH]; intros remaining; simpl.
  - reflexivity.
  - unfold size; simpl.
    destruct (Qle_bool (fsub remaining (Qmin s remaining)) 0); f_equal.
    + unfold negated. apply map_map.
    + apply IH.
Qed.

Lemma exact_remaining_negated (levels : list level) (remaining : Q) :
  exact_remaining levels remaining ->
  exact_remaining (negated levels) remaining.
Proof.
  revert remaining.
  induction levels as [| [p s] rest IH]; intros remaining H; simpl in *.
  - exact I.
  - unfold size; simpl. destruct H as [Hx Hrest]. split; [exact Hx |].
    destruct (Qle_bool (fsub remaining (Qmin s remaining)) 0);
      [exact I | apply IH, Hrest].
Qed.

Lemma notional_negated (levels : list level) (xs : list Q) :
  notional (negated levels) xs == - notional levels xs.
Proof.
  revert xs.
  induction levels as [| x rest IH]; intros [| a xs]; simpl; try lra.
  rewrite IH. unfold price; simpl. lra.
Qed.

Lemma feasible_negated (levels : list level) (xs : list Q) :
  feasible levels xs -> feasible (negated levels) xs.
Proof.
  induction 1 as [| x a levels xs Ha _ IH]; simpl; constructor; assumption.
Qed.

Lemma non_decreasing_negated (levels : list level) :
  Aggregator.non_increasing levels -> Aggregator.non_decreasing (negated levels).
Proof.
  unfold Aggregator.non_increasing, Aggregator.non_decreasing.
  induction 1 as [| x l _ IH Hx]; simpl; constructor; [exact IH |].
  unfold negated. rewrite Forall_map.
  eapply Forall_impl; [| exact Hx]. intros y Hy. unfold price in *; simpl. lra.
Qed.

(** On a book in descending order of price no fill of [q] brings more than
    the takes of the loop for [q]. *)
Lemma takes_highest (levels : list level) (q : Q) (xs : list Q) :
  Aggregator.non_increasing levels -> feasible levels xs ->
  exact_remaining levels q ->
  0 < q -> amount xs == q ->
  notional levels xs <= notional levels (takes levels q).
Proof.
  intros Hsort Hf Hex Hq Ham.
  pose proof (takes_cheapest (negated levels) q xs
                (non_decreasing_negated levels Hsort)
                (feasible_negated levels xs Hf)
                (exact_remaining_negated levels q Hex) Hq Ham) as H.
  rewrite takes_negated in H.
  pose proof (notional_negated levels xs) as N1.
  pose proof (notional_negated levels (takes levels q)) as N2.
  lra.
Qed.

(** A quantity the book covers, walked without rounding, is taken in
    full by a fill the book allows, and the total is what that fill is
    worth. *)
Lemma walk_is_a_fill (levels : list level) (qty : Q) :
  sizes_nonneg levels -> 0 < qty -> qty <= total_size levels ->
  exact_walk levels 0 qty ->
  feasible levels (takes levels qty) /\
  amount (takes levels qty) == qty /\
  compute_buy_cost levels qty = Returns (fst (buy_loop levels 0 qty)) /\
  compute_sell_revenue levels qty = Returns (fst (buy_loop levels 0 qty)) /\
  fst (buy_loop levels 0 qty) == notional levels (takes levels qty).
Proof.
  intros Hs Hq Hle Hex.
  pose proof (exact_walk_remaining levels 0 qty Hex) as Hexr.
  pose proof (buy_loop_notional levels 0 qty Hex) as Htot.
  pose proof (buy_loop_amount levels 0 qty Hexr) as Hrem.
  pose proof (buy_loop_filled levels 0 qty Hexr Hq Hle) as Hdone.
  assert (Hq0 : 0 <= qty) by lra.
  pose proof (buy_loop_remaining_nonneg levels 0 qty Hq0) as Hpos.
  split; [apply takes_feasible; assumption |].
  split; [lra |].
  destruct (compute_buy_cost_cases levels qty)
    as [(Hr & _) | (_ & Eb & Es)]; [lra |].
  split; [exact Eb | split; [exact Es | lra]].
Qed.

(** Reads off the facts about a book written out in full. *)
Ltac book_ok :=
  repeat first
    [ apply SSorted_nil | apply SSorted_cons
    | apply Forall_nil | apply Forall_cons
    | apply Forall2_nil | apply Forall2_cons
    | match goal with |- _ /\ _ => split end ];
  unfold price, size; simpl; first [reflexivity | discriminate].

(** Checks by running the walk that it rounds nothing. *)
Ltac exact_ok := vm_compute; repeat split; reflexivity.

(** X1.  Best execution of a buy.  On asks in ascending order of price,
    when the walk of a quantity > 0 rounds no operation,
    [compute_buy_cost] returns a total for every such quantity that some
    fill of the book adds up to, and no such fill is cheaper: whatever
    quantities between 0 and the sizes are taken from the levels, if they
    add up to [qty] they cost at least the total returned. *)
Theorem buy_cost_is_cheapest (asks : list level) (qty : Q) (xs : list Q) :
  Aggregator.non_decreasing asks ->
  feasible asks xs -> amount xs == qty -> 0 < qty ->
  exact_walk asks 0 qty ->
  exists total,
    compute_buy_cost asks qty = Returns total /\
    total <= notional asks xs.
Proof.
  intros Hsort Hf Ham Hq Hex.
  pose proof (exact_walk_remaining asks 0 qty Hex) as Hexr.
  pose proof (takes_cheapest asks qty xs Hsort Hf Hexr Hq Ham) as Hbest.
  pose proof (buy_loop_notional asks 0 qty Hex) as Htot.
  destruct (feasible_amount asks xs Hf) as [_ Hle].
  assert (Hfill : qty <= total_size asks) by lra.
  pose proof (buy_loop_filled asks 0 qty Hexr Hq Hfill) as Hdone.
  destruct (compute_buy_cost_cases asks qty)
    as [(Hr & _) | (_ & Eb & _)]; [lra |].
  exists (fst (buy_loop asks 0 qty)). split; [exact Eb | lra].
Qed.

Lemma buy_cost_is_cheapest_witness :
  exists total,
    compute_buy_cost [(100, 1); (101, 2); (105, 3)] 2 = Returns total /\
    total <= notional [(100, 1); (101, 2); (105, 3)] [1 # 2; 1; 1 # 2].
Proof.
  apply (buy_cost_is_cheapest [(100, 1); (101, 2); (105, 3)] 2 [1 # 2; 1; 1 # 2]);
    first [exact_ok | book_ok].
Defined.

(** X2.  Best execution of a sell.  On bids in descending order of price,
    when the walk of a quantity > 0 rounds no operation,
    [compute_sell_revenue] returns a total for every such quantity that
    some fill of the book adds up to, and no such fill brings more. *)
Theorem sell_revenue_is_highest (bids : list level) (qty : Q) (xs : list Q) :
  Aggregator.non_increasing bids ->
  feasible bids xs -> amount xs == qty -> 0 < qty ->
  exact_walk bids 0 qty ->
  exists total,
    compute_sell_revenue bids qty = Returns total /\
    notional bids xs <= total.
Proof.
  intros Hsort Hf Ham Hq Hex.
  pose proof (exact_walk_remaining bids 0 qty Hex) as Hexr.
  pose proof (takes_highest bids qty xs Hsort Hf Hexr Hq Ham) as Hbest.
  pose proof (buy_loop_notional bids 0 qty Hex) as Htot.
  destruct (feasible_amount bids xs Hf) as [_ Hle].
  assert (Hfill : qty <= total_size bids) by lra.
  pose proof (buy_loop_filled bids 0 qty Hexr Hq Hfill) as Hdone.
  destruct (compute_buy_cost_cases bids qty)
    as [(Hr & _) | (_ & _ & Es)]; [lra |].
  exists (fst (buy_loop bids 0 qty)). split; [exact Es | lra].
Qed.

Lemma sell_revenue_is_highest_witness :
  exists total,
    compute_sell_revenue [(100, 2); (99, 1); (95, 3)] 3 = Returns total /\
    notional [(100, 2); (99, 1); (95, 3)] [1; 1; 1] <= total.
Proof.
  apply (sell_revenue_is_highest [(100, 2); (99, 1); (95, 3)] 3 [1; 1; 1]);
    first [exact_ok | book_ok].
Defined.

(** X3.  Depth beyond the fill does not matter.  When buying a quantity
    > 0 against the first levels of a book returns a total, the levels
    behind them change nothing: buying or selling against the longer book
    returns that total. *)
Theorem deeper_levels_ignored (front behind : list level) (qty total : Q) :
  0 < qty ->
  compute_buy_cost front qty = Returns total ->
  compute_buy_cost (front ++ behind) qty = Returns total /\
  compute_sell_revenue (front ++ behind) qty = Returns total.
Proof.
  intros Hq Hret.
  destruct (compute_buy_cost_cases front qty)
    as [(_ & Eb & _) | (Hdone & Eb & _)]; [congruence |].
  assert (Et : total = fst (buy_loop front 0 qty)) by congruence.
  pose proof (buy_loop_app front behind 0 qty Hq Hdone) as Happ.
  destruct (compute_buy_cost_cases (front ++ behind) qty)
    as [(Hr & _) | (_ & Eb' & Es')]; rewrite Happ in *; [lra |].
  subst total. split; assumption.
Qed.

Lemma deeper_levels_ignored_witness :
  compute_buy_cost ([(100, 1); (101, 2)] ++ [(90, 7); (250, 1)]) 2 = Returns 201 /\
  compute_sell_revenue ([(100, 1); (101, 2)] ++ [(90, 7); (250, 1)]) 2
  = Returns 201.
Proof.
  apply (deeper_levels_ignored [(100, 1); (101, 2)] [(90, 7); (250, 1)] 2 201);
    [reflexivity | vm_compute; reflexivity].
Defined.

(** X4.  The total lies between the quantity at the lowest price and the
    quantity at the highest price.  If every price of a book with sizes
    >= 0 is between [lo] and [hi], a quantity > 0 that the book covers
    and whose walk rounds no operation is bought, or sold, for a total
    between [lo * qty] and [hi * qty]. *)
Theorem total_within_price_range (levels : list level) (qty lo hi : Q) :
  sizes_nonneg levels ->
  Forall (fun x => lo <= price x /\ price x <= hi) levels ->
  0 < qty -> qty <= total_size levels ->
  exact_walk levels 0 qty ->
  exists total,
    compute_buy_cost levels qty = Returns total /\
    compute_sell_revenue levels qty = Returns total /\
    lo * qty <= total /\ total <= hi * qty.
Proof.
  intros Hs Hp Hq Hle Hex.
  destruct (walk_is_a_fill levels qty Hs Hq Hle Hex)
    as (Hf & Ham & Hb & Hsell & Hn).
  exists (fst (buy_loop levels 0 qty)).
  split; [exact Hb | split; [exact Hsell |]].
  assert (Hlo : Forall (fun x => lo <= price x) levels)
    by (eapply Forall_impl; [| exact Hp]; intros x [H _]; exact H).
  assert (Hhi : Forall (fun x => price x <= hi) levels)
    by (eapply Forall_impl; [| exact Hp]; intros x [_ H]; exact H).
  pose proof (notional_lower levels _ lo Hlo Hf) as L.
  pose proof (notional_upper levels _ hi Hhi Hf) as Up.
  assert (Elo : lo * amount (takes levels qty) == lo * qty)
    by (rewrite Ham; reflexivity).
  assert (Ehi : hi * amount (takes levels qty) == hi * qty)
    by (rewrite Ham; reflexivity).
  split; lra.
Qed.

Lemma total_within_price_range_witness :
  exists total,
    compute_buy_cost [(101, 2); (100, 1); (105, 3)] 4 = Returns total /\
    compute_sell_revenue [(101, 2); (100, 1); (105, 3)] 4 = Returns total /\
    100 * 4 <= total /\ total <= 105 * 4.
Proof.
  apply (total_within_price_range [(101, 2); (100, 1); (105, 3)] 4 100 105);
    first [exact_ok | book_ok].
Defined.

(** A fill scaled down by a factor between 0 and 1. *)
Lemma scaled_fill (levels : list level) (xs : list Q) (k : Q) :
  0 <= k -> k <= 1 -> feasible levels xs ->
  feasible levels (map (Qmult k) xs) /\
  amount (map (Qmult k) xs) == k * amount xs /\
  notional levels (map (Qmult k) xs) == k * notional levels xs.
Proof.
  intros Hk0 Hk1.
  induction 1 as [| x a levels xs [Ha1 Ha2] _ (IHf & IHa & IHn)]; simpl.
  - split; [constructor | split; lra].
  - assert (H0 : 0 <= k * a) by (apply Qmult_le_0_compat; assumption).
    assert (H1 : 0 <= (1 - k) * a) by (apply Qmult_le_0_compat; lra).
    split; [constructor; [split; lra | exact IHf] | split; lra].
Qed.

(** The fill that [q2] gets, scaled down to [q1], is a fill of [q1]. *)
Lemma scaled_walk (levels : list level) (q1 q2 : Q) :
  sizes_nonneg levels -> 0 < q1 -> q1 <= q2 -> q2 <= total_size levels ->
  exact_walk levels 0 q2 ->
  exists xs,
    feasible levels xs /\ amount xs == q1 /\
    notional levels xs * q2 == fst (buy_loop levels 0 q2) * q1.
Proof.
  intros Hs Hq1 Hle Hfill Hex.
  assert (Hq2 : 0 < q2) by lra.
  destruct (walk_is_a_fill levels q2 Hs Hq2 Hfill Hex)
    as (Hf & Ham & _ & _ & Hn).
  assert (Hne : ~ q2 == 0) by lra.
  assert (Hk : (q1 / q2) * q2 == q1) by (field; exact Hne).
  assert (Hk0 : 0 <= q1 / q2).
  { apply Qle_shift_div_l; [exact Hq2 | lra]. }
  assert (Hk1 : q1 / q2 <= 1).
  { apply Qle_shift_div_r; [exact Hq2 | lra]. }
  destruct (scaled_fill levels (takes levels q2) (q1 / q2) Hk0 Hk1 Hf)
    as (Hf' & Ham' & Hn').
  exists (map (Qmult (q1 / q2)) (takes levels q2)).
  split; [exact Hf' |]. split.
  - rewrite Ham', Ham. exact Hk.
  - rewrite Hn', Hn.
    transitivity (notional levels (takes levels q2) * ((q1 / q2) * q2));
      [ring | rewrite Hk; reflexivity].
Qed.

(** X5.  A larger buy never gets a better average price.  On asks in
    ascending order of price with sizes >= 0, for quantities
    [0 < q1 <= q2] that the book covers and whose walks round no
    operation, the cost per unit of [q1] is at most the cost per unit of
    [q2] (stated without division). *)
Theorem buy_average_price_rises (asks : list level) (q1 q2 : Q) :
  Aggregator.non_decreasing asks -> sizes_nonneg asks ->
  0 < q1 -> q1 <= q2 -> q2 <= total_size asks ->
  exact_walk asks 0 q1 -> exact_walk asks 0 q2 ->
  exists total1 total2,
    compute_buy_cost asks q1 = Returns total1 /\
    compute_buy_cost asks q2 = Returns total2 /\
    total1 * q2 <= total2 * q1.
Proof.
  intros Hsort Hs Hq1 Hle Hfill Hex1 Hex2.
  assert (Hq2 : 0 < q2) by lra.
  destruct (scaled_walk asks q1 q2 Hs Hq1 Hle Hfill Hex2)
    as (xs & Hf & Ham & Hn).
  pose proof (takes_cheapest asks q1 xs Hsort Hf
                (exact_walk_remaining asks 0 q1 Hex1) Hq1 Ham) as Hbest.
  assert (Hfill1 : q1 <= total_size asks) by lra.
  destruct (walk_is_a_fill asks q1 Hs Hq1 Hfill1 Hex1)
    as (_ & _ & Hb1 & _ & Hn1).
  destruct (walk_is_a_fill asks q2 Hs Hq2 Hfill Hex2)
    as (_ & _ & Hb2 & _ & _).
  exists (fst (buy_loop asks 0 q1)), (fst (buy_loop asks 0 q2)).
  split; [exact Hb1 | split; [exact Hb2 |]].
  rewrite <- Hn. apply Qmult_le_compat_r; [lra | lra].
Qed.

Lemma buy_average_price_rises_witness :
  exists total1 total2,
    compute_buy_cost [(100, 1); (101, 2); (105, 3)] 2 = Returns total1 /\
    compute_buy_cost [(100, 1); (101, 2); (105, 3)] 5 = Returns total2 /\
    total1 * 5 <= total2 * 2.
Proof.
  apply (buy_average_price_rises [(100, 1); (101, 2); (105, 3)] 2 5);
    first [exact_ok | book_ok].
Defined.

(** X6.  A larger sell never gets a better average price.  On bids in
    descending order of price with sizes >= 0, for quantities
    [0 < q1 <= q2] that the book covers and whose walks round no
    operation, the revenue per unit of [q2] is at most the revenue per
    unit of [q1] (stated without division). *)
Theorem sell_average_price_falls (bids : list level) (q1 q2 : Q) :
  Aggregator.non_increasing bids -> sizes_nonneg bids ->
  0 < q1 -> q1 <= q2 -> q2 <= total_size bids ->
  exact_walk bids 0 q1 -> exact_walk bids 0 q2 ->
  exists total1 total2,
    compute_sell_revenue bids q1 = Returns total1 /\
    compute_sell_revenue bids q2 = Returns total2 /\
    total2 * q1 <= total1 * q2.
Proof.
  intros Hsort Hs Hq1 Hle Hfill Hex1 Hex2.
  assert (Hq2 : 0 < q2) by lra.
  destruct (scaled_walk bids q1 q2 Hs Hq1 Hle Hfill Hex2)
    as (xs & Hf & Ham & Hn).
  pose proof (takes_highest bids q1 xs Hsort Hf
                (exact_walk_remaining bids 0 q1 Hex1) Hq1 Ham) as Hbest.
  assert (Hfill1 : q1 <= total_size bids) by lra.
  destruct (walk_is_a_fill bids q1 Hs Hq1 Hfill1 Hex1)
    as (_ & _ & _ & Hb1 & Hn1).
  destruct (walk_is_a_fill bids q2 Hs Hq2 Hfill Hex2)
    as (_ & _ & _ & Hb2 & _).
  exists (fst (buy_loop bids 0 q1)), (fst (buy_loop bids 0 q2)).
  split; [exact Hb1 | split; [exact Hb2 |]].
  rewrite <- Hn. apply Qmult_le_compat_r; [lra | lra].
Qed.

Lemma sell_average_price_falls_witness :
  exists total1 total2,
    compute_sell_revenue [(100, 2); (99, 1); (95, 3)] 2 = Returns total1 /\
    compute_sell_revenue [(100, 2); (99, 1); (95, 3)] 6 = Returns total2 /\
    total2 * 2 <= total1 * 6.
Proof.
  apply (sell_average_price_falls [(100, 2); (99, 1); (95, 3)] 2 6);
    first [exact_ok | book_ok].
Defined.

(** X7.  A quantity below 0 is not refused.  Against a book whose first
    level has a size >= 0, buying or selling a negative quantity returns
    that quantity times the first price (the binary64 product, which is
    the exact one when that is a double) and does not raise; the size of
    the level and the rest of the book play no part.  Against an empty
    book it returns 0. *)
Theorem negative_quantity (p s : Q) (rest : list level) (qty : Q) :
  qty < 0 -> 0 <= s ->
  (exists total,
      compute_buy_cost ((p, s) :: rest) qty = Returns total /\
      compute_sell_revenue ((p, s) :: rest) qty = Returns total /\
      total = fmul qty p /\
      (is_double (qty * p) -> total == qty * p)) /\
  compute_buy_cost [] qty = Returns 0 /\
  compute_sell_revenue [] qty = Returns 0.
Proof.
  intros Hq Hs.
  assert (Hm : Qmin s qty == qty) by (apply Q.min_r; lra).
  split; [| split].
  - unfold compute_buy_cost, compute_sell_revenue.
    rewrite (sell_loop_buy_loop ((p, s) :: rest) 0 qty). simpl.
    assert (Er : fsub qty (Qmin s qty) = 0)
      by (apply rnd64_zero; rewrite Hm; ring).
    assert (Em : fmul (Qmin s qty) p = fmul qty p)
      by (apply rnd64_comp; rewrite Hm; reflexivity).
    assert (Et : fadd 0 (fmul qty p) = fmul qty p).
    { unfold fadd, fmul.
      rewrite (rnd64_comp (0 + rnd64 (qty * p)) (rnd64 (qty * p)))
        by ring.
      apply rnd64_idem. }
    rewrite Er, Em, Et. simpl.
    exists (fmul qty p).
    split; [reflexivity | split; [reflexivity | split; [reflexivity |]]].
    intros Hd. exact Hd.
  - unfold compute_buy_cost; simpl.
    assert (E : Qlt_bool 0 qty = false) by (apply Qlt_bool_false_iff; lra).
    now rewrite E.
  - unfold compute_sell_revenue; simpl.
    assert (E : Qlt_bool 0 qty = false) by (apply Qlt_bool_false_iff; lra).
    now rewrite E.
Qed.

Lemma negative_quantity_witness :
  exists total,
    compute_buy_cost [(100, 1); (101, 2)] (-5) = Returns total /\
    compute_sell_revenue [(100, 1); (101, 2)] (-5) = Returns total /\
    total = fmul (-5) 100 /\
    (is_double (-5 * 100) -> total == -5 * 100).
Proof.
  apply (negative_quantity 100 1 [(101, 2)] (-5)); [reflexivity | discriminate].
Defined.

(** X23.  Books on a binary grid are decided by their total size.  When
    the sizes are not negative, sizes and quantity are multiples of one
    power of two [2^g] that is at least the smallest quantum of binary64,
    and the quantity is > 0 and at most [2^53] times [2^g] (whole units
    below [2^53], or eighths, for instance), no subtraction of the walk
    is rounded, and buying or selling raises exactly when the sizes sum
    to less than the quantity. *)
Theorem binary_grid_decided (g : Z) (levels : list level) (qty : Q) :
  (emin <= g)%Z ->
  sizes_nonneg levels ->
  Forall (fun x => on_grid g (size x)) levels ->
  on_grid g qty ->
  0 < qty -> qty <= inject_Z (2 ^ 53) * 2 ^ g ->
  exact_remaining levels qty /\
  (compute_buy_cost levels qty
     = Raises (ValueError "Insufficient liquidity to buy the requested quantity.")
   <-> total_size levels < qty) /\
  (compute_sell_revenue levels qty
     = Raises (ValueError "Insufficient liquidity to sell the requested quantity.")
   <-> total_size levels < qty) /\
  (qty <= total_size levels <->
   exists total,
     compute_buy_cost levels qty = Returns total /\
     compute_sell_revenue levels qty = Returns total).
Proof.
  intros Hg Hs Hgrid Hq Hpos Hub.
  assert (Hq0 : 0 <= qty) by lra.
  pose proof (grid_exact_remaining g levels qty Hg Hs Hgrid Hq Hq0 Hub) as Hex.
  split; [exact Hex |].
  pose proof (buy_loop_filled levels 0 qty Hex Hpos) as Hfill.
  pose proof (buy_loop_short levels 0 qty Hex Hs) as Hshort.
  destruct (compute_buy_cost_cases levels qty)
    as [(Hrem & Eb & Es) | (Hrem & Eb & Es)]; rewrite Eb, Es.
  - assert (Hlt : total_size levels < qty).
    { destruct (Qlt_le_dec (total_size levels) qty) as [H | H]; [exact H |].
      specialize (Hfill H). lra. }
    split; [split; [intros _; exact Hlt | reflexivity] |].
    split; [split; [intros _; exact Hlt | reflexivity] |].
    split; [intros H; lra | intros (total & H & _); discriminate].
  - assert (Hge : qty <= total_size levels).
    { destruct (Qlt_le_dec (total_size levels) qty) as [H | H]; [| exact H].
      specialize (Hshort H). lra. }
    split; [split; [discriminate | intros H; lra] |].
    split; [split; [discriminate | intros H; lra] |].
    split; [intros _; eexists; split; reflexivity | intros _; exact Hge].
Qed.

Lemma binary_grid_decided_witness :
  exact_remaining [(100, 1 # 4); (101, 3 # 8)] (1 # 2) /\
  (compute_buy_cost [(100, 1 # 4); (101, 3 # 8)] (1 # 2)
     = Raises (ValueError "Insufficient liquidity to buy the requested quantity.")
   <-> total_size [(100, 1 # 4); (101, 3 # 8)] < 1 # 2).
Proof.
  destruct (binary_grid_decided (-3) [(100, 1 # 4); (101, 3 # 8)] (1 # 2))
    as (H1 & H2 & _).
  - discriminate.
  - levels_ok.
  - repeat (apply Forall_cons || apply Forall_nil); unfold size; simpl.
    + exists 2%Z. reflexivity.
    + exists 3%Z. reflexivity.
  - exists 4%Z. reflexivity.
  - reflexivity.
  - discriminate.
  - split; assumption.
Defined.

End WalkerMore.

(** ** More on the aggregator *)

Module AggregatorMore.

Import Aggregator AggregatorFacts Book.

Section SortedMore.

Context {T : Type}.
Variable key : T -> Q.

Lemma with_key_sorted (k : Q) (l : list T) :
  with_key key k (sorted key l) = with_key key k l.
Proof.
  unfold with_key. apply sorted_stable. intros x y Hx Hy.
  apply Qeq_bool_iff in Hx, Hy. now rewrite Hx, Hy.
Qed.

Lemma with_key_app (k : Q) (l1 l2 : list T) :
  with_key key k (l1 ++ l2) = with_key key k l1 ++ with_key key k l2.
Proof. unfold with_key. apply filter_app. Qed.

(** A list in ascending order of key is left as it is. *)
Lemma sorted_of_sorted (l : list T) :
  StronglySorted (ascending key) l -> sorted key l = l.
Proof.
  intros Hs. symmetry. apply sorted_unique; [exact Hs | reflexivity].
Qed.

(** Sorting a sorted list followed by more elements is sorting the whole. *)
Lemma sorted_app_sorted (l1 l2 : list T) :
  sorted key (sorted key l1 ++ l2) = sorted key (l1 ++ l2).
Proof.
  apply sorted_unique; [apply sorted_sorted |].
  intros k. rewrite with_key_sorted, !with_key_app, with_key_sorted.
  reflexivity.
Qed.

Lemma no_ties_class (k : Q) (l : list T) :
  no_ties key l -> (length (with_key key k l) <= 1)%nat.
Proof.
  induction 1 as [| x l Hx _ IH]; simpl; [lia |].
  destruct (Qeq_bool (key x) k) eqn:E; [| exact IH].
  apply Qeq_bool_iff in E.
  assert (Hnone : with_key key k l = []).
  { clear IH. induction l as [| y l IHl]; [reflexivity |].
    inversion Hx as [| ? ? Hy Hl]; subst.
    rewrite with_key_cons.
    destruct (Qeq_bool (key y) k) eqn:Ey; [| apply IHl, Hl].
    apply Qeq_bool_iff in Ey. exfalso. apply Hy. now rewrite E, Ey. }
  fold (with_key key k l). rewrite Hnone. simpl. lia.
Qed.

Lemma with_key_perm (k : Q) (l l' : list T) :
  Permutation l l' -> Permutation (with_key key k l) (with_key key k l').
Proof.
  unfold with_key.
  induction 1 as [| x l l' _ IH | x y l | l l' l'' _ IH1 _ IH2]; simpl.
  - apply perm_nil.
  - destruct (Qeq_bool (key x) k); [apply perm_skip |]; exact IH.
  - destruct (Qeq_bool (key x) k); destruct (Qeq_bool (key y) k);
      try apply Permutation_refl. apply perm_swap.
  - eapply perm_trans; eassumption.
Qed.

(** Without ties the order in which the elements arrive does not show in
    the result. *)
Lemma sorted_perm_no_ties (l l' : list T) :
  Permutation l l' -> no_ties key l -> sorted key l = sorted key l'.
Proof.
  intros Hp Hn.
  apply sorted_classes_eq with (key := key); try apply sorted_sorted.
  intros k. rewrite !with_key_sorted.
  pose proof (with_key_perm k l l' Hp) as Hk.
  pose proof (no_ties_class k l Hn) as Hlen.
  destruct (with_key key k l) as [| x [| y rest]]; simpl in Hlen.
  - now apply Permutation_nil in Hk.
  - now apply Permutation_length_1_inv in Hk.
  - lia.
Qed.

End SortedMore.

Lemma no_ties_negated (l : list level) :
  distinct_prices l -> no_ties (fun x => - fst x) l.
Proof.
  unfold distinct_prices, no_ties.
  induction 1 as [| x l Hx _ IH]; constructor; [| exact IH].
  eapply Forall_impl; [| exact Hx].
  unfold price. intros y Hy Heq. apply Hy. lra.
Qed.

Lemma descending_of_non_increasing (l : list level) :
  non_increasing l -> StronglySorted (ascending (fun x => - fst x)) l.
Proof.
  apply StronglySorted_weaken. unfold ascending, price. intros x y H. lra.
Qed.

Lemma descending_to_non_increasing (l : list level) :
  StronglySorted (ascending (fun x => - fst x)) l -> non_increasing l.
Proof.
  apply StronglySorted_weaken. unfold ascending, price. intros x y H. lra.
Qed.

Lemma total_size_perm (l l' : list level) :
  Permutation l l' -> total_size l == total_size l'.
Proof.
  induction 1 as [| x l l' _ IH | x y l | l l' l'' _ IH1 _ IH2]; simpl; lra.
Qed.

Lemma concat_perm {T : Type} (ls ls' : list (list T)) :
  Permutation ls ls' -> Permutation (concat ls) (concat ls').
Proof.
  induction 1 as [| x l l' _ IH | x y l | l l' l'' _ IH1 _ IH2]; simpl.
  - apply perm_nil.
  - apply Permutation_app_head, IH.
  - rewrite !app_assoc. apply Permutation_app_tail, Permutation_app_comm.
  - eapply perm_trans; eassumption.
Qed.

(** X8.  Books that are already in order pass through unchanged.  If one
    venue's bids are non-increasing in price and its asks non-decreasing,
    [aggregate_orderbooks] returns them as they are; so aggregating an
    aggregated book again changes nothing. *)
Theorem ordered_book_unchanged (bids asks : list level) :
  non_increasing bids -> non_decreasing asks ->
  aggregate_orderbooks [bids] [asks] = (bids, asks) /\
  (forall bid_lists ask_lists,
      aggregate_orderbooks
        [fst (aggregate_orderbooks bid_lists ask_lists)]
        [snd (aggregate_orderbooks bid_lists ask_lists)]
      = aggregate_orderbooks bid_lists ask_lists).
Proof.
  intros Hb Ha. split.
  - unfold aggregate_orderbooks, flatten; cbn [concat]. rewrite !app_nil_r.
    apply pair_equal_spec; split; apply sorted_of_sorted;
      [apply descending_of_non_increasing, Hb | exact Ha].
  - intros bid_lists ask_lists.
    unfold aggregate_orderbooks, flatten; cbn [concat fst snd].
    rewrite !app_nil_r.
    apply pair_equal_spec; split; apply sorted_of_sorted; apply sorted_sorted.
Qed.

Lemma ordered_book_unchanged_witness :
  aggregate_orderbooks [[(100, 2); (100, 1); (99, 4)]] [[(101, 1); (103, 2)]]
  = ([(100, 2); (100, 1); (99, 4)], [(101, 1); (103, 2)]).
Proof.
  apply (ordered_book_unchanged [(100, 2); (100, 1); (99, 4)] [(101, 1); (103, 2)]);
    repeat first [apply SSorted_nil | apply SSorted_cons
                 | apply Forall_nil | apply Forall_cons];
    unfold price; simpl; discriminate.
Defined.

(** X9.  Venues can be added to an aggregated book.  Aggregating the
    result of an earlier aggregation followed by further venues gives the
    book that aggregating all the venues at once gives. *)
Theorem aggregate_incrementally
    (bid_lists ask_lists more_bids more_asks : list (list level)) :
  aggregate_orderbooks
    (fst (aggregate_orderbooks bid_lists ask_lists) :: more_bids)
    (snd (aggregate_orderbooks bid_lists ask_lists) :: more_asks)
  = aggregate_orderbooks (bid_lists ++ more_bids) (ask_lists ++ more_asks).
Proof.
  unfold aggregate_orderbooks, flatten; cbn [concat fst snd].
  rewrite !concat_app. apply pair_equal_spec; split; apply sorted_app_sorted.
Qed.

(** X10.  Without ties the order of the venues does not matter.  If no
    two bids of the venues stand at the same price, and no two asks, then
    listing the venues in another order gives the same aggregated book. *)
Theorem venue_order_irrelevant
    (bid_lists bid_lists' ask_lists ask_lists' : list (list level)) :
  Permutation bid_lists bid_lists' -> Permutation ask_lists ask_lists' ->
  distinct_prices (concat bid_lists) -> distinct_prices (concat ask_lists) ->
  aggregate_orderbooks bid_lists ask_lists
  = aggregate_orderbooks bid_lists' ask_lists'.
Proof.
  intros Pb Pa Db Da. unfold aggregate_orderbooks, flatten.
  apply pair_equal_spec; split.
  - apply sorted_perm_no_ties; [apply concat_perm, Pb | apply no_ties_negated, Db].
  - apply sorted_perm_no_ties; [apply concat_perm, Pa | exact Da].
Qed.

Lemma venue_order_irrelevant_witness :
  aggregate_orderbooks [[(99, 1); (98, 2)]; [(100, 2)]] [[(101, 1)]; [(102, 3)]]
  = aggregate_orderbooks [[(100, 2)]; [(99, 1); (98, 2)]] [[(102, 3)]; [(101, 1)]].
Proof.
  apply venue_order_irrelevant.
  - apply perm_swap.
  - apply perm_swap.
  - repeat first [apply FOP_nil | apply FOP_cons | apply Forall_nil | apply Forall_cons];
      unfold price; simpl; discriminate.
  - repeat first [apply FOP_nil | apply FOP_cons | apply Forall_nil | apply Forall_cons];
      unfold price; simpl; discriminate.
Defined.

(** X11.  The best prices come first.  The first bid of the aggregated
    book is at a price no bid of any venue exceeds, and the first ask at
    a price no ask of any venue is below; a side of the aggregated book
    is empty only if every venue's list for that side is empty. *)
Theorem best_prices_first (bid_lists ask_lists : list (list level)) :
  (forall best rest x,
      fst (aggregate_orderbooks bid_lists ask_lists) = best :: rest ->
      In x (concat bid_lists) -> price x <= price best) /\
  (forall best rest x,
      snd (aggregate_orderbooks bid_lists ask_lists) = best :: rest ->
      In x (concat ask_lists) -> price best <= price x) /\
  (fst (aggregate_orderbooks bid_lists ask_lists) = [] ->
     Forall (fun l => l = []) bid_lists) /\
  (snd (aggregate_orderbooks bid_lists ask_lists) = [] ->
     Forall (fun l => l = []) ask_lists).
Proof.
  assert (Sb : non_increasing (fst (aggregate_orderbooks bid_lists ask_lists)))
    by apply descending_to_non_increasing, sorted_sorted.
  assert (Sa : non_decreasing (snd (aggregate_orderbooks bid_lists ask_lists)))
    by apply (sorted_sorted (fun x : level => fst x)).
  assert (Pb : Permutation (concat bid_lists)
                 (fst (aggregate_orderbooks bid_lists ask_lists)))
    by apply sorted_perm.
  assert (Pa : Permutation (concat ask_lists)
                 (snd (aggregate_orderbooks bid_lists ask_lists)))
    by apply sorted_perm.
  assert (Hempty : forall ls : list (list level),
             concat ls = [] -> Forall (fun l => l = []) ls).
  { induction ls as [| l ls IH]; simpl; intros H; constructor.
    - now destruct l.
    - apply IH. destruct l; [exact H | discriminate]. }
  split; [| split; [| split]].
  - intros best rest x Hagg Hx. rewrite Hagg in Sb, Pb.
    apply (Permutation_in _ Pb) in Hx.
    inversion Sb as [| ? ? _ Hall]; subst.
    destruct Hx as [Hx | Hx]; [subst; apply Qle_refl |].
    rewrite Forall_forall in Hall. exact (Hall x Hx).
  - intros best rest x Hagg Hx. rewrite Hagg in Sa, Pa.
    apply (Permutation_in _ Pa) in Hx.
    inversion Sa as [| ? ? _ Hall]; subst.
    destruct Hx as [Hx | Hx]; [subst; apply Qle_refl |].
    rewrite Forall_forall in Hall. exact (Hall x Hx).
  - intros Hagg. rewrite Hagg in Pb. apply Hempty.
    apply Permutation_nil. now apply Permutation_sym.
  - intros Hagg. rewrite Hagg in Pa. apply Hempty.
    apply Permutation_nil. now apply Permutation_sym.
Qed.

Lemma best_prices_first_witness :
  price (99, 1) <= price (100, 2) /\ price (101, 1) <= price (102, 3).
Proof.
  destruct (best_prices_first [[(99, 1); (98, 2)]; [(100, 2)]]
                              [[(102, 3)]; [(101, 1)]]) as (Hb & Ha & _ & _).
  split.
  - apply (Hb (100, 2) [(99, 1); (98, 2)] (99, 1)); [reflexivity | now left].
  - apply (Ha (101, 1) [(102, 3)] (102, 3)); [reflexivity | now left].
Defined.

End AggregatorMore.

(** ** More on the rate limiter *)

Module RateLimiterMore.

Import RateLimiter RateLimiterFacts.

Section Spacing.

Context {A V E U : Type}.
Variable min_interval : Q.
Variable func : A -> U -> outcome E (option V) * U.

(** What [observe] records, with the state the call leaves. *)
Lemma observe_state (args : A) (now : Q) (w : world V U) :
  (within_interval min_interval now (st w) = true /\
   observe min_interval func args now w
   = (mkCall false (Returns (result (st w))), w)) \/
  (within_interval min_interval now (st w) = false /\
   exists r w',
     observe min_interval func args now w = (mkCall true r, w') /\
     fst (func args (upstream w)) = r /\
     invocations w' = S (invocations w) /\
     match r with
     | Returns x => st w' = mkState now x
     | Raises _ => st w' = st w
     end).
Proof.
  unfold RateLimiter.observe.
  destruct (wrapper_cases min_interval func args now w)
    as [[Hc Hw] | [[Hc (e & u & Hf & Hw)] | [Hc (x & u & Hf & Hw)]]];
    rewrite Hw; cbn -[Nat.eqb].
  - left. rewrite Nat.eqb_refl. split; [exact Hc | reflexivity].
  - right. split; [exact Hc |].
    exists (Raises e), (mkWorld (st w) u (S (invocations w))).
    assert (En : (S (invocations w) =? invocations w)%nat = false)
      by (apply Nat.eqb_neq; lia).
    rewrite En, Hf. repeat split.
  - right. split; [exact Hc |].
    exists (Returns x), (mkWorld (mkState now x) u (S (invocations w))).
    assert (En : (S (invocations w) =? invocations w)%nat = false)
      by (apply Nat.eqb_neq; lia).
    rewrite En, Hf. repeat split.
Qed.

Hypothesis never_None : forall args u, fst (func args u) <> Returns None.

(** While the closure holds a result and the clock does not run
    backwards, a call that invokes the wrapped function reads the clock
    at least [min_interval] after any instant [b] not later than the
    stored timestamp. *)
Lemma invoked_after_interval (calls : list (A * Q)) :
  forall (w : world V U) (b : Q) (k : nat) (ck : call V E) (argsk : A) (nowk : Q),
    is_not_None (result (st w)) = true ->
    b <= t (st w) ->
    Forall (fun c => t (st w) <= snd c) calls ->
    StronglySorted Qle (map snd calls) ->
    nth_error (fst (session min_interval func calls w)) k = Some ck ->
    invoked ck = true ->
    nth_error calls k = Some (argsk, nowk) ->
    min_interval <= nowk - b.
Proof.
  induction calls as [| [args now] rest IH];
    intros w b k ck argsk nowk Hres Hb Hafter Hclock Hk Hinv Hcall.
  - destruct k; discriminate.
  - inversion Hafter as [| ? ? Hnow Hrest]; subst.
    inversion Hclock as [| ? ? Hclock' Hlater]; subst.
    simpl in Hnow. cbn [session] in Hk.
    destruct (observe_state args now w)
      as [[Hc Ho] | [Hc (r & w' & Ho & Hf & _ & Hst)]]; rewrite Ho in Hk.
    + destruct (session min_interval func rest w) as [cs w''] eqn:Es.
      destruct k as [| k]; cbn [fst nth_error] in Hk, Hcall.
      * inversion Hk; subst ck. discriminate.
      * apply (IH w b k ck argsk nowk); try assumption.
        rewrite Es. exact Hk.
    + destruct (session min_interval func rest w') as [cs w''] eqn:Es.
      assert (Hlate : min_interval <= now - t (st w)).
      { unfold within_interval in Hc. rewrite Hres, andb_true_r in Hc.
        now apply Qlt_bool_false_iff in Hc. }
      destruct k as [| k]; cbn [fst nth_error] in Hk, Hcall.
      * inversion Hcall; subst. lra.
      * destruct r as [x | e].
        -- assert (Hx : is_not_None x = true).
           { destruct x; [reflexivity |]. exfalso.
             apply (never_None args (upstream w)). exact Hf. }
           apply (IH w' b k ck argsk nowk); try assumption.
           ++ rewrite Hst. exact Hx.
           ++ rewrite Hst. simpl. lra.
           ++ rewrite Hst. simpl. rewrite Forall_map in Hlater. exact Hlater.
           ++ rewrite Es. exact Hk.
        -- apply (IH w' b k ck argsk nowk); try assumption.
           ++ now rewrite Hst.
           ++ now rewrite Hst.
           ++ now rewrite Hst.
           ++ rewrite Es. exact Hk.
Qed.

(** X12.  The rate limit.  Take a wrapped function that never returns
    [None] and a single-threaded caller whose clock readings never
    decrease.  If one call invoked the wrapped function and the function
    returned, then every later call that invokes the wrapped function
    reads the clock at least [min_interval] after the first one did. *)
Theorem fetches_are_spaced (calls : list (A * Q)) :
  forall (w : world V U) (j k : nat) (cj ck : call V E)
         (argsj argsk : A) (nowj nowk : Q) (x : option V),
    StronglySorted Qle (map snd calls) ->
    (j < k)%nat ->
    nth_error (fst (session min_interval func calls w)) j = Some cj ->
    invoked cj = true -> ended cj = Returns x ->
    nth_error (fst (session min_interval func calls w)) k = Some ck ->
    invoked ck = true ->
    nth_error calls j = Some (argsj, nowj) ->
    nth_error calls k = Some (argsk, nowk) ->
    min_interval <= nowk - nowj.
Proof.
  induction calls as [| [args now] rest IH];
    intros w j k cj ck argsj argsk nowj nowk x
           Hclock Hjk Hj Hinvj Hendj Hk Hinvk Hcj Hck.
  - destruct j; discriminate.
  - inversion Hclock as [| ? ? Hclock' Hlater]; subst.
    rewrite Forall_map in Hlater.
    destruct k as [| k]; [lia |].
    cbn [session] in Hj, Hk.
    destruct (observe_state args now w)
      as [[Hc Ho] | [Hc (r & w' & Ho & Hf & _ & Hst)]];
      rewrite Ho in Hj, Hk.
    + destruct (session min_interval func rest w) as [cs w''] eqn:Es.
      cbn [fst nth_error] in Hj, Hk, Hck.
      destruct j as [| j]; cbn [nth_error] in Hj, Hcj.
      * inversion Hj; subst cj. discriminate.
      * apply (IH w j k cj ck argsj argsk nowj nowk x); try assumption;
          try lia; rewrite Es; assumption.
    + destruct (session min_interval func rest w') as [cs w''] eqn:Es.
      cbn [fst nth_error] in Hj, Hk, Hck.
      destruct j as [| j]; cbn [nth_error] in Hj, Hcj.
      * inversion Hj; subst cj. inversion Hcj; subst args now.
        simpl in Hendj. rewrite Hendj in Hf, Hst.
        assert (Hx : is_not_None x = true).
        { destruct x; [reflexivity |]. exfalso.
          apply (never_None argsj (upstream w)). exact Hf. }
        apply (invoked_after_interval rest w' nowj k ck argsk nowk);
          try assumption.
        -- rewrite Hst. exact Hx.
        -- rewrite Hst. simpl. apply Qle_refl.
        -- rewrite Hst. simpl. exact Hlater.
        -- rewrite Es. exact Hk.
      * apply (IH w' j k cj ck argsj argsk nowj nowk x); try assumption;
          try lia; rewrite Es; assumption.
Qed.

End Spacing.

Section Failing.

Context {A V E U : Type}.
Variable min_interval : Q.
Variable func : A -> U -> outcome E (option V) * U.

Hypothesis always_raises : forall args u, exists e, fst (func args u) = Raises e.

Lemma session_of_failures (calls : list (A * Q)) (w : world V U) :
  result (st w) = None ->
  Forall (fun c => invoked c = true /\ exists e, ended c = Raises e)
         (fst (session min_interval func calls w)) /\
  invocations (snd (session min_interval func calls w))
  = (invocations w + length calls)%nat /\
  st (snd (session min_interval func calls w)) = st w.
Proof.
  revert w. induction calls as [| [args now] rest IH]; intros w Hnone.
  - simpl. split; [constructor | split; [lia | reflexivity]].
  - cbn [session].
    destruct (observe_state min_interval func args now w)
      as [[Hc _] | [_ (r & w' & Ho & Hf & Hn & Hst)]].
    + unfold within_interval in Hc. rewrite Hnone in Hc.
      destruct (Qlt_bool (now - t (st w)) min_interval); discriminate.
    + rewrite Ho.
      destruct (always_raises args (upstream w)) as [e He].
      subst r. rewrite He in Hst |- *.
      assert (Hnone' : result (st w') = None) by now rewrite Hst.
      destruct (IH w' Hnone') as (IH1 & IH2 & IH3).
      destruct (session min_interval func rest w') as [cs w''].
      cbn [fst snd length] in *.
      split; [constructor; [split; [reflexivity | now exists e] | exact IH1] |].
      split; [lia | congruence].
Qed.

(** X13.  Failures are not throttled and not remembered.  On a freshly
    decorated function that raises whenever it is invoked, every call of
    a run invokes the function and raises, however close the clock
    readings are; the function has been invoked once per call, and the
    closure still holds no result. *)
Theorem failures_not_throttled (calls : list (A * Q)) (u : U) :
  Forall (fun c => invoked c = true /\ exists e, ended c = Raises e)
         (fst (session min_interval func calls (start u))) /\
  invocations (snd (session min_interval func calls (start u))) = length calls /\
  result (st (snd (session min_interval func calls (start u)))) = None.
Proof.
  destruct (session_of_failures calls (start u) eq_refl) as (H1 & H2 & H3).
  split; [exact H1 | split; [exact H2 | now rewrite H3]].
Qed.

End Failing.

Lemma numbered_fetch_never_None (args : unit) (u : nat) :
  fst (numbered_fetch args u) <> Returns None.
Proof. discriminate. Qed.

Lemma failing_fetch_always_raises (args : unit) (u : nat) :
  exists e, fst (failing_fetch args u) = Raises e.
Proof. now exists "timeout"%string. Qed.

Lemma fetches_are_spaced_witness : 2 <= 13 - 10.
Proof.
  apply (fetches_are_spaced 2 numbered_fetch numbered_fetch_never_None
           [(tt, 10); (tt, 11); (tt, 13)] (start 0%nat) 0%nat 2%nat
           (mkCall true (Returns (Some 0%nat)))
           (mkCall true (Returns (Some 1%nat)))
           tt tt 10 13 (Some 0%nat)).
  - repeat first [apply SSorted_nil | apply SSorted_cons
                 | apply Forall_nil | apply Forall_cons]; discriminate.
  - lia.
  - reflexivity.
  - reflexivity.
  - reflexivity.
  - reflexivity.
  - reflexivity.
  - reflexivity.
  - reflexivity.
Defined.

Lemma failures_not_throttled_witness :
  Forall (fun c : call nat string =>
            invoked c = true /\ exists e, ended c = Raises e)
         (fst (session 2 failing_fetch [(tt, 10); (tt, 10); (tt, 11)] (start 0%nat))) /\
  invocations (snd (session 2 failing_fetch [(tt, 10); (tt, 10); (tt, 11)] (start 0%nat)))
    = 3%nat /\
  result (st (snd (session 2 failing_fetch [(tt, 10); (tt, 10); (tt, 11)] (start 0%nat))))
    = None.
Proof.
  apply (failures_not_throttled 2 failing_fetch failing_fetch_always_raises
           [(tt, 10); (tt, 10); (tt, 11)] 0%nat).
Defined.

Lemma threads_witness :
  exists v m j,
    Some 0%nat = Some v /\ (m < 5)%nat /\
    nth_error
      (fst (run 2 numbered_fetch (boot 0%nat)
              [Begin 0 tt 10; Go 0; Go 0; Go 0; Begin 1 tt 11; Go 1]))
      m
    = Some (Invoked j (Returns (Some v))).
Proof.
  apply (threads_cached_value_was_fetched 2 numbered_fetch
           [Begin 0 tt 10; Go 0; Go 0; Go 0; Begin 1 tt 11; Go 1]
           0%nat 5%nat 1%nat (Some 0%nat)).
  reflexivity.
Defined.

End RateLimiterMore.

(** ** The venue adapters *)

Module FetchersFacts.

Import Fetchers.

Section VenuesFacts.

Context {pyobj E U : Type}.
Variable get_json : string -> U -> outcome E pyobj * U.
Variable getitem : pyobj -> string -> outcome E pyobj.
Variable iterate : pyobj -> outcome E (list pyobj).
Variable float : pyobj -> outcome E Q.
Variable unpack_error : nat -> E.

Lemma bind_returns {S T : Type} (c : outcome E S) (k : S -> outcome E T) (y : T) :
  bind c k = Returns y <-> exists x, c = Returns x /\ k x = Returns y.
Proof.
  destruct c as [x | e]; simpl; split.
  - intros H. now exists x.
  - intros (x' & Hx & Hk). now inversion Hx; subst.
  - discriminate.
  - intros (x' & Hx & _). discriminate.
Qed.

(** A comprehension returns exactly when its expression returns for
    every element, and then it keeps their number and their order. *)
Lemma comprehension_returns (f : pyobj -> outcome E level)
    (ok : pyobj -> level -> Prop) :
  (forall x y, f x = Returns y <-> ok x y) ->
  forall xs ys, comprehension f xs = Returns ys <-> Forall2 ok xs ys.
Proof.
  intros Hf. induction xs as [| x rest IH]; intros ys; simpl.
  - split.
    + intros H. inversion H; subst. constructor.
    + intros H. inversion H; subst. reflexivity.
  - rewrite bind_returns. split.
    + intros (y & Hy & H). apply bind_returns in H.
      destruct H as (ys' & Hys & H). inversion H; subst.
      constructor; [now apply Hf | now apply IH].
    + intros H. inversion H as [| ? y ? ys' Hy Hys]; subst.
      exists y. split; [now apply Hf |].
      apply bind_returns. exists ys'. split; [now apply IH | reflexivity].
Qed.

Lemma coinbase_level_returns (entry : pyobj) (x : level) :
  coinbase_level iterate float unpack_error entry = Returns x
  <-> coinbase_entry_ok iterate float entry x.
Proof.
  unfold coinbase_level, coinbase_entry_ok. rewrite bind_returns. split.
  - intros (items & Hit & H).
    destruct items as [| price [| size [| other [| ? ?]]]]; try discriminate.
    apply bind_returns in H. destruct H as (p & Hp & H).
    apply bind_returns in H. destruct H as (s0 & Hs & H).
    inversion H; subst. now exists price, size, other.
  - intros (price & size & other & Hit & Hp & Hs).
    exists [price; size; other]. split; [exact Hit |].
    rewrite Hp; simpl. rewrite Hs; simpl. now destruct x.
Qed.

Lemma gemini_level_returns (entry : pyobj) (x : level) :
  gemini_level getitem float entry = Returns x
  <-> gemini_entry_ok getitem float entry x.
Proof.
  unfold gemini_level, gemini_entry_ok. rewrite bind_returns. split.
  - intros (price & Hg & H).
    apply bind_returns in H. destruct H as (p & Hp & H).
    apply bind_returns in H. destruct H as (amount & Ha & H).
    apply bind_returns in H. destruct H as (a & Hfa & H).
    inversion H; subst. now exists price, amount.
  - intros (price & amount & Hg & Hp & Ha & Hfa).
    exists price. split; [exact Hg |].
    rewrite Hp; simpl. rewrite Ha; simpl. rewrite Hfa; simpl. now destruct x.
Qed.

Lemma side_returns (per_entry : pyobj -> outcome E level)
    (ok : pyobj -> level -> Prop) (data : pyobj) (key : string)
    (levels : list level) :
  (forall x y, per_entry x = Returns y <-> ok x y) ->
  side getitem iterate per_entry data key = Returns levels
  <-> side_ok getitem iterate ok data key levels.
Proof.
  intros Hf. unfold side, side_ok. rewrite bind_returns. split.
  - intros (entries & Hg & H). apply bind_returns in H.
    destruct H as (items & Hit & H).
    exists entries, items. repeat split; try assumption.
    now apply (comprehension_returns per_entry ok Hf).
  - intros (entries & items & Hg & Hit & H).
    exists entries. split; [exact Hg |].
    apply bind_returns. exists items. split; [exact Hit |].
    now apply (comprehension_returns per_entry ok Hf).
Qed.

(** X14.  All or nothing from Coinbase.  [fetch_coinbase_orderbook]
    returns [bids, asks] exactly when the request returns [data], and
    [data['bids']] and [data['asks']] can be read and iterated, and every
    entry of both unpacks into exactly three items of which the first two
    convert with [float].  Then the levels are the entries, as many and
    in the same order, each with the converted price and size; the third
    item is not converted.  In every case the function makes the one
    request and nothing else to the network. *)
Theorem fetch_coinbase_returns_iff (u : U) (bids asks : list level) :
  (fst (fetch_coinbase_orderbook get_json getitem iterate float unpack_error u)
     = Returns (bids, asks)
   <-> exists data,
         fst (get_json coinbase_url u) = Returns data /\
         side_ok getitem iterate (coinbase_entry_ok iterate float) data "bids" bids /\
         side_ok getitem iterate (coinbase_entry_ok iterate float) data "asks" asks) /\
  snd (fetch_coinbase_orderbook get_json getitem iterate float unpack_error u)
    = snd (get_json coinbase_url u).
Proof.
  unfold fetch_coinbase_orderbook.
  destruct (get_json coinbase_url u) as [response u']; simpl.
  split; [| reflexivity].
  rewrite bind_returns. split.
  - intros (data & Hd & H). apply bind_returns in H.
    destruct H as (bids' & Hb & H). apply bind_returns in H.
    destruct H as (asks' & Ha & H). inversion H; subst bids' asks'.
    exists data. split; [exact Hd |].
    split; apply (side_returns _ _ _ _ _ coinbase_level_returns); assumption.
  - intros (data & Hd & Hb & Ha). exists data. split; [exact Hd |].
    apply (side_returns _ _ _ _ _ coinbase_level_returns) in Hb, Ha.
    rewrite Hb; simpl. rewrite Ha; simpl. reflexivity.
Qed.

(** X15.  All or nothing from Gemini.  [fetch_gemini_orderbook] returns
    [bids, asks] exactly when the request returns [data], and
    [data['bids']] and [data['asks']] can be read and iterated, and every
    entry of both has a ['price'] and an ['amount'] that convert with
    [float].  Then the levels are the entries, as many and in the same
    order.  In every case the function makes the one request and nothing
    else to the network. *)
Theorem fetch_gemini_returns_iff (u : U) (bids asks : list level) :
  (fst (fetch_gemini_orderbook get_json getitem iterate float u)
     = Returns (bids, asks)
   <-> exists data,
         fst (get_json gemini_url u) = Returns data /\
         side_ok getitem iterate (gemini_entry_ok getitem float) data "bids" bids /\
         side_ok getitem iterate (gemini_entry_ok getitem float) data "asks" asks) /\
  snd (fetch_gemini_orderbook get_json getitem iterate float u)
    = snd (get_json gemini_url u).
Proof.
  unfold fetch_gemini_orderbook.
  destruct (get_json gemini_url u) as [response u']; simpl.
  split; [| reflexivity].
  rewrite bind_returns. split.
  - intros (data & Hd & H). apply bind_returns in H.
    destruct H as (bids' & Hb & H). apply bind_returns in H.
    destruct H as (asks' & Ha & H). inversion H; subst bids' asks'.
    exists data. split; [exact Hd |].
    split; apply (side_returns _ _ _ _ _ gemini_level_returns); assumption.
  - intros (data & Hd & Hb & Ha). exists data. split; [exact Hd |].
    apply (side_returns _ _ _ _ _ gemini_level_returns) in Hb, Ha.
    rewrite Hb; simpl. rewrite Ha; simpl. reflexivity.
Qed.

End VenuesFacts.

End FetchersFacts.

(** ** The driver *)

Module DriverFacts.

Import Walker Aggregator RateLimiter Fills Driver.
Import WalkerFacts WalkerMore AggregatorFacts AggregatorMore.

(** A walk for a quantity > 0 over sizes >= 0 that rounds no subtraction
    is decided by the total size. *)
Lemma walk_decided (levels : list level) (qty : Q) :
  sizes_nonneg levels -> 0 < qty -> exact_remaining levels qty ->
  (qty <= total_size levels /\
   compute_buy_cost levels qty = Returns (fst (buy_loop levels 0 qty)) /\
   compute_sell_revenue levels qty = Returns (fst (buy_loop levels 0 qty))) \/
  (total_size levels < qty /\
   compute_buy_cost levels qty
   = Raises (ValueError "Insufficient liquidity to buy the requested quantity.") /\
   compute_sell_revenue levels qty
   = Raises (ValueError "Insufficient liquidity to sell the requested quantity.")).
Proof.
  intros Hs Hq Hex.
  destruct (Qlt_le_dec (total_size levels) qty) as [Hlt | Hle].
  - right. split; [exact Hlt |].
    pose proof (buy_loop_short levels 0 qty Hex Hs Hlt) as Hrem.
    destruct (compute_buy_cost_cases levels qty)
      as [(_ & Eb & Es) | (Hr & _)]; [split; assumption | lra].
  - left. split; [exact Hle |].
    pose proof (buy_loop_filled levels 0 qty Hex Hq Hle) as Hdone.
    destruct (compute_buy_cost_cases levels qty)
      as [(Hr & _) | (_ & Eb & Es)]; [lra | split; assumption].
Qed.

Lemma or_else_empty (a b : list level) :
  is_empty (or_else a b) = true <-> a ++ b = [].
Proof.
  destruct a as [| x a]; simpl; [| split; discriminate].
  destruct b; simpl; split; try reflexivity; discriminate.
Qed.

Lemma or_else_not_empty (a b : list level) :
  is_empty (or_else a b) = false <-> a ++ b <> [].
Proof.
  rewrite <- or_else_empty. destruct (is_empty (or_else a b)); split;
    congruence.
Qed.

(** The aggregated side of two venues has the levels of both. *)
Lemma two_venues_side (key : level -> Q) (a b : list level) :
  Permutation (a ++ b) (sorted key (concat [a; b])).
Proof.
  cbn [concat]. rewrite app_nil_r. apply sorted_perm.
Qed.

Lemma total_size_app (a b : list level) :
  total_size (a ++ b) == total_size a + total_size b.
Proof. induction a as [| x a IH]; simpl; lra. Qed.

Section MainFacts.

Context {E U : Type}.
Variable fetch_coinbase_orderbook : U -> outcome E book * U.
Variable fetch_gemini_orderbook : U -> outcome E book * U.

(** The notices of the two fetches. *)
Lemma notices_are_failures (e1 e2 : option (caught E)) :
  Forall (fun l => is_failure l = true)
    ((match e1 with Some e => [FailedCoinbase e] | None => [] end ++
      match e2 with Some e => [FailedGemini e] | None => [] end)).
Proof.
  destruct e1, e2; simpl; repeat constructor.
Qed.

(** What [main] prints when both sides have a level. *)
Lemma main_priced
    (qty now1 now2 : Q) (p : process U) (e1 e2 : option (caught E))
    (cb ca gb ga : list level) (w1 w2 : world book U) :
  try_fetch fetch_coinbase_orderbook now1 (coinbase p) (net p) (fetches p)
    = (e1, (cb, ca), w1) ->
  try_fetch fetch_gemini_orderbook now2 (gemini p) (upstream w1) (invocations w1)
    = (e2, (gb, ga), w2) ->
  cb ++ gb <> [] -> ca ++ ga <> [] ->
  fst (main fetch_coinbase_orderbook fetch_gemini_orderbook qty now1 now2 p)
  = (match e1 with Some e => [FailedCoinbase e] | None => [] end ++
     match e2 with Some e => [FailedGemini e] | None => [] end) ++
    [ match compute_buy_cost (snd (aggregate_orderbooks [cb; gb] [ca; ga])) qty with
      | Returns buy_cost => ToBuy qty buy_cost
      | Raises e => BuyError e
      end;
      match compute_sell_revenue (fst (aggregate_orderbooks [cb; gb] [ca; ga])) qty with
      | Returns sell_revenue => ToSell qty sell_revenue
      | Raises e => SellError e
      end ].
Proof.
  intros H1 H2 Hb Ha.
  unfold main. rewrite H1, H2.
  apply or_else_not_empty in Hb, Ha. rewrite Hb, Ha.
  destruct (aggregate_orderbooks [cb; gb] [ca; ga]) as [all_bids all_asks].
  cbn [fst snd]. now rewrite app_assoc.
Qed.

(** The two aggregated sides of two venues. *)
Lemma two_venues_book (cb ca gb ga : list level) :
  Permutation (cb ++ gb) (fst (aggregate_orderbooks [cb; gb] [ca; ga])) /\
  Permutation (ca ++ ga) (snd (aggregate_orderbooks [cb; gb] [ca; ga])) /\
  non_increasing (fst (aggregate_orderbooks [cb; gb] [ca; ga])) /\
  non_decreasing (snd (aggregate_orderbooks [cb; gb] [ca; ga])).
Proof.
  split; [apply two_venues_side | split; [apply two_venues_side |]].
  split.
  - apply descending_to_non_increasing, sorted_sorted.
  - apply (sorted_sorted (fun x : level => fst x)).
Qed.

(** X16.  A price is printed exactly when the venues together cover the
    quantity.  When the two fetches leave at least one bid and at least
    one ask, sizes are >= 0, the quantity is > 0 and the walks of the
    aggregated asks and bids round no subtraction, [main] prints its
    failure notices, then one line for the buy and one for the sell.  The
    buy line gives a cost if the asks of both venues add up to the
    quantity at least, and the insufficient-liquidity error otherwise;
    the sell line likewise with the bids.  Neither line depends on the
    other side. *)
Theorem main_prices_iff_covered
    (qty now1 now2 : Q) (p : process U) (e1 e2 : option (caught E))
    (cb ca gb ga : list level) (w1 w2 : world book U) :
  try_fetch fetch_coinbase_orderbook now1 (coinbase p) (net p) (fetches p)
    = (e1, (cb, ca), w1) ->
  try_fetch fetch_gemini_orderbook now2 (gemini p) (upstream w1) (invocations w1)
    = (e2, (gb, ga), w2) ->
  cb ++ gb <> [] -> ca ++ ga <> [] ->
  sizes_nonneg (cb ++ gb) -> sizes_nonneg (ca ++ ga) -> 0 < qty ->
  exact_remaining (snd (aggregate_orderbooks [cb; gb] [ca; ga])) qty ->
  exact_remaining (fst (aggregate_orderbooks [cb; gb] [ca; ga])) qty ->
  exists notices buy sell,
    fst (main fetch_coinbase_orderbook fetch_gemini_orderbook qty now1 now2 p)
      = notices ++ [buy; sell] /\
    Forall (fun l => is_failure l = true) notices /\
    ((exists cost, buy = ToBuy qty cost)
       <-> qty <= total_size ca + total_size ga) /\
    (buy = BuyError
             (ValueError "Insufficient liquidity to buy the requested quantity.")
       <-> total_size ca + total_size ga < qty) /\
    ((exists revenue, sell = ToSell qty revenue)
       <-> qty <= total_size cb + total_size gb) /\
    (sell = SellError
              (ValueError "Insufficient liquidity to sell the requested quantity.")
       <-> total_size cb + total_size gb < qty).
Proof.
  intros H1 H2 Hb Ha Hsb Hsa Hq Hxa Hxb.
  rewrite (main_priced qty now1 now2 p e1 e2 cb ca gb ga w1 w2 H1 H2 Hb Ha).
  destruct (two_venues_book cb ca gb ga) as (Pb & Pa & _ & _).
  set (all_bids := fst (aggregate_orderbooks [cb; gb] [ca; ga])) in *.
  set (all_asks := snd (aggregate_orderbooks [cb; gb] [ca; ga])) in *.
  assert (Tb : total_size all_bids == total_size cb + total_size gb)
    by (rewrite <- (total_size_perm _ _ Pb); apply total_size_app).
  assert (Ta : total_size all_asks == total_size ca + total_size ga)
    by (rewrite <- (total_size_perm _ _ Pa); apply total_size_app).
  assert (Sb : sizes_nonneg all_bids)
    by (eapply Permutation_Forall; [exact Pb | exact Hsb]).
  assert (Sa : sizes_nonneg all_asks)
    by (eapply Permutation_Forall; [exact Pa | exact Hsa]).
  eexists _, _, _.
  split; [reflexivity |].
  split; [apply notices_are_failures |].
  destruct (walk_decided all_asks qty Sa Hq Hxa)
    as [(Hc & Hbuy & _) | (Hc & Hbuy & _)];
    rewrite Hbuy;
    destruct (walk_decided all_bids qty Sb Hq Hxb)
      as [(Hd & _ & Hsell) | (Hd & _ & Hsell)];
    rewrite Hsell.
  - split; [split; [intros _; lra | intros _; eexists; reflexivity] |].
    split; [split; [discriminate | intros; lra] |].
    split; [split; [intros _; lra | intros _; eexists; reflexivity] |].
    split; [discriminate | intros; lra].
  - split; [split; [intros _; lra | intros _; eexists; reflexivity] |].
    split; [split; [discriminate | intros; lra] |].
    split; [split; [intros [r Hr]; discriminate | intros; lra] |].
    split; [intros _; lra | reflexivity].
  - split; [split; [intros [c Hx]; discriminate | intros; lra] |].
    split; [split; [intros _; lra | reflexivity] |].
    split; [split; [intros _; lra | intros _; eexists; reflexivity] |].
    split; [discriminate | intros; lra].
  - split; [split; [intros [c Hx]; discriminate | intros; lra] |].
    split; [split; [intros _; lra | reflexivity] |].
    split; [split; [intros [r Hr]; discriminate | intros; lra] |].
    split; [intros _; lra | reflexivity].
Qed.

(** X17.  The prices printed are the best the two venues allow.  When
    the fetches leave at least one bid and one ask, the quantity is > 0
    and the walks of the aggregated asks and bids round no operation,
    then for every fill of the aggregated asks and every fill of the
    aggregated bids that add up to the quantity, [main] prints a cost
    that is at most the cost of the first and a revenue that is at least
    the revenue of the second. *)
Theorem main_prints_best_prices
    (qty now1 now2 : Q) (p : process U) (e1 e2 : option (caught E))
    (cb ca gb ga : list level) (w1 w2 : world book U) (xs ys : list Q) :
  try_fetch fetch_coinbase_orderbook now1 (coinbase p) (net p) (fetches p)
    = (e1, (cb, ca), w1) ->
  try_fetch fetch_gemini_orderbook now2 (gemini p) (upstream w1) (invocations w1)
    = (e2, (gb, ga), w2) ->
  cb ++ gb <> [] -> ca ++ ga <> [] -> 0 < qty ->
  feasible (snd (aggregate_orderbooks [cb; gb] [ca; ga])) xs -> amount xs == qty ->
  feasible (fst (aggregate_orderbooks [cb; gb] [ca; ga])) ys -> amount ys == qty ->
  exact_walk (snd (aggregate_orderbooks [cb; gb] [ca; ga])) 0 qty ->
  exact_walk (fst (aggregate_orderbooks [cb; gb] [ca; ga])) 0 qty ->
  exists notices cost revenue,
    fst (main fetch_coinbase_orderbook fetch_gemini_orderbook qty now1 now2 p)
      = notices ++ [ToBuy qty cost; ToSell qty revenue] /\
    Forall (fun l => is_failure l = true) notices /\
    cost <= notional (snd (aggregate_orderbooks [cb; gb] [ca; ga])) xs /\
    notional (fst (aggregate_orderbooks [cb; gb] [ca; ga])) ys <= revenue.
Proof.
  intros H1 H2 Hb Ha Hq Hfx Hax Hfy Hay Hxa Hxb.
  rewrite (main_priced qty now1 now2 p e1 e2 cb ca gb ga w1 w2 H1 H2 Hb Ha).
  destruct (two_venues_book cb ca gb ga) as (_ & _ & Sb & Sa).
  set (all_bids := fst (aggregate_orderbooks [cb; gb] [ca; ga])) in *.
  set (all_asks := snd (aggregate_orderbooks [cb; gb] [ca; ga])) in *.
  pose proof (exact_walk_remaining all_asks 0 qty Hxa) as Hra.
  pose proof (exact_walk_remaining all_bids 0 qty Hxb) as Hrb.
  pose proof (takes_cheapest all_asks qty xs Sa Hfx Hra Hq Hax) as Hbest.
  pose proof (takes_highest all_bids qty ys Sb Hfy Hrb Hq Hay) as Hhigh.
  pose proof (buy_loop_notional all_asks 0 qty Hxa) as Hna.
  pose proof (buy_loop_notional all_bids 0 qty Hxb) as Hnb.
  destruct (feasible_amount all_asks xs Hfx) as [_ Hlx].
  destruct (feasible_amount all_bids ys Hfy) as [_ Hly].
  assert (Hfa : qty <= total_size all_asks) by lra.
  assert (Hfb : qty <= total_size all_bids) by lra.
  pose proof (buy_loop_filled all_asks 0 qty Hra Hq Hfa) as Hda.
  pose proof (buy_loop_filled all_bids 0 qty Hrb Hq Hfb) as Hdb.
  destruct (compute_buy_cost_cases all_asks qty)
    as [(Hr & _) | (_ & Ebuy & _)]; [lra |].
  destruct (compute_buy_cost_cases all_bids qty)
    as [(Hr & _) | (_ & _ & Esell)]; [lra |].
  rewrite Ebuy, Esell.
  eexists _, _, _.
  split; [reflexivity |].
  split; [apply notices_are_failures |].
  split; lra.
Qed.

(** X18.  No price without both sides.  If the fetches leave no bid at
    all, [main] prints its failure notices and then that no bid data is
    available; if they leave bids but no ask, that no ask data is
    available.  In both cases it prints no buy line and no sell line,
    also when the side that is there could have been priced. *)
Theorem main_needs_both_sides
    (qty now1 now2 : Q) (p : process U) (e1 e2 : option (caught E))
    (cb ca gb ga : list level) (w1 w2 : world book U) :
  try_fetch fetch_coinbase_orderbook now1 (coinbase p) (net p) (fetches p)
    = (e1, (cb, ca), w1) ->
  try_fetch fetch_gemini_orderbook now2 (gemini p) (upstream w1) (invocations w1)
    = (e2, (gb, ga), w2) ->
  cb ++ gb = [] \/ ca ++ ga = [] ->
  exists notices last,
    fst (main fetch_coinbase_orderbook fetch_gemini_orderbook qty now1 now2 p)
      = notices ++ [last] /\
    Forall (fun l => is_failure l = true) notices /\
    (cb ++ gb = [] -> last = NoBidData) /\
    (cb ++ gb <> [] -> last = NoAskData) /\
    Forall (fun l => is_pricing l = false)
      (fst (main fetch_coinbase_orderbook fetch_gemini_orderbook qty now1 now2 p)).
Proof.
  intros H1 H2 Hside.
  unfold main. rewrite H1, H2.
  destruct (is_empty (or_else cb gb)) eqn:Eb.
  - apply or_else_empty in Eb. cbn [fst].
    eexists _, _. split; [rewrite app_assoc; reflexivity |].
    split; [apply notices_are_failures |].
    split; [reflexivity |]. split; [congruence |].
    destruct e1, e2; simpl; repeat constructor.
  - apply or_else_not_empty in Eb.
    destruct Hside as [Hside | Hside]; [congruence |].
    apply or_else_empty in Hside. rewrite Hside. cbn [fst].
    eexists _, _. split; [rewrite app_assoc; reflexivity |].
    split; [apply notices_are_failures |].
    split; [congruence |]. split; [reflexivity |].
    destruct e1, e2; simpl; repeat constructor.
Qed.

(** A call of a decorated adapter whose closure holds no result. *)
Lemma try_fetch_fresh (fetch : U -> outcome E book * U) (now : Q)
    (s : state book) (u u' : U) (n : nat) (r : outcome E book) :
  result s = None -> fetch u = (r, u') ->
  try_fetch fetch now s u n
  = match r with
    | Returns b => (None, b, mkWorld (mkState now (Some b)) u' (S n))
    | Raises e => (Some (Raised e), ([], []), mkWorld s u' (S n))
    end.
Proof.
  intros Hnone Hf. unfold try_fetch, wrapper, within_interval, as_func.
  cbn [st upstream invocations]. rewrite Hnone, Hf.
  destruct (Qlt_bool (now - t s) 2); destruct r as [[bids asks] | e]; reflexivity.
Qed.

(** X19.  A venue that fails is priced as a venue with an empty book.
    Take a run in which Coinbase's closure holds no result and its fetch
    raises, and the same run with an adapter that returns two empty lists
    instead and leaves the network in the same state.  The first prints
    the failure notice and then exactly what the second prints.  The same
    holds for Gemini, whose notice comes after Coinbase's. *)
Theorem failed_venue_is_empty_venue
    (quiet : U -> outcome E book * U)
    (qty now1 now2 : Q) (p : process U) (e : E) (u1 : U) :
  (result (coinbase p) = None ->
   fetch_coinbase_orderbook (net p) = (Raises e, u1) ->
   quiet (net p) = (Returns ([], []), u1) ->
   fst (main fetch_coinbase_orderbook fetch_gemini_orderbook qty now1 now2 p)
   = FailedCoinbase (Raised e)
       :: fst (main quiet fetch_gemini_orderbook qty now1 now2 p)) /\
  (forall e1 b1 w1,
      try_fetch fetch_coinbase_orderbook now1 (coinbase p) (net p) (fetches p)
        = (e1, b1, w1) ->
      result (gemini p) = None ->
      fetch_gemini_orderbook (upstream w1) = (Raises e, u1) ->
      quiet (upstream w1) = (Returns ([], []), u1) ->
      exists before after,
        fst (main fetch_coinbase_orderbook fetch_gemini_orderbook qty now1 now2 p)
          = before ++ FailedGemini (Raised e) :: after /\
        fst (main fetch_coinbase_orderbook quiet qty now1 now2 p)
          = before ++ after).
Proof.
  split.
  - intros Hnone Hf Hq. unfold main.
    rewrite (try_fetch_fresh _ now1 _ _ _ (fetches p) _ Hnone Hf).
    rewrite (try_fetch_fresh _ now1 _ _ _ (fetches p) _ Hnone Hq).
    cbn [upstream invocations].
    destruct (try_fetch fetch_gemini_orderbook now2 (gemini p) u1 (S (fetches p)))
      as [[e2 [gb ga]] w2].
    destruct (is_empty (or_else [] gb)); [reflexivity |].
    destruct (is_empty (or_else [] ga)); [reflexivity |].
    destruct (aggregate_orderbooks [[]; gb] [[]; ga]); reflexivity.
  - intros e1 [cb ca] w1 H1 Hnone Hf Hq. unfold main. rewrite H1.
    rewrite (try_fetch_fresh _ now2 _ _ _ (invocations w1) _ Hnone Hf).
    rewrite (try_fetch_fresh _ now2 _ _ _ (invocations w1) _ Hnone Hq).
    exists (match e1 with Some e0 => [FailedCoinbase e0] | None => [] end).
    destruct (is_empty (or_else cb [])); [eexists; split; reflexivity |].
    destruct (is_empty (or_else ca [])); [eexists; split; reflexivity |].
    destruct (aggregate_orderbooks [cb; []] [ca; []]).
    eexists; split; reflexivity.
Qed.

(** A fetch that is not reported as failed leaves its book in the
    closure. *)
Lemma try_fetch_stores (fetch : U -> outcome E book * U) (now : Q)
    (s : state book) (u : U) (n : nat) (b : book) (w : world book U) :
  try_fetch fetch now s u n = (None, b, w) -> result (st w) = Some b.
Proof.
  unfold try_fetch.
  destruct (RateLimiterFacts.wrapper_cases 2 (as_func fetch) tt now (mkWorld s u n))
    as [[_ Hw] | [[_ (e & u' & _ & Hw)] | [_ (x & u' & _ & Hw)]]];
    rewrite Hw; cbn [st result].
  - destruct (result s) as [b' |] eqn:R; intros H; inversion H; subst.
    cbn [st]. exact R.
  - discriminate.
  - destruct x as [b' |]; intros H; inversion H; subst; reflexivity.
Qed.

(** A call inside the interval of a closure that holds a book returns the
    book and changes nothing. *)
Lemma try_fetch_cached (fetch : U -> outcome E book * U) (now : Q)
    (s : state book) (u : U) (n : nat) (b : book) :
  result s = Some b -> now - t s < 2 ->
  try_fetch fetch now s u n = (None, b, mkWorld s u n).
Proof.
  intros Hres Hnow. unfold try_fetch, wrapper, within_interval.
  cbn [st]. rewrite Hres.
  assert (En : Qlt_bool (now - t s) 2 = true) by now apply Qlt_bool_iff.
  rewrite En. reflexivity.
Qed.

(** X20.  Running again inside the interval repeats the report without
    touching the network.  If a run of [main] reported no failed fetch,
    a second run whose two clock readings are less than 2 seconds after
    the stored timestamps of the two closures prints the same lines for
    the same quantity and leaves the closures, the network and the count
    of fetches as they are. *)
Theorem main_again_within_interval
    (qty now1 now2 later1 later2 : Q) (p p' : process U) (out : list (line E)) :
  main fetch_coinbase_orderbook fetch_gemini_orderbook qty now1 now2 p = (out, p') ->
  Forall (fun l => is_failure l = false) out ->
  later1 - t (coinbase p') < 2 -> later2 - t (gemini p') < 2 ->
  main fetch_coinbase_orderbook fetch_gemini_orderbook qty later1 later2 p'
  = (out, p').
Proof.
  intros Hrun Hok Hl1 Hl2. unfold main in Hrun.
  destruct (try_fetch fetch_coinbase_orderbook now1 (coinbase p) (net p) (fetches p))
    as [[e1 [cb ca]] w1] eqn:E1.
  destruct (try_fetch fetch_gemini_orderbook now2 (gemini p) (upstream w1)
              (invocations w1)) as [[e2 [gb ga]] w2] eqn:E2.
  assert (Hp' : p' = mkProcess (st w1) (st w2) (upstream w2) (invocations w2)).
  { destruct (is_empty (or_else cb gb)); [now inversion Hrun |].
    destruct (is_empty (or_else ca ga)); [now inversion Hrun |].
    destruct (aggregate_orderbooks [cb; gb] [ca; ga]). now inversion Hrun. }
  assert (He : e1 = None /\ e2 = None).
  { assert (Hout : exists rest,
               out = (match e1 with Some e => [FailedCoinbase e] | None => [] end
                      ++ match e2 with Some e => [FailedGemini e] | None => [] end)
                     ++ rest).
    { destruct (is_empty (or_else cb gb));
        [eexists; inversion Hrun; now rewrite app_assoc |].
      destruct (is_empty (or_else ca ga));
        [eexists; inversion Hrun; now rewrite app_assoc |].
      destruct (aggregate_orderbooks [cb; gb] [ca; ga]).
      eexists; inversion Hrun; now rewrite app_assoc. }
    destruct Hout as [rest Hout]. subst out.
    destruct e1 as [x |]; [inversion Hok; discriminate |].
    destruct e2 as [x |]; [inversion Hok; discriminate |].
    split; reflexivity. }
  destruct He; subst e1 e2.
  pose proof (try_fetch_stores _ _ _ _ _ _ _ E1) as R1.
  pose proof (try_fetch_stores _ _ _ _ _ _ _ E2) as R2.
  subst p'. cbn [coinbase gemini net fetches] in *.
  unfold main. cbn [coinbase gemini net fetches].
  rewrite (try_fetch_cached _ later1 _ _ _ _ R1 Hl1).
  cbn [upstream invocations].
  rewrite (try_fetch_cached _ later2 _ _ _ _ R2 Hl2).
  cbn [st upstream invocations].
  exact Hrun.
Qed.

(** What a fetch can be reported to have failed with. *)
Lemma try_fetch_caught (fetch : U -> outcome E book * U) (now : Q)
    (s : state book) (u : U) (n : nat) :
  fst (fst (try_fetch fetch now s u n)) = None \/
  exists e, fst (fst (try_fetch fetch now s u n)) = Some (Raised e).
Proof.
  unfold try_fetch, wrapper, within_interval, as_func. cbn [st upstream].
  destruct (Qlt_bool (now - t s) 2 && is_not_None (result s)) eqn:Hc.
  - apply andb_true_iff in Hc. destruct Hc as [_ Hc].
    destruct (result s) as [b |]; [now left | discriminate].
  - destruct (fetch u) as [[b | e] u']; [now left | right; now exists e].
Qed.

(** X21.  [main] never trips over [None].  The decorated adapters never
    hand [None] to the unpacking in [main]: what they return comes from
    the cache, which is served only when it holds a result, or from the
    adapter, which returns a pair.  So no failure notice of [main] is
    ever the [TypeError] of unpacking [None]. *)
Theorem main_never_unpacks_None (qty now1 now2 : Q) (p : process U) :
  ~ In (FailedCoinbase CannotUnpackNone)
       (fst (main fetch_coinbase_orderbook fetch_gemini_orderbook qty now1 now2 p)) /\
  ~ In (FailedGemini CannotUnpackNone)
       (fst (main fetch_coinbase_orderbook fetch_gemini_orderbook qty now1 now2 p)).
Proof.
  unfold main.
  pose proof (try_fetch_caught fetch_coinbase_orderbook now1
                (coinbase p) (net p) (fetches p)) as C1.
  destruct (try_fetch fetch_coinbase_orderbook now1 (coinbase p) (net p) (fetches p))
    as [[e1 [cb ca]] w1].
  pose proof (try_fetch_caught fetch_gemini_orderbook now2
                (gemini p) (upstream w1) (invocations w1)) as C2.
  destruct (try_fetch fetch_gemini_orderbook now2 (gemini p) (upstream w1)
              (invocations w1)) as [[e2 [gb ga]] w2].
  cbn [fst] in C1, C2.
  assert (H1 : e1 <> Some CannotUnpackNone)
    by (destruct C1 as [C1 | [e C1]]; rewrite C1; discriminate).
  assert (H2 : e2 <> Some CannotUnpackNone)
    by (destruct C2 as [C2 | [e C2]]; rewrite C2; discriminate).
  assert (Hn : forall rest : list (line E),
             (forall l, In l rest -> is_failure l = false) ->
             ~ In (FailedCoinbase CannotUnpackNone)
                  (match e1 with Some e => [FailedCoinbase e] | None => [] end ++
                   match e2 with Some e => [FailedGemini e] | None => [] end ++ rest)
             /\
             ~ In (FailedGemini CannotUnpackNone)
                  (match e1 with Some e => [FailedCoinbase e] | None => [] end ++
                   match e2 with Some e => [FailedGemini e] | None => [] end ++ rest)).
  { intros rest Hrest. split; intros Hin;
      apply in_app_or in Hin; destruct Hin as [Hin | Hin];
      try (apply in_app_or in Hin; destruct Hin as [Hin | Hin]);
      try (apply Hrest in Hin; discriminate);
      destruct e1 as [x1 |]; destruct e2 as [x2 |]; simpl in Hin;
      try contradiction; destruct Hin as [Hin | []];
      try discriminate; inversion Hin; congruence. }
  destruct (is_empty (or_else cb gb)).
  { apply Hn. intros l [Hl | []]; now subst. }
  destruct (is_empty (or_else ca ga)).
  { apply Hn. intros l [Hl | []]; now subst. }
  destruct (aggregate_orderbooks [cb; gb] [ca; ga]) as [all_bids all_asks].
  apply Hn. intros l [Hl | [Hl | []]]; subst;
    [destruct (compute_buy_cost all_asks qty)
    |destruct (compute_sell_revenue all_bids qty)]; reflexivity.
Qed.

End MainFacts.

(** The theorems on a run with Coinbase and Gemini both up, or one or
    both down, for a quantity of 2. *)

Lemma main_prices_iff_covered_witness :
  exists notices buy sell,
    fst (main coinbase_up gemini_up 2 10 10 (boot 0%nat)) = notices ++ [buy; sell] /\
    Forall (fun l => is_failure l = true) notices /\
    ((exists cost, buy = ToBuy 2 cost)
       <-> 2 <= total_size [(101, 1); (103, 2)] + total_size [(102, 3)]) /\
    (buy = BuyError
             (ValueError "Insufficient liquidity to buy the requested quantity.")
       <-> total_size [(101, 1); (103, 2)] + total_size [(102, 3)] < 2) /\
    ((exists revenue, sell = ToSell 2 revenue)
       <-> 2 <= total_size [(99, 1); (98, 2)] + total_size [(100, 2)]) /\
    (sell = SellError
              (ValueError "Insufficient liquidity to sell the requested quantity.")
       <-> total_size [(99, 1); (98, 2)] + total_size [(100, 2)] < 2).
Proof.
  apply (main_prices_iff_covered coinbase_up gemini_up 2 10 10 (boot 0%nat)
           None None [(99, 1); (98, 2)] [(101, 1); (103, 2)]
           [(100, 2)] [(102, 3)]
           (mkWorld (mkState 10 (Some ([(99, 1); (98, 2)], [(101, 1); (103, 2)])))
                    1%nat 1%nat)
           (mkWorld (mkState 10 (Some ([(100, 2)], [(102, 3)]))) 2%nat 2%nat));
    try reflexivity; try discriminate; first [exact_ok | book_ok].
Defined.

Lemma main_prints_best_prices_witness :
  exists notices cost revenue,
    fst (main coinbase_up gemini_up 2 10 10 (boot 0%nat))
      = notices ++ [ToBuy 2 cost; ToSell 2 revenue] /\
    Forall (fun l => is_failure l = true) notices /\
    cost <= notional
              (snd (aggregate_orderbooks [[(99, 1); (98, 2)]; [(100, 2)]]
                                         [[(101, 1); (103, 2)]; [(102, 3)]]))
              [1; 0; 1] /\
    notional
      (fst (aggregate_orderbooks [[(99, 1); (98, 2)]; [(100, 2)]]
                                 [[(101, 1); (103, 2)]; [(102, 3)]]))
      [1; 1; 0] <= revenue.
Proof.
  apply (main_prints_best_prices coinbase_up gemini_up 2 10 10 (boot 0%nat)
           None None [(99, 1); (98, 2)] [(101, 1); (103, 2)]
           [(100, 2)] [(102, 3)]
           (mkWorld (mkState 10 (Some ([(99, 1); (98, 2)], [(101, 1); (103, 2)])))
                    1%nat 1%nat)
           (mkWorld (mkState 10 (Some ([(100, 2)], [(102, 3)]))) 2%nat 2%nat)
           [1; 0; 1] [1; 1; 0]);
    try reflexivity; try discriminate; first [exact_ok | vm_compute; book_ok].
Defined.

Lemma main_needs_both_sides_witness :
  exists notices last,
    fst (main venue_down venue_down 2 10 10 (boot 0%nat)) = notices ++ [last] /\
    Forall (fun l => is_failure l = true) notices /\
    (@nil level ++ [] = [] -> last = NoBidData) /\
    (@nil level ++ [] <> [] -> last = NoAskData) /\
    Forall (fun l => is_pricing l = false)
      (fst (main venue_down venue_down 2 10 10 (boot 0%nat))).
Proof.
  apply (main_needs_both_sides venue_down venue_down 2 10 10 (boot 0%nat)
           (Some (Raised "timeout"%string)) (Some (Raised "timeout"%string))
           [] [] [] []
           (mkWorld fresh 1%nat 1%nat) (mkWorld fresh 2%nat 2%nat));
    try reflexivity. now left.
Defined.

Lemma failed_venue_is_empty_venue_witness :
  fst (main venue_down gemini_up 2 10 10 (boot 0%nat))
  = FailedCoinbase (Raised "timeout"%string)
      :: fst (main venue_quiet gemini_up 2 10 10 (boot 0%nat)).
Proof.
  apply (failed_venue_is_empty_venue venue_down gemini_up venue_quiet
           2 10 10 (boot 0%nat) "timeout"%string 1%nat); reflexivity.
Defined.

Lemma main_again_within_interval_witness :
  main coinbase_up gemini_up 2 11 (23 # 2)
    (snd (main coinbase_up gemini_up 2 10 10 (boot 0%nat)))
  = main coinbase_up gemini_up 2 10 10 (boot 0%nat).
Proof.
  apply (main_again_within_interval coinbase_up gemini_up 2 10 10 11 (23 # 2)
           (boot 0%nat)
           (snd (main coinbase_up gemini_up 2 10 10 (boot 0%nat)))
           (fst (main coinbase_up gemini_up 2 10 10 (boot 0%nat)))).
  - reflexivity.
  - vm_compute. repeat constructor.
  - reflexivity.
  - reflexivity.
Defined.

End DriverFacts.
